(** * Verification of the scoreboard statistics core of [main.py]

    The development embeds the data-processing functions of the bot
    ([read_json_db], [write_json_db], [parse_and_store_data],
    [update_player_averages]) and proves the properties stated for
    them.  Python values are modelled as follows:

    - [str] is a list of Unicode code points;
    - [int] is [Z];
    - [float] is IEEE 754 binary64, through [SpecFloat];
    - a [dict] is an association list in insertion order;
    - a [set] is a [gset];
    - an exception is a value of [exn] carried by the [exc] monad;
    - the two JSON files are the fields of a [World]. *)

From Stdlib Require Import ZArith NArith List Ascii String Lia SpecFloat.
From Stdlib Require Import Sorting.Permutation Sorting.Sorted.
From stdpp Require Import base option list gmap sets.

Local Open Scope Z_scope.

(** ** Exceptions *)

Inductive exn :=
| OSError
| FileNotFoundError
| PermissionError
| ValueError
| JSONDecodeError
| UnicodeDecodeError
| OverflowError
| ZeroDivisionError.

(** The part of the built-in class hierarchy that the handlers of
    [main.py] see.  [IOError] is an alias of [OSError]. *)
Definition IOError := OSError.

Definition parent (e : exn) : option exn :=
  match e with
  | FileNotFoundError | PermissionError => Some OSError
  | JSONDecodeError | UnicodeDecodeError => Some ValueError
  | OSError | ValueError | OverflowError | ZeroDivisionError => None
  end.

Definition exn_eqb (a b : exn) : bool :=
  match a, b with
  | OSError, OSError | FileNotFoundError, FileNotFoundError
  | PermissionError, PermissionError | ValueError, ValueError
  | JSONDecodeError, JSONDecodeError
  | UnicodeDecodeError, UnicodeDecodeError
  | OverflowError, OverflowError
  | ZeroDivisionError, ZeroDivisionError => true
  | _, _ => false
  end.

(** [isinstance e c]: the raised exception [e] is caught by [except c].
    The hierarchy above has depth two. *)
Definition isinstance (e c : exn) : bool :=
  exn_eqb e c ||
  match parent e with
  | Some p => exn_eqb p c
  | None => false
  end.

Inductive exc (A : Type) :=
| Return (a : A)
| Raise (e : exn).
Arguments Return {A} a.
Arguments Raise {A} e.

#[global] Instance exc_ret : MRet exc := fun A a => Return a.

#[global] Instance exc_bind : MBind exc := fun A B k m =>
  match m with
  | Return a => k a
  | Raise e => Raise e
  end.

(** ** Floats *)

Module Float.

Definition prec : Z := 53.
Definition emax : Z := 1024.

Definition float := spec_float.

Definition zero : float := S754_zero false.

(** The nearest integer to [num * 2^e], ties to even ([num >= 0]). *)
Definition rne_scaled (num e : Z) : Z :=
  match e with
  | Zneg p =>
      let den := Z.pow_pos 2 p in
      let q := num / den in
      let r := num mod den in
      match 2 * r ?= den with
      | Lt => q
      | Gt => q + 1
      | Eq => if Z.even q then q else q + 1
      end
  | _ => num * 2 ^ e
  end.

(** The float nearest to [a / b] for positive [a] and [b], both
    taken exactly. *)
Definition nearest_quotient (s : bool) (a b : positive) : float :=
  SFdiv prec emax (S754_finite s a 0) (S754_finite false b 0).

Definition finite_or_overflow (x : float) : exc float :=
  match x with
  | S754_infinity _ => Raise OverflowError
  | _ => Return x
  end.

(** [a / b] on two [int]: correctly rounded true division. *)
Definition int_true_div (a b : Z) : exc float :=
  match b with
  | Z0 => Raise ZeroDivisionError
  | _ =>
      let s := xorb (a <? 0) (b <? 0) in
      match Z.abs a with
      | Zpos ma =>
          finite_or_overflow (nearest_quotient s ma (Z.to_pos (Z.abs b)))
      | _ => Return (S754_zero s)
      end
  end.

(** [x / y] on two [float]. *)
Definition float_div (x y : float) : exc float :=
  match y with
  | S754_zero _ => Raise ZeroDivisionError
  | _ => Return (SFdiv prec emax x y)
  end.

(** [x > 0]. *)
Definition gt_zero (x : float) : bool := SFltb zero x.

(** [x == 0]. *)
Definition eq_zero (x : float) : bool := SFeqb x zero.

(** [round(x, 2)]: the exact value of [x] is rounded to two decimals,
    ties to even, and the decimal is converted back to the nearest
    float. *)
Definition round2 (x : float) : exc float :=
  match x with
  | S754_finite s m e =>
      match rne_scaled (Zpos m * 100) e with
      | Zpos n => finite_or_overflow (nearest_quotient s n 100)
      | _ => Return (S754_zero s)
      end
  | _ => Return x
  end.

(** [round(x)]: the nearest [int], ties to even. *)
Definition round0 (x : float) : exc Z :=
  match x with
  | S754_zero _ => Return 0
  | S754_finite s m e =>
      let n := rne_scaled (Zpos m) e in
      Return (if s then - n else n)
  | S754_infinity _ => Raise OverflowError
  | S754_nan => Raise ValueError
  end.

(** The float of a small literal, for examples. *)
Definition of_Z (n : Z) : float := binary_normalize prec emax n 0 false.

End Float.

(** ** Strings *)

Definition char := N.
Definition str := list char.

(** A literal of the source, given by its ASCII bytes. *)
Definition lit (s : string) : str :=
  map N_of_ascii (list_ascii_of_string s).

Definition NEWLINE : char := 10%N.
Definition PLUS : char := 43%N.
Definition HYPHEN : char := 45%N.
Definition PERIOD : char := 46%N.
Definition UNDERSCORE : char := 95%N.

(** The tables of the Unicode database that [str.strip], [int] and the
    character classes of [re] consult.  The two laws are facts of every
    version of the database: no white space character is a decimal
    digit, and the decimal digits below 128 are ['0'] to ['9']. *)
Class UnicodeData := {
  is_space : char -> bool;
  decimal_value : char -> option N;
  is_alnum : char -> bool;
  space_not_decimal :
    forall c, is_space c = true -> decimal_value c = None;
  decimal_ascii :
    forall c, (c < 128)%N ->
      decimal_value c =
        if ((48 <=? c) && (c <=? 57))%N then Some (c - 48)%N else None
}.

Section Strings.

Context `{UnicodeData}.

(** [\d] *)
Definition is_decimal (c : char) : bool :=
  match decimal_value c with
  | Some _ => true
  | None => false
  end.

(** [\w] *)
Definition is_word (c : char) : bool :=
  is_alnum c || (c =? UNDERSCORE)%N.

Fixpoint lstrip_with (space : char -> bool) (s : str) : str :=
  match s with
  | c :: s' => if space c then lstrip_with space s' else s
  | [] => []
  end.

Definition strip_with (space : char -> bool) (s : str) : str :=
  rev (lstrip_with space (rev (lstrip_with space s))).

(** [s.strip()] *)
Definition strip (s : str) : str := strip_with is_space s.

(** [s.split(sep)] for a separator of one character. *)
Fixpoint split (sep : char) (s : str) : list str :=
  match s with
  | [] => [[]]
  | c :: s' =>
      if (c =? sep)%N then [] :: split sep s'
      else
        match split sep s' with
        | w :: ws => (c :: w) :: ws
        | [] => [[c]]
        end
  end.

(** The digits of a decimal literal: groups of decimal digits joined
    by single underscores.  [after_digit] tells whether the previous
    character was a digit. *)
Fixpoint digits (acc : N) (after_digit : bool) (s : str) : option N :=
  match s with
  | [] => if after_digit then Some acc else None
  | c :: s' =>
      match decimal_value c with
      | Some d => digits (10 * acc + d)%N true s'
      | None =>
          if (c =? UNDERSCORE)%N && after_digit
          then digits acc false s'
          else None
      end
  end.

(** The white space that [int] skips around a literal: that of
    [str.isspace] without the four separators U+001C to U+001F. *)
Definition int_space (c : char) : bool :=
  is_space c && negb ((28 <=? c) && (c <=? 31))%N.

(** The most digits that the interpreter converts between [str] and
    [int]: [sys.get_int_max_str_digits()], which the program leaves at
    its default. *)
Definition MAX_STR_DIGITS : nat := 4300.

(** [int(s)] in base ten: white space around the literal is ignored,
    one sign is allowed, and a literal of more than [MAX_STR_DIGITS]
    digits (leading zeros count, underscores do not) is refused. *)
Definition int (s : str) : exc Z :=
  let body := strip_with int_space s in
  let '(negative, body) :=
    match body with
    | c :: rest =>
        if (c =? HYPHEN)%N then (true, rest)
        else if (c =? PLUS)%N then (false, rest)
        else (false, body)
    | [] => (false, body)
    end in
  match digits 0 false body with
  | Some n =>
      if (MAX_STR_DIGITS <? length (List.filter is_decimal body))%nat
      then Raise ValueError
      else Return (if negative then - Z.of_N n else Z.of_N n)
  | None => Raise ValueError
  end.

End Strings.

(** The tables restricted to the ASCII range, for examples. *)
Definition ascii_space (c : char) : bool :=
  ((9 <=? c) && (c <=? 13) || (28 <=? c) && (c <=? 32))%N.

Definition ascii_decimal (c : char) : option N :=
  if ((48 <=? c) && (c <=? 57))%N then Some (c - 48)%N else None.

Definition ascii_alnum (c : char) : bool :=
  ((48 <=? c) && (c <=? 57) || (65 <=? c) && (c <=? 90)
   || (97 <=? c) && (c <=? 122))%N.

(** ** Dictionaries *)

Section Dict.

Context {V : Type}.

Definition dict := list (str * V).

Definition keys (d : dict) : list str := map fst d.
Definition values (d : dict) : list V := map snd d.

(** [d[k]], or [None] where the source would raise [KeyError]. *)
Fixpoint dict_get (k : str) (d : dict) : option V :=
  match d with
  | [] => None
  | (k', v) :: d' => if decide (k = k') then Some v else dict_get k d'
  end.

(** [d[k] = v]: an existing key keeps its position, a new key goes
    last. *)
Fixpoint dict_set (k : str) (v : V) (d : dict) : dict :=
  match d with
  | [] => [(k, v)]
  | (k', v') :: d' =>
      if decide (k = k') then (k, v) :: d' else (k', v') :: dict_set k v d'
  end.

(** The keys of a dictionary are pairwise different. *)
Definition dict_wf (d : dict) : Prop := NoDup (keys d).

End Dict.

Arguments dict V : clear implicits.

(** ** Sorting *)

Section Sort.

Context {A : Type} (key : A -> Z).

Fixpoint insert_desc (x : A) (l : list A) : list A :=
  match l with
  | [] => [x]
  | y :: l' =>
      if key y <=? key x then x :: l else y :: insert_desc x l'
  end.

(** [l.sort(key=key, reverse=True)]: descending in the key, and
    elements of equal key stay in their original order. *)
Definition sort_reverse (l : list A) : list A :=
  foldr insert_desc [] l.

(** [a] may stand before [b] in a list sorted that way. *)
Definition descending : relation A := fun a b => key b <= key a.

End Sort.

(** ** Levenshtein distance *)

(** [Levenshtein.distance(s, t)] with the unit costs of the library:
    the least number of insertions, deletions and substitutions of one
    character that turn [s] into [t]. *)
Fixpoint distance (s t : str) : nat :=
  match s with
  | [] => length t
  | a :: s' =>
      (fix against (t : str) : nat :=
         match t with
         | [] => length s
         | b :: t' =>
             Nat.min (Nat.min (S (distance s' t)) (S (against t')))
                     ((if (a =? b)%N then 0 else 1) + distance s' t')%nat
         end) t
  end.

Definition MAX_DISTANCE : nat := 3.

(** ** Regular expressions *)

(** The fragment of [re] that the row pattern uses: a sequence of
    character classes, each repeated ([*] or [+]), greedily or not,
    inside a capturing group or not.  Matching is anchored at the start
    of the subject, as [re.match] does, and backtracks in the order of
    the [re] module. *)
Module Re.

Inductive greed := Greedy | Lazy.

Record piece := {
  class : char -> bool;
  nonempty : bool;     (* [+] rather than [*] *)
  mode : greed;
  group : bool         (* inside ( ) *)
}.

Definition regex := list piece.

Section Runs.

Context {R : Type} (class : char -> bool) (k : str -> str -> option R).

(** Both take the run read so far (reversed) and whether the run
    may end here.  The greedy quantifier reads on as long as it can
    and gives characters back one at a time; the lazy one tries to
    end first and reads on only if the rest fails. *)
Fixpoint run_greedy (seen : str) (may_end : bool) (s : str) : option R :=
  match (match s with
         | c :: s' => if class c then run_greedy (c :: seen) true s' else None
         | [] => None
         end) with
  | Some r => Some r
  | None => if may_end then k (rev seen) s else None
  end.

Fixpoint run_lazy (seen : str) (may_end : bool) (s : str) : option R :=
  match (if may_end then k (rev seen) s else None) with
  | Some r => Some r
  | None =>
      match s with
      | c :: s' => if class c then run_lazy (c :: seen) true s' else None
      | [] => None
      end
  end.

End Runs.

(** [re.match(p, s)]: the groups of the first match in backtracking
    order, or [None]. *)
Fixpoint rmatch (p : regex) (s : str) : option (list str) :=
  match p with
  | [] => Some []
  | a :: p' =>
      let k run rest :=
        match rmatch p' rest with
        | Some groups => Some (if group a then run :: groups else groups)
        | None => None
        end in
      match mode a with
      | Greedy => run_greedy (class a) k [] (negb (nonempty a)) s
      | Lazy => run_lazy (class a) k [] (negb (nonempty a)) s
      end
  end.

(** What it means for a subject to have the shape of a pattern: it
    starts with one run per piece, each run in its class and not
    empty under [+]; the groups are the runs of the capturing
    pieces. *)
Inductive shaped : regex -> str -> list str -> Prop :=
| shaped_nil s : shaped [] s []
| shaped_cons a p run rest groups :
    Forall (fun c => class a c = true) run ->
    (nonempty a = true -> run <> []) ->
    shaped p rest groups ->
    shaped (a :: p) (run ++ rest)
           (if group a then run :: groups else groups).

End Re.

(** ** Match records and the raw store *)

Record MatchRecord := {
  place : Z;
  nickname : str;
  kills : Z;
  deaths : Z;
  assists : Z;
  treasury : Z;
  score : Z
}.

Definition RawStore := dict (list MatchRecord).

Section Parser.

Context `{UnicodeData}.

Import Re.

Definition star (c : char -> bool) : piece :=
  {| class := c; nonempty := false; mode := Greedy; group := false |}.
Definition plus (c : char -> bool) : piece :=
  {| class := c; nonempty := true; mode := Greedy; group := false |}.
Definition plus_group (c : char -> bool) : piece :=
  {| class := c; nonempty := true; mode := Greedy; group := true |}.
Definition lazy_plus_group (c : char -> bool) : piece :=
  {| class := c; nonempty := true; mode := Lazy; group := true |}.

(** [[\w\s.-]] *)
Definition name_char (c : char) : bool :=
  is_word c || is_space c || (c =? PERIOD)%N || (c =? HYPHEN)%N.

(** [^\s*(\d+)\s+([\w\s.-]+?)\s+(\d+)\s+(\d+)\s+(\d+)\s+(\d+)\s+(\d+)] *)
Definition ROW_PATTERN : regex :=
  [ star is_space; plus_group is_decimal;
    plus is_space; lazy_plus_group name_char;
    plus is_space; plus_group is_decimal;
    plus is_space; plus_group is_decimal;
    plus is_space; plus_group is_decimal;
    plus is_space; plus_group is_decimal;
    plus is_space; plus_group is_decimal ].

(** The body of the loop over the lines: the records that one line
    adds to [stats_for_this_image]. *)
Definition parse_line (line : str) : exc (list MatchRecord) :=
  match rmatch ROW_PATTERN (strip line) with
  | Some [place; nickname; kills; deaths; assists; treasury; score] =>
      place ← int place;
      kills ← int kills;
      deaths ← int deaths;
      assists ← int assists;
      treasury ← int treasury;
      score ← int score;
      mret [ {| place := place; nickname := strip nickname;
                kills := kills; deaths := deaths; assists := assists;
                treasury := treasury; score := score |} ]
  | Some _ => Raise ValueError
  | None => mret []
  end.

Definition stats_for_this_image (data : str) : exc (list MatchRecord) :=
  let lines := split NEWLINE (strip data) in
  per_line ← mapM parse_line lines;
  mret (concat per_line).

(** Returns the count and the store after the call: the source
    mutates the dictionary it is given. *)
Definition parse_and_store_data
    (image_name : str) (data : str) (raw_data_dict : RawStore)
    : exc (nat * RawStore) :=
  stats ← stats_for_this_image data;
  let raw_data_dict :=
    match stats with
    | [] => raw_data_dict
    | _ :: _ => dict_set image_name stats raw_data_dict
    end in
  mret (length stats, raw_data_dict).

End Parser.

(** The ASCII tables satisfy the laws of the database. *)
Lemma ascii_space_not_decimal c :
  ascii_space c = true -> ascii_decimal c = None.
Proof.
  unfold ascii_space, ascii_decimal. intros Hs.
  destruct (N.leb_spec 48 c), (N.leb_spec c 57); simpl; try reflexivity.
  destruct (N.leb_spec 9 c), (N.leb_spec c 13), (N.leb_spec 28 c),
    (N.leb_spec c 32); simpl in Hs; try discriminate; lia.
Qed.

Lemma ascii_decimal_ascii c :
  (c < 128)%N ->
  ascii_decimal c =
    if ((48 <=? c) && (c <=? 57))%N then Some (c - 48)%N else None.
Proof. reflexivity. Qed.

Definition ascii_tables : UnicodeData := {|
  is_space := ascii_space;
  decimal_value := ascii_decimal;
  is_alnum := ascii_alnum;
  space_not_decimal := ascii_space_not_decimal;
  decimal_ascii := ascii_decimal_ascii
|}.

(** ** Player averages and the persisted files *)

Record Averages := {
  games_played : Z;
  avg_place : Z;
  kd : Float.float;
  avg_kills : Float.float;
  avg_deaths : Float.float;
  avg_assists : Float.float;
  avg_score : Float.float
}.

Definition PlayerAverages := dict Averages.

(** What opening and loading a JSON file can meet.  A file that holds
    a document holds one of the schema that the program writes to it:
    [A] is the type of the dictionary. *)
Inductive file (A : Type) :=
| Absent          (* no file of that name *)
| Denied          (* the file cannot be opened for reading *)
| Undecodable     (* the bytes are not UTF-8 text *)
| Malformed       (* the text is not a JSON document *)
| Overlong        (* a JSON document with an integer literal of more
                     digits than [int] accepts *)
| Holds (a : A).
Arguments Absent {A}.
Arguments Denied {A}.
Arguments Undecodable {A}.
Arguments Malformed {A}.
Arguments Overlong {A}.
Arguments Holds {A} a.

Inductive db_path := RAW_STATS_FILE | PLAYER_AVERAGES_FILE.

Definition content (p : db_path) : Type :=
  match p with
  | RAW_STATS_FILE => RawStore
  | PLAYER_AVERAGES_FILE => PlayerAverages
  end.

(** [{}] *)
Definition empty_dict (p : db_path) : content p :=
  match p with
  | RAW_STATS_FILE => []
  | PLAYER_AVERAGES_FILE => []
  end.

Record World := {
  raw_stats : file RawStore;
  player_averages : file PlayerAverages;
  read_only : db_path -> bool   (* opening for writing fails *)
}.

Definition file_at (p : db_path) (w : World) : file (content p) :=
  match p with
  | RAW_STATS_FILE => raw_stats w
  | PLAYER_AVERAGES_FILE => player_averages w
  end.

Definition store_at (p : db_path) (f : file (content p)) (w : World) : World :=
  match p return file (content p) -> World with
  | RAW_STATS_FILE => fun f =>
      {| raw_stats := f; player_averages := player_averages w;
         read_only := read_only w |}
  | PLAYER_AVERAGES_FILE => fun f =>
      {| raw_stats := raw_stats w; player_averages := f;
         read_only := read_only w |}
  end f.

(** [with open(db_path, 'r', encoding='utf-8') as f: json.load(f)] *)
Definition json_load {A} (f : file A) : exc A :=
  match f with
  | Absent => Raise FileNotFoundError
  | Denied => Raise PermissionError
  | Undecodable => Raise UnicodeDecodeError
  | Malformed => Raise JSONDecodeError
  | Overlong => Raise ValueError
  | Holds a => Return a
  end.

(** [with open(db_path, 'w', encoding='utf-8') as f:
    json.dump(data, f, ensure_ascii=False, indent=4)].  The file system
    is modelled as far as opening goes: a file that cannot be opened
    for writing raises, and a file that is opened is written in full.
    A write that breaks off after the file is opened (a full disk), and
    text that UTF-8 cannot encode (a lone surrogate in a nickname), are
    outside this model; the properties below that speak of a file after
    a write hold under this assumption. *)
Definition json_dump (p : db_path) (data : content p) (w : World)
    : exc World :=
  if read_only w p then Raise PermissionError
  else Return (store_at p (Holds data) w).

(** The result [None] is Python's [None], returned after the message
    of the second handler is printed (the console is not modelled). *)
Definition read_json_db (db_path : db_path) (w : World)
    : exc (option (content db_path)) :=
  match json_load (file_at db_path w) with
  | Return data => Return (Some data)
  | Raise e =>
      if isinstance e FileNotFoundError || isinstance e JSONDecodeError
      then Return (Some (empty_dict db_path))
      else if isinstance e IOError then Return None
      else Raise e
  end.

Definition write_json_db (db_path : db_path) (data : content db_path)
    (w : World) : exc World :=
  match json_dump db_path data w with
  | Return w' => Return w'
  | Raise e => if isinstance e IOError then Return w else Raise e
  end.

(** ** Aggregation *)

Definition StatTuple := (Z * Z * Z * Z * Z * Z)%type.

Definition col0 (t : StatTuple) : Z := let '(a, _, _, _, _, _) := t in a.
Definition col1 (t : StatTuple) : Z := let '(_, a, _, _, _, _) := t in a.
Definition col2 (t : StatTuple) : Z := let '(_, _, a, _, _, _) := t in a.
Definition col3 (t : StatTuple) : Z := let '(_, _, _, a, _, _) := t in a.
Definition col5 (t : StatTuple) : Z := let '(_, _, _, _, _, a) := t in a.

(** [sum(l)] *)
Definition py_sum (l : list Z) : Z := fold_left Z.add l 0.

Fixpoint fold_leftM {A B} (f : A -> B -> exc A) (l : list B) (a : A)
    : exc A :=
  match l with
  | [] => Return a
  | b :: l' => a' ← f a b; fold_leftM f l' a'
  end.

Inductive message :=
| NO_RAW_DATA       (* "Сырых данных для анализа нет." *)
| RAW_DATA_EMPTY.   (* "Сырые данные пусты, анализ невозможен." *)

(** The value that [update_player_averages] returns: one of the two
    messages, or the dictionary with the summary (whose text carries
    the number of players and [MIN_GAMES]) and the two totals. *)
Inductive update_result :=
| Message (m : message)
| Summary (players_in_stats : nat) (min_games : Z)
          (total_kills total_deaths : Z).

Section Aggregation.

Context `{UnicodeData}.
Variable MIN_GAMES : Z.

(** [int(filename.split('-')[0])]; [split] never returns the empty
    list. *)
Definition sort_key (filename : str) : exc Z :=
  int (hd [] (split HYPHEN filename)).

(** [all_known_files] after the sort.  The keys are computed for
    every file name before any comparison. *)
Definition all_known_files (raw_data_dict : RawStore) : exc (list str) :=
  keyed ← mapM (fun filename => k ← sort_key filename; mret (k, filename))
               (keys raw_data_dict);
  mret (map snd (sort_reverse fst keyed)).

Definition recent_files (raw_data_dict : RawStore) : exc (gset str) :=
  files ← all_known_files raw_data_dict;
  mret (list_to_set (take 10 files)).

(** The nicknames that one recent file adds to [active_nicknames]. *)
Definition nicknames_in (raw_data_dict : RawStore) (filename : str)
    : gset str :=
  match dict_get filename raw_data_dict with
  | Some players => list_to_set (map nickname players)
  | None => ∅
  end.

Definition active_nicknames (raw_data_dict : RawStore) : exc (gset str) :=
  recent ← recent_files raw_data_dict;
  mret (⋃ (map (nicknames_in raw_data_dict) (elements recent))).

Definition all_stats (raw_data_dict : RawStore) : list MatchRecord :=
  concat (values raw_data_dict).

Definition stats_of (player_stat : MatchRecord) : StatTuple :=
  (place player_stat, kills player_stat, deaths player_stat,
   assists player_stat, treasury player_stat, score player_stat).

(** The inner loop of the grouping: [x] is appended to the list of
    the first name within [MAX_DISTANCE] of [nickname]; [None] when
    the loop ends with [found] still false.  The grouping is written
    for any payload [x]; the source groups the stat tuples. *)
Fixpoint append_first_fit {X} (nickname : str) (x : X)
    (grouped : dict (list X)) : option (dict (list X)) :=
  match grouped with
  | [] => None
  | (name, l) :: rest =>
      if (distance nickname name <=? MAX_DISTANCE)%nat
      then Some ((name, l ++ [x]) :: rest)
      else
        match append_first_fit nickname x rest with
        | Some rest' => Some ((name, l) :: rest')
        | None => None
        end
  end.

Definition group_step {X} (payload : MatchRecord -> X)
    (grouped : dict (list X)) (player_stat : MatchRecord)
    : dict (list X) :=
  match append_first_fit (nickname player_stat) (payload player_stat)
                         grouped with
  | Some grouped' => grouped'
  | None => dict_set (nickname player_stat) [payload player_stat] grouped
  end.

Definition group {X} (payload : MatchRecord -> X)
    (stats : list MatchRecord) : dict (list X) :=
  fold_left (group_step payload) stats [].

Definition grouped_data (raw_data_dict : RawStore) : dict (list StatTuple) :=
  group stats_of (all_stats raw_data_dict).

(** The nicknames that the grouping attributes to each canonical
    name (the source keeps their stat tuples only). *)
Definition cluster_members (raw_data_dict : RawStore) : dict (list str) :=
  group nickname (all_stats raw_data_dict).

Definition is_active (active : gset str) (name : str) : bool :=
  existsb (fun active_nick =>
             (distance name active_nick <=? MAX_DISTANCE)%nat)
          (elements active).

(** The entry written for one retained name. *)
Definition averages_of (stats_list : list StatTuple) : exc Averages :=
  let games := Z.of_nat (length stats_list) in
  avg_kills ← Float.int_true_div (py_sum (map col1 stats_list)) games;
  avg_deaths ← Float.int_true_div (py_sum (map col2 stats_list)) games;
  mean_place ← Float.int_true_div (py_sum (map col0 stats_list)) games;
  the_place ← Float.round0 mean_place;
  the_kd ← (if Float.gt_zero avg_deaths
            then q ← Float.float_div avg_kills avg_deaths; Float.round2 q
            else mret avg_kills);
  the_kills ← Float.round2 avg_kills;
  the_deaths ← Float.round2 avg_deaths;
  mean_assists ← Float.int_true_div (py_sum (map col3 stats_list)) games;
  the_assists ← Float.round2 mean_assists;
  mean_score ← Float.int_true_div (py_sum (map col5 stats_list)) games;
  the_score ← Float.round2 mean_score;
  mret {| games_played := games; avg_place := the_place; kd := the_kd;
          avg_kills := the_kills; avg_deaths := the_deaths;
          avg_assists := the_assists; avg_score := the_score |}.

(** One iteration of the loop over [grouped_data.items()]; the state
    is [new_averages] and [players_in_stats]. *)
Definition averages_step (active : gset str)
    (acc : PlayerAverages * nat) (item : str * list StatTuple)
    : exc (PlayerAverages * nat) :=
  let '(name, stats_list) := item in
  if negb (is_active active name) then mret acc
  else
    let games := Z.of_nat (length stats_list) in
    if games <? MIN_GAMES then mret acc
    else
      entry ← averages_of stats_list;
      mret (dict_set name entry (fst acc), S (snd acc)).

Definition new_averages (active : gset str)
    (grouped : dict (list StatTuple)) : exc (PlayerAverages * nat) :=
  fold_leftM (averages_step active) grouped ([], 0%nat).

(** The function between the read and the write: [None] stands for
    the early return on an empty [all_stats]. *)
Definition aggregate (raw_data_dict : RawStore)
    : exc (option (PlayerAverages * update_result)) :=
  active ← active_nicknames raw_data_dict;
  let stats := all_stats raw_data_dict in
  match stats with
  | [] => mret None
  | _ :: _ =>
      let total_kills := py_sum (map kills stats) in
      let total_deaths := py_sum (map deaths stats) in
      '(averages, players_in_stats) ←
        new_averages active (grouped_data raw_data_dict);
      mret (Some (averages,
                  Summary players_in_stats MIN_GAMES
                          total_kills total_deaths))
  end.

Definition update_player_averages (w : World)
    : exc update_result * World :=
  match read_json_db RAW_STATS_FILE w with
  | Raise e => (Raise e, w)
  | Return None | Return (Some []) => (Return (Message NO_RAW_DATA), w)
  | Return (Some raw_data_dict) =>
      match aggregate raw_data_dict with
      | Raise e => (Raise e, w)
      | Return None => (Return (Message RAW_DATA_EMPTY), w)
      | Return (Some (averages, result)) =>
          match write_json_db PLAYER_AVERAGES_FILE averages w with
          | Return w' => (Return result, w')
          | Raise e => (Raise e, w)
          end
      end
  end.

End Aggregation.

(** ** Notions used in the statements *)

(** [f] applied to every element of every list of a grouping. *)
Definition map_lists {X Y} (f : X -> Y) (grouped : dict (list X))
    : dict (list Y) :=
  map (fun item => (fst item, map f (snd item))) grouped.

(** The binary64 number nearest to [a / b] with the sign [s], for
    [a >= 0]: the division of IEEE 754, as the standard library
    specifies it, on the two integers taken exactly. *)
Definition signed_nearest (s : bool) (a : Z) (b : positive) : spec_float :=
  match a with
  | Zpos p => SFdiv 53 1024 (S754_finite s p 0) (S754_finite false b 0)
  | _ => S754_zero s
  end.

(** The binary64 number nearest to [a / b], for [b > 0]. *)
Definition nearest_binary64 (a b : Z) : spec_float :=
  signed_nearest (a <? 0) (Z.abs a) (Z.to_pos b).

(** The mean of a column of integers, as a binary64 number. *)
Definition mean (column : list Z) : spec_float :=
  nearest_binary64 (foldr Z.add 0 column) (Z.of_nat (length column)).

(** [n] is the integer nearest to [100 * m * 2^e], and the even one of
    the two nearest when they are equally near. *)
Definition nearest_hundredths (m : positive) (e : Z) (n : Z) : Prop :=
  let num := 100 * Zpos m * 2 ^ Z.max e 0 in
  let den := 2 ^ Z.max (- e) 0 in
  2 * Z.abs (num - n * den) <= den /\
  (2 * Z.abs (num - n * den) = den -> Z.even n = true).

(** [y] is [x] rounded to two decimals: the number of hundredths
    nearest to the exact value of [x], as a binary64 number again.
    Zeros, infinities and NaN are left as they are. *)
Definition rounded_to_hundredths (x y : spec_float) : Prop :=
  match x with
  | S754_finite s m e =>
      exists n, nearest_hundredths m e n /\ y = signed_nearest s n 100
  | _ => y = x
  end.

Section Statements.

Context `{UnicodeData}.

(** The number that a string of decimal digits writes. *)
Definition decimal_number (s : str) : N :=
  fold_left (fun acc c => (10 * acc + default 0 (decimal_value c))%N) s 0%N.

(** A group that [(\d+)] can capture. *)
Definition number_group (s : str) : Prop :=
  Forall (fun c => is_decimal c = true) s /\ s <> [].

(** The record that the parser builds from the seven groups. *)
Definition record_of_groups (g_place g_name g_kills g_deaths g_assists
    g_treasury g_score : str) : MatchRecord :=
  {| place := Z.of_N (decimal_number g_place);
     nickname := strip g_name;
     kills := Z.of_N (decimal_number g_kills);
     deaths := Z.of_N (decimal_number g_deaths);
     assists := Z.of_N (decimal_number g_assists);
     treasury := Z.of_N (decimal_number g_treasury);
     score := Z.of_N (decimal_number g_score) |}.

(** The line, stripped, is matched by the row pattern. *)
Definition row_matches (line : str) : bool :=
  match Re.rmatch ROW_PATTERN (strip line) with
  | Some _ => true
  | None => false
  end.

(** [core] is [s] without the white space at its two ends: said with
    the white space characters alone, not with [strip]. *)
Definition trimmed (s core : str) : Prop :=
  exists before after,
    s = before ++ core ++ after /\
    Forall (fun c => is_space c = true) before /\
    Forall (fun c => is_space c = true) after /\
    (forall c rest, core = c :: rest -> is_space c = false) /\
    (forall c rest, core = rest ++ [c] -> is_space c = false).

(** The digit group is within the limit of [int]. *)
Definition within_limit (g : str) : bool :=
  (length g <=? MAX_STR_DIGITS)%nat.

(** The six digit groups of a match are within the limit. *)
Definition digit_groups_fit (groups : list str) : bool :=
  match groups with
  | [g_place; _; g_kills; g_deaths; g_assists; g_treasury; g_score] =>
      within_limit g_place && within_limit g_kills && within_limit g_deaths
      && within_limit g_assists && within_limit g_treasury
      && within_limit g_score
  | _ => true
  end.

(** The row pattern matches the line, stripped, with a digit group
    that is beyond the limit of [int]. *)
Definition overlong_row (line : str) : bool :=
  match Re.rmatch ROW_PATTERN (strip line) with
  | Some groups => negb (digit_groups_fit groups)
  | None => false
  end.

(** The characters of a file name before its first ['-']. *)
Fixpoint before_hyphen (filename : str) : str :=
  match filename with
  | [] => []
  | c :: rest => if (c =? HYPHEN)%N then [] else c :: before_hyphen rest
  end.

(** The file name has a numeric prefix: the characters before its
    first ['-'] are decimal digits, at least one and no more than
    [int] accepts. *)
Definition numeric_prefix (filename : str) : bool :=
  let prefix := before_hyphen filename in
  forallb is_decimal prefix && negb (bool_decide (prefix = []))
  && within_limit prefix.

(** The integer that the numeric prefix of a file name writes. *)
Definition prefix_value (filename : str) : Z :=
  Z.of_N (decimal_number (before_hyphen filename)).

(** Every file name of the store has a numeric prefix. *)
Definition numeric_prefixes (raw_data_dict : RawStore) : Prop :=
  forall filename, filename ∈ keys raw_data_dict ->
    numeric_prefix filename = true.

(** A file name paired with its sort key. *)
Definition keyed_ok (p : Z * str) : Prop :=
  sort_key (snd p) = Return (fst p).

(** No file of [older] has a larger numeric prefix than a file of
    [newer]. *)
Definition newest_first (newer older : list str) : Prop :=
  forall a b, a ∈ newer -> b ∈ older -> prefix_value b <= prefix_value a.

(** The nickname occurs in one of the given matches of the store. *)
Definition occurs_in (raw_data_dict : RawStore) (files : list str)
    (nick : str) : Prop :=
  exists filename players player_stat,
    filename ∈ files /\
    dict_get filename raw_data_dict = Some players /\
    player_stat ∈ players /\
    nickname player_stat = nick.

(** Activity gating read on the members of an identity: a canonical
    name none of whose member nicknames is active has no entry. *)
Definition gating_by_members (MIN_GAMES : Z) (raw_data_dict : RawStore)
    : Prop :=
  forall averages result active name members,
    aggregate MIN_GAMES raw_data_dict = Return (Some (averages, result)) ->
    active_nicknames raw_data_dict = Return active ->
    dict_get name (cluster_members raw_data_dict) = Some members ->
    (forall nick, nick ∈ members -> nick ∉ active) ->
    dict_get name averages = None.

End Statements.

(** The file is there and can be opened, and its contents do not parse
    as a document: the bytes are no text, the text is no JSON, or a
    number in it is beyond what the parser converts. *)
Definition fails_to_parse {A} (f : file A) : bool :=
  match f with
  | Undecodable | Malformed | Overlong => true
  | Absent | Denied | Holds _ => false
  end.

(** [not raw_data_dict] on what [read_json_db] returned from the raw
    file: [None] or the empty dictionary. *)
Definition loaded_store_is_empty (w : World) : Prop :=
  read_json_db RAW_STATS_FILE w = Return None \/
  read_json_db RAW_STATS_FILE w = Return (Some []).

Section Checks.

Context `{UnicodeData}.

Definition returns {A} (m : exc A) : bool :=
  match m with
  | Return _ => true
  | Raise _ => false
  end.

(** The boolean form of [numeric_prefixes]. *)
Definition numeric_prefixes_check (raw_data_dict : RawStore) : bool :=
  forallb numeric_prefix (keys raw_data_dict).

End Checks.

(** ** Sample data *)

Definition player (name : string) (the_kills the_deaths : Z) : MatchRecord :=
  {| place := 1; nickname := lit name; kills := the_kills;
     deaths := the_deaths; assists := 0; treasury := 0; score := 0 |}.

Definition world_of (raw_data_dict : RawStore) : World :=
  {| raw_stats := Holds raw_data_dict; player_averages := Absent;
     read_only := fun _ => false |}.

(** A first start: neither file exists yet. *)
Definition cold_start : World :=
  {| raw_stats := Absent; player_averages := Absent;
     read_only := fun _ => false |}.

(** The raw file is there, and its bytes are not UTF-8 text. *)
Definition undecodable_raw : World :=
  {| raw_stats := Undecodable; player_averages := Absent;
     read_only := fun _ => false |}.

(** Both files are there, the averages file with damaged text. *)
Definition damaged_averages : World :=
  {| raw_stats := Holds []; player_averages := Malformed;
     read_only := fun _ => false |}.

(** Two spellings of one nickname in two matches. *)
Definition vortex_store : RawStore :=
  [ (lit "5-a.png", [player "Vortex" 10 2]);
    (lit "6-a.png", [player "V0rtex" 14 2]) ].

(** Three matches of one player who never died. *)
Definition deathless_store : RawStore :=
  [ (lit "1-a.png", [player "Lone" 1 0]);
    (lit "2-a.png", [player "Lone" 0 0]);
    (lit "3-a.png", [player "Lone" 0 0]) ].

(** Eleven matches.  The oldest one holds [aaaa] and [bbbb]; the ten
    recent ones hold [aabb], which the grouping gives to [aaaa]. *)
Definition eleven_matches : RawStore :=
  (lit "1-a.png", [player "aaaa" 1 1; player "bbbb" 1 0])
  :: map (fun i => (lit "1" ++ [48 + i]%N ++ lit "-a.png",
                    [player "aabb" 3 0]))
         [0; 1; 2; 3; 4; 5; 6; 7; 8; 9]%N.

(** Twelve matches.  The two oldest hold [Stranger], and the oldest
    also [aaaa] and [bbbb]; the ten recent ones hold [aabb]. *)
Definition twelve_matches : RawStore :=
  (lit "1-a.png", [player "aaaa" 1 1; player "bbbb" 1 0;
                   player "Stranger" 5 1])
  :: (lit "2-a.png", [player "Stranger" 4 1])
  :: map (fun i => (lit "1" ++ [48 + i]%N ++ lit "-a.png",
                    [player "aabb" 3 0]))
         [0; 1; 2; 3; 4; 5; 6; 7; 8; 9]%N.

(** A row whose kills are written with 4301 digits. *)
Definition overlong_line : str :=
  lit "1 Vortex " ++ repeat 57%N 4301 ++ lit " 2 0 0 90".

(** ** Notions used in the further properties *)

(** A later name of the list is farther than [MAX_DISTANCE] from
    every earlier one. *)
Definition far_apart (names : list str) : Prop :=
  forall i j earlier later,
    (i < j)%nat -> names !! i = Some earlier -> names !! j = Some later ->
    (MAX_DISTANCE < distance later earlier)%nat.

(** Every list of member nicknames starts with its canonical name and
    holds nicknames within [MAX_DISTANCE] of it only. *)
Definition led_by_exemplar (members : dict (list str)) : Prop :=
  Forall (fun item =>
            hd_error (snd item) = Some (fst item) /\
            Forall (fun nick =>
                      (distance nick (fst item) <= MAX_DISTANCE)%nat)
                   (snd item))
         members.

(** ** Creating the files *)

(** [os.path.exists(db_path)]: a file that cannot be opened, or whose
    content is damaged, exists all the same. *)
Definition path_exists (db_path : db_path) (w : World) : bool :=
  match file_at db_path w with
  | Absent => false
  | _ => true
  end.

Definition init_json_db (db_path : db_path)
    (default_structure : content db_path) (w : World) : exc World :=
  if negb (path_exists db_path w) then
    match json_dump db_path default_structure w with
    | Return w' => Return w'
    | Raise e => if isinstance e IOError then Return w else Raise e
    end
  else Return w.

(** The two calls of [on_ready] that create the files. *)
Definition on_ready (w : World) : exc World :=
  w ← init_json_db RAW_STATS_FILE [] w;
  init_json_db PLAYER_AVERAGES_FILE [] w.

(** ** Names of the image files *)

Definition digit_char (d : N) : char := (48 + d)%N.

(** The decimal digits of [n], for [n < 2 ^ fuel]. *)
Fixpoint decimal_digits (fuel : nat) (n : N) : str :=
  match fuel with
  | O => [digit_char n]
  | S fuel' =>
      if (n <? 10)%N then [digit_char n]
      else decimal_digits fuel' (n / 10) ++ [digit_char (n mod 10)]
  end.

(** [str(n)] on an [int]. *)
Definition str_of_int (n : Z) : str :=
  let digits_of m := decimal_digits (N.to_nat (N.size m)) m in
  match n with
  | Zneg p => HYPHEN :: digits_of (Npos p)
  | _ => digits_of (Z.to_N n)
  end.

(** [f"{message.id}-{attachment.filename}"]: the name under which a
    reaction saves an attachment, which later is the key of the match
    in the raw store. *)
Definition image_file_name (message_id : Z) (filename : str) : str :=
  str_of_int message_id ++ [HYPHEN] ++ filename.

(** ** The configuration *)

Definition COMMA : char := 44%N.

Module Environ.

(** The variables of the environment; [None] is a variable that is
    not set. *)
Record t := {
  GOOGLE_AI_API_KEY : option str;
  DISCORD_BOT_TOKEN : option str;
  ADMIN_USER_IDS : option str;
  LOG_CHANNEL_ID : option str;
  TARGET_CHANNEL_IDS : option str;
  MIN_GAMES_FOR_STATS : option str
}.

End Environ.

Module Config.

Record t := {
  API_KEY : str;
  BOT_TOKEN : str;
  ADMIN_IDS : list Z;
  LOG_CHANNEL_ID : Z;
  TARGET_CHANNEL_IDS : list Z;
  MIN_GAMES : Z
}.

End Config.

Section Configuration.

Context `{UnicodeData}.

(** The truth value of [os.getenv(...)]: [None] and [""] are false. *)
Definition truthy (value : option str) : bool :=
  match value with
  | Some (_ :: _) => true
  | _ => false
  end.

(** [[int(x.strip()) for x in s.split(',')]] *)
Definition int_list (s : str) : exc (list Z) :=
  mapM (fun x => int (strip x)) (split COMMA s).

(** [None] stands for [sys.exit(1)]. *)
Definition load_and_validate_env (env : Environ.t)
    : exc (option Config.t) :=
  match Environ.GOOGLE_AI_API_KEY env, Environ.DISCORD_BOT_TOKEN env,
        Environ.ADMIN_USER_IDS env, Environ.LOG_CHANNEL_ID env,
        Environ.TARGET_CHANNEL_IDS env, Environ.MIN_GAMES_FOR_STATS env with
  | Some api_key, Some bot_token, Some admin_ids, Some log_channel,
    Some target_channels, Some min_games =>
      if forallb truthy
           [Some api_key; Some bot_token; Some admin_ids; Some log_channel;
            Some target_channels; Some min_games]
      then
        match (the_admins ← int_list admin_ids;
               the_log_channel ← int log_channel;
               the_targets ← int_list target_channels;
               the_min_games ← int min_games;
               mret {| Config.API_KEY := api_key;
                       Config.BOT_TOKEN := bot_token;
                       Config.ADMIN_IDS := the_admins;
                       Config.LOG_CHANNEL_ID := the_log_channel;
                       Config.TARGET_CHANNEL_IDS := the_targets;
                       Config.MIN_GAMES := the_min_games |}) with
        | Return config => Return (Some config)
        | Raise e => if isinstance e ValueError then Return None else Raise e
        end
      else Return None
  | _, _, _, _, _, _ => Return None
  end.

End Configuration.

(** ** The update command *)

(** ["Ошибка"], the mark of a failed extraction. *)
Definition ERROR_MARK : str := [1054; 1096; 1080; 1073; 1082; 1072]%N.

(** [s.startswith(prefix)] *)
Fixpoint startswith (s prefix : str) : bool :=
  match prefix, s with
  | [], _ => true
  | p :: prefix', c :: s' => (c =? p)%N && startswith s' prefix'
  | _ :: _, [] => false
  end.

(** [k in d] *)
Definition dict_has {V} (k : str) (d : dict V) : bool :=
  match dict_get k d with
  | Some _ => true
  | None => false
  end.

(** How a command can fail: the [TypeError] of a test of membership in
    [None], or an exception that a called function lets through. *)
Inductive failure :=
| TypeError
| Uncaught (e : exn).

(** The messages to the log channel that carry a count. *)
Inductive notice :=
| FOUND_NEW_IMAGES (n : nat)
| PROCESSED_AND_SAVED (processed_count : nat)
| NO_NEW_IMAGES.

Inductive command_end :=
| NOT_PERMITTED               (* the author is no administrator *)
| NO_LOG_CHANNEL              (* the log channel is not found *)
| COMPLETED (update_results : update_result)
| CRASHED (f : failure).

(** What a call of the command meets outside the two files: who calls,
    whether the log channel is found, the names of the images that the
    three globs list, and the text that the extraction returns for
    each image. *)
Record Invocation := {
  author_id : Z;
  log_channel_found : bool;
  image_files : list str;
  extract_data_with_gemini : str -> str
}.

Section UpdateCommand.

Context `{UnicodeData}.
Variable ADMIN_IDS : list Z.
Variable MIN_GAMES : Z.

(** The body of the loop over [new_images]; the state is [raw_data]
    and [processed_count]. *)
Definition process_image (extract : str -> str)
    (state : RawStore * nat) (image_name : str) : exc (RawStore * nat) :=
  let '(raw_data, processed_count) := state in
  let extracted_data := extract image_name in
  if negb (startswith extracted_data ERROR_MARK) then
    '(parsed_count, raw_data) ←
      parse_and_store_data image_name extracted_data raw_data;
    mret (raw_data, S processed_count)
  else mret (raw_data, processed_count).

(** [[f for f in image_files if f.name not in raw_data]] *)
Definition new_images (image_files : list str) (raw_data : RawStore)
    : list str :=
  List.filter (fun f => negb (dict_has f raw_data)) image_files.

(** The command from the read of the raw file to the flush. *)
Definition process_new_images (image_files : list str)
    (extract : str -> str) (w : World)
    : option failure * World * list notice :=
  match read_json_db RAW_STATS_FILE w with
  | Raise e => (Some (Uncaught e), w, [])
  | Return None =>
      match image_files with
      | [] => (None, w, [NO_NEW_IMAGES])
      | _ :: _ => (Some TypeError, w, [])
      end
  | Return (Some raw_data) =>
      match new_images image_files raw_data with
      | [] => (None, w, [NO_NEW_IMAGES])
      | first :: others =>
          let found := FOUND_NEW_IMAGES (length (first :: others)) in
          match fold_leftM (process_image extract) (first :: others)
                           (raw_data, 0%nat) with
          | Raise e => (Some (Uncaught e), w, [found])
          | Return (raw_data, processed_count) =>
              if (0 <? processed_count)%nat then
                match write_json_db RAW_STATS_FILE raw_data w with
                | Return w' =>
                    (None, w', [found; PROCESSED_AND_SAVED processed_count])
                | Raise e => (Some (Uncaught e), w, [found])
                end
              else (None, w, [found])
          end
      end
  end.

Definition update (call : Invocation) (w : World)
    : command_end * World * list notice :=
  if negb (existsb (Z.eqb (author_id call)) ADMIN_IDS)
  then (NOT_PERMITTED, w, [])
  else if negb (log_channel_found call) then (NO_LOG_CHANNEL, w, [])
  else
    match process_new_images (image_files call)
                             (extract_data_with_gemini call) w with
    | (Some f, w, notices) => (CRASHED f, w, notices)
    | (None, w, notices) =>
        match update_player_averages MIN_GAMES w with
        | (Return update_results, w) => (COMPLETED update_results, w, notices)
        | (Raise e, w) => (CRASHED (Uncaught e), w, notices)
        end
    end.

End UpdateCommand.

Section UpdateNotions.

Context `{UnicodeData}.

(** The rows that the parser accepts in a text. *)
Definition rows_of (data : str) : list MatchRecord :=
  match stats_for_this_image data with
  | Return stats => stats
  | Raise _ => []
  end.

(** The extraction of the image is not marked as failed and holds at
    least one row. *)
Definition yields_rows (extract : str -> str) (image_name : str) : bool :=
  negb (startswith (extract image_name) ERROR_MARK)
  && match rows_of (extract image_name) with
     | [] => false
     | _ :: _ => true
     end.

(** The extraction of the image is not marked as failed and one of its
    lines is a row with a number beyond the limit of [int]: the parser
    raises on it. *)
Definition crashes (extract : str -> str) (image_name : str) : bool :=
  negb (startswith (extract image_name) ERROR_MARK)
  && existsb overlong_row (split NEWLINE (strip (extract image_name))).

(** What one turn of the loop over the new images does to the store. *)
Definition store_image (extract : str -> str) (raw_data : RawStore)
    (image_name : str) : RawStore :=
  if yields_rows extract image_name
  then dict_set image_name (rows_of (extract image_name)) raw_data
  else raw_data.

(** The world that a call of the command leaves. *)
Definition world_after (ADMIN_IDS : list Z) (MIN_GAMES : Z)
    (call : Invocation) (w : World) : World :=
  snd (fst (update ADMIN_IDS MIN_GAMES call w)).

End UpdateNotions.

Section UpdateNotions2.

Context `{UnicodeData}.

(** The author may call the command and the log channel is found. *)
Definition goes_ahead (ADMIN_IDS : list Z) (call : Invocation) : bool :=
  existsb (Z.eqb (author_id call)) ADMIN_IDS && log_channel_found call.

(** The world that the command leaves at the flush of the raw store. *)
Definition world_at_flush (call : Invocation) (w : World) : World :=
  snd (fst (process_new_images (image_files call)
                               (extract_data_with_gemini call) w)).

(** The number of new images whose extraction is not marked as failed. *)
Definition extracted_count (extract : str -> str) (images : list str)
    : nat :=
  length (List.filter (fun f => negb (startswith (extract f) ERROR_MARK))
                      images).

End UpdateNotions2.

(** ** Reactions *)

(** The folder [images]: the paths below it that exist. *)
Definition Folder := gset str.

(** ["✅"] *)
Definition TARGET_EMOJI : str := [9989]%N.

(** [sub in s] on two strings. *)
Fixpoint contains (sub s : str) : bool :=
  startswith s sub ||
  match s with
  | [] => false
  | _ :: s' => contains sub s'
  end.

Module Attachment.

Record t := {
  filename : str;
  content_type : option str    (* [None]: no content type is known *)
}.

End Attachment.

Module Payload.

(** [emoji] is [str(payload.emoji)]. *)
Record t := {
  channel_id : Z;
  user_id : Z;
  emoji : str;
  message_id : Z
}.

End Payload.

(** How [attachment.save(file_path)] ends: an exception can leave a
    file behind (one that was opened and not written in full). *)
Inductive save_end :=
| SAVED
| SAVE_FAILED (file_left : bool).

(** How [bot.get_channel] and [channel.fetch_message] end.  The
    message that is fetched is the one of the payload: its [id] is
    [payload.message_id]. *)
Inductive fetch_end :=
| NO_CHANNEL
| FETCH_FAILED
| FETCHED (attachments : list Attachment.t).

(** What a handler of a reaction meets outside the folder. *)
Record Surroundings := {
  fetch_message : fetch_end;
  save : str -> save_end;
  remove_fails : str -> bool   (* [os.remove(file_path)] raises *)
}.

(** A [for] loop inside a [try] whose handler catches [Exception] and
    only prints: the loop stops at the first exception and what was
    done stays done.  The body returns [inl s] when it completes and
    [inr s] when it raises, [s] being the state then. *)
Fixpoint for_each {S A} (body : S -> A -> S + S) (l : list A) (s : S) : S :=
  match l with
  | [] => s
  | a :: l' =>
      match body s a with
      | inl s' => for_each body l' s'
      | inr s' => s'
      end
  end.

Section Reactions.

Variable TARGET_CHANNEL_IDS : list Z.
Variable ADMIN_IDS : list Z.

(** The guard of both handlers. *)
Definition concerned (payload : Payload.t) : bool :=
  existsb (Z.eqb (Payload.channel_id payload)) TARGET_CHANNEL_IDS
  && existsb (Z.eqb (Payload.user_id payload)) ADMIN_IDS
  && bool_decide (Payload.emoji payload = TARGET_EMOJI).

(** The body of the loop of [on_raw_reaction_add]; [in] on [None]
    raises a [TypeError].  The state is the folder and the paths that
    were handed to [attachment.save], in the order of the calls: a call
    with a path that exists would overwrite the file there. *)
Definition save_attachment (message_id : Z) (save : str -> save_end)
    (state : Folder * list str) (attachment : Attachment.t)
    : Folder * list str + Folder * list str :=
  let '(folder, saved) := state in
  match Attachment.content_type attachment with
  | None => inr (folder, saved)
  | Some content_type =>
      if contains (lit "image") content_type then
        let file_path :=
          image_file_name message_id (Attachment.filename attachment) in
        if bool_decide (file_path ∈ folder) then inl (folder, saved)
        else
          let saved := saved ++ [file_path] in
          match save file_path with
          | SAVED => inl ({[file_path]} ∪ folder, saved)
          | SAVE_FAILED file_left =>
              inr (if file_left then {[file_path]} ∪ folder else folder,
                   saved)
          end
      else inl (folder, saved)
  end.

(** The handler returns the folder as it leaves it and the paths that
    it handed to [attachment.save]. *)
Definition on_raw_reaction_add (payload : Payload.t) (around : Surroundings)
    (folder : Folder) : Folder * list str :=
  if negb (concerned payload) then (folder, [])
  else
    match fetch_message around with
    | NO_CHANNEL => (folder, [])
    | FETCH_FAILED => (folder, [])
    | FETCHED [] => (folder, [])
    | FETCHED attachments =>
        for_each (save_attachment (Payload.message_id payload) (save around))
                 attachments (folder, [])
    end.

(** The body of the loop of [on_raw_reaction_remove]. *)
Definition remove_attachment (message_id : Z) (remove_fails : str -> bool)
    (folder : Folder) (attachment : Attachment.t) : Folder + Folder :=
  let file_path :=
    image_file_name message_id (Attachment.filename attachment) in
  if bool_decide (file_path ∈ folder) then
    if remove_fails file_path then inr folder
    else inl (folder ∖ {[file_path]})
  else inl folder.

Definition on_raw_reaction_remove (payload : Payload.t)
    (around : Surroundings) (folder : Folder) : Folder :=
  if negb (concerned payload) then folder
  else
    match fetch_message around with
    | NO_CHANNEL => folder
    | FETCH_FAILED => folder
    | FETCHED [] => folder
    | FETCHED attachments =>
        for_each (remove_attachment (Payload.message_id payload)
                                    (remove_fails around))
                 attachments folder
    end.

(** The names under which the attachments of a message are saved. *)
Definition saved_names (message_id : Z) (attachments : list Attachment.t)
    : Folder :=
  list_to_set
    (map (fun a => image_file_name message_id (Attachment.filename a))
         attachments).

End Reactions.

(** ** The table of the [tab] command *)

(** [math.ceil(x)] on a [float]. *)
Definition math_ceil (x : Float.float) : exc Z :=
  match x with
  | S754_zero _ => Return 0
  | S754_finite s m e =>
      let n := if s then Zneg m else Zpos m in
      Return match e with
             | Zneg p => - (- n / Z.pow_pos 2 p)
             | _ => n * 2 ^ e
             end
  | S754_infinity _ => Raise OverflowError
  | S754_nan => Raise ValueError
  end.

(** [f"{x:.2f}"]: the exact value of [x] rounded to two decimals, ties
    to even; the sign of a negative number stays when it rounds to
    [0.00]. *)
Definition format_2f (x : Float.float) : str :=
  let sign (s : bool) : str := if s then [HYPHEN] else [] in
  let decimals (n : Z) : str :=
    str_of_int (n / 100) ++ [PERIOD]
    ++ [digit_char (Z.to_N (n mod 100 / 10));
        digit_char (Z.to_N (n mod 10))] in
  match x with
  | S754_zero s => sign s ++ decimals 0
  | S754_finite s m e => sign s ++ decimals (Float.rne_scaled (Zpos m * 100) e)
  | S754_infinity s => sign s ++ lit "inf"
  | S754_nan => lit "nan"
  end.

(** [l[start:stop]] on two [int]: a negative index counts from the
    end, and both are clipped to the list. *)
Definition slice {A} (l : list A) (start stop : Z) : list A :=
  let len := Z.of_nat (length l) in
  let clip i := if i <? 0 then Z.max (i + len) 0 else Z.min i len in
  take (Z.to_nat (clip stop - clip start)) (drop (Z.to_nat (clip start)) l).

(** [l.sort(key=key, reverse=reverse)], which compares keys with [<]
    only: ascending, or descending under [reverse], and elements whose
    keys are not ordered by [<] stay in their original order. *)
Section ListSort.

Context {A K : Type} (lt : K -> K -> bool) (key : A -> K).

Definition goes_after (reverse : bool) (x y : A) : bool :=
  if reverse then lt (key x) (key y) else lt (key y) (key x).

Fixpoint insert_sorted (reverse : bool) (x : A) (l : list A) : list A :=
  match l with
  | [] => [x]
  | y :: l' =>
      if goes_after reverse x y then y :: insert_sorted reverse x l'
      else x :: l
  end.

Definition list_sort (reverse : bool) (l : list A) : list A :=
  foldr (insert_sorted reverse) [] l.

End ListSort.

(** An element of [player_list]: the dictionary
    [{'nickname': nk, **st}]. *)
Definition Player := (str * Averages)%type.

(** The values of [sort_by]. *)
Inductive sort_mode := KD | PLACE.

(** The text parts of [player_string] and of the footer. *)
Definition AVG_PLACE_LABEL : str :=
  [1057; 1088; 46; 32; 1084; 1077; 1089; 1090; 1086]%N.
Definition GAMES_LABEL : str := [1048; 1075; 1088]%N.
Definition AVG_KILLS_LABEL : str :=
  [1057; 1088; 46; 32; 1059; 1073; 1080; 1081; 1089; 1090; 1074; 1072]%N.
Definition AVG_DEATHS_LABEL : str :=
  [1057; 1088; 46; 32; 1057; 1084; 1077; 1088; 1090; 1080]%N.
Definition NO_DATA : str :=
  [1053; 1077; 1090; 32; 1076; 1072; 1085; 1085; 1099; 1093; 46]%N.
Definition PAGE_LABEL : str :=
  [1057; 1090; 1088; 1072; 1085; 1080; 1094; 1072; 32]%N.
Definition MIN_GAMES_LABEL : str :=
  [1084; 1080; 1085; 46; 32; 1080; 1075; 1088]%N.

(** The embed: which of the two descriptions it carries, the values
    of its fields (every name is the zero-width space) and the text of
    its footer.  The title and the colour are constants. *)
Record Embed := {
  description : sort_mode;
  fields : list str;
  footer : str
}.

(** The string of one player; [round] raises on an infinity and on a
    NaN. *)
Definition player_string (i : Z) (stats : Player) : exc str :=
  let '(nickname, st) := stats in
  kills ← Float.round0 (avg_kills st);
  deaths ← Float.round0 (avg_deaths st);
  mret (lit "**" ++ str_of_int i ++ lit ". " ++ nickname ++ lit "**"
        ++ [NEWLINE]
        ++ lit "> K/D: `" ++ format_2f (kd st)
        ++ lit "` | " ++ AVG_PLACE_LABEL ++ lit ": `"
        ++ str_of_int (avg_place st)
        ++ lit "` | " ++ GAMES_LABEL ++ lit ": `"
        ++ str_of_int (games_played st) ++ lit "`" ++ [NEWLINE]
        ++ lit "> " ++ AVG_KILLS_LABEL ++ lit ": `" ++ str_of_int kills
        ++ lit "` | " ++ AVG_DEATHS_LABEL ++ lit ": `" ++ str_of_int deaths
        ++ lit "`" ++ [NEWLINE]).

(** The field limit of the loop. *)
Definition FIELD_LIMIT : nat := 1024.

(** One turn of the loop over the players of the page, on the string
    of the player: the state is the fields added so far and
    [current_field_value]. *)
Definition add_player_string (state : list str * str) (player_string : str)
    : list str * str :=
  let '(fields, current_field_value) := state in
  if (FIELD_LIMIT <? length current_field_value + length player_string)%nat
  then (fields ++ [current_field_value], player_string)
  else (fields, current_field_value ++ player_string).

(** The loop; [i] is the number that [enumerate] gives to the first
    player of [players]. *)
Fixpoint add_players (i : Z) (players : list Player)
    (state : list str * str) : exc (list str * str) :=
  match players with
  | [] => Return state
  | stats :: players' =>
      player_string ← player_string i stats;
      add_players (i + 1) players' (add_player_string state player_string)
  end.

Section Table.

Variable MIN_GAMES : Z.

(** [f"Страница {page_num + 1} / {total_pages} (мин. игр: {MIN_GAMES})"] *)
Definition footer_text (page_num total_pages : Z) : str :=
  PAGE_LABEL ++ str_of_int (page_num + 1) ++ lit " / "
  ++ str_of_int total_pages ++ lit " (" ++ MIN_GAMES_LABEL ++ lit ": "
  ++ str_of_int MIN_GAMES ++ lit ")".

Definition create_stats_embed (player_list : list Player)
    (page_num total_pages : Z) (sort_mode : sort_mode) : exc Embed :=
  let start_index := page_num * 10 in
  let end_index := start_index + 10 in
  let players_on_this_page := slice player_list start_index end_index in
  fields ←
    match players_on_this_page with
    | [] => Return [NO_DATA]
    | _ :: _ =>
        '(fields, current_field_value) ←
          add_players (start_index + 1) players_on_this_page ([], []);
        match current_field_value with
        | [] => Return fields
        | _ :: _ => Return (fields ++ [current_field_value])
        end
    end;
  mret {| description := sort_mode;
          fields := fields;
          footer := footer_text page_num total_pages |}.

(** The view under the message: its attributes and the [disabled]
    flags of its four buttons. *)
Record StatsPaginationView := {
  all_player_stats : list Player;
  current_page : Z;
  sort_by : sort_mode;
  total_pages : Z;
  sort_kd_disabled : bool;
  sort_place_disabled : bool;
  previous_disabled : bool;
  next_disabled : bool
}.

Definition sort_stats (sort_by : sort_mode) (player_stats : list Player)
    : list Player :=
  match sort_by with
  | PLACE =>
      list_sort Z.ltb (fun p : Player => avg_place (snd p)) false player_stats
  | KD =>
      list_sort SFltb (fun p : Player => kd (snd p)) true player_stats
  end.

Definition _sort_stats (self : StatsPaginationView) : StatsPaginationView :=
  {| all_player_stats := sort_stats (sort_by self) (all_player_stats self);
     current_page := current_page self;
     sort_by := sort_by self;
     total_pages := total_pages self;
     sort_kd_disabled := sort_kd_disabled self;
     sort_place_disabled := sort_place_disabled self;
     previous_disabled := previous_disabled self;
     next_disabled := next_disabled self |}.

Definition is_kd (m : sort_mode) : bool :=
  match m with KD => true | PLACE => false end.

Definition update_buttons_state (self : StatsPaginationView)
    : StatsPaginationView :=
  {| all_player_stats := all_player_stats self;
     current_page := current_page self;
     sort_by := sort_by self;
     total_pages := total_pages self;
     sort_kd_disabled := is_kd (sort_by self);
     sort_place_disabled := negb (is_kd (sort_by self));
     previous_disabled := current_page self =? 0;
     next_disabled := total_pages self - 1 <=? current_page self |}.

Definition with_page (page : Z) (self : StatsPaginationView)
    : StatsPaginationView :=
  {| all_player_stats := all_player_stats self;
     current_page := page;
     sort_by := sort_by self;
     total_pages := total_pages self;
     sort_kd_disabled := sort_kd_disabled self;
     sort_place_disabled := sort_place_disabled self;
     previous_disabled := previous_disabled self;
     next_disabled := next_disabled self |}.

Definition with_sort_by (mode : sort_mode) (self : StatsPaginationView)
    : StatsPaginationView :=
  {| all_player_stats := all_player_stats self;
     current_page := current_page self;
     sort_by := mode;
     total_pages := total_pages self;
     sort_kd_disabled := sort_kd_disabled self;
     sort_place_disabled := sort_place_disabled self;
     previous_disabled := previous_disabled self;
     next_disabled := next_disabled self |}.

(** [math.ceil(len(player_stats) / 10)] *)
Definition page_count (n : nat) : exc Z :=
  x ← Float.int_true_div (Z.of_nat n) 10; math_ceil x.

(** [StatsPaginationView(player_stats)]; a button is enabled when it
    is made. *)
Definition new_view (player_stats : list Player) : exc StatsPaginationView :=
  let sorted := sort_stats KD player_stats in
  total_pages ← page_count (length sorted);
  mret (update_buttons_state
          {| all_player_stats := sorted;
             current_page := 0;
             sort_by := KD;
             total_pages := total_pages;
             sort_kd_disabled := false;
             sort_place_disabled := false;
             previous_disabled := false;
             next_disabled := false |}).

(** What a callback answers to the interaction. *)
Inductive response :=
| DEFER
| EDIT_MESSAGE (embed : Embed).

(** A callback changes the view and then answers; an exception of
    [create_stats_embed] leaves the view changed. *)
Definition _update_view (self : StatsPaginationView)
    : StatsPaginationView * exc response :=
  let self := update_buttons_state self in
  (self,
   embed ← create_stats_embed (all_player_stats self) (current_page self)
                              (total_pages self) (sort_by self);
   mret (EDIT_MESSAGE embed)).

Definition sort_kd_button (self : StatsPaginationView)
    : StatsPaginationView * exc response :=
  if is_kd (sort_by self) then (self, Return DEFER)
  else _update_view (with_page 0 (_sort_stats (with_sort_by KD self))).

Definition sort_place_button (self : StatsPaginationView)
    : StatsPaginationView * exc response :=
  if negb (is_kd (sort_by self)) then (self, Return DEFER)
  else _update_view (with_page 0 (_sort_stats (with_sort_by PLACE self))).

Definition previous_button (self : StatsPaginationView)
    : StatsPaginationView * exc response :=
  if 0 <? current_page self
  then _update_view (with_page (current_page self - 1) self)
  else (self, Return DEFER).

Definition next_button (self : StatsPaginationView)
    : StatsPaginationView * exc response :=
  if current_page self <? total_pages self - 1
  then _update_view (with_page (current_page self + 1) self)
  else (self, Return DEFER).

Inductive button := SORT_KD | SORT_PLACE | PREVIOUS | NEXT.

Definition press (b : button) (self : StatsPaginationView)
    : StatsPaginationView * exc response :=
  match b with
  | SORT_KD => sort_kd_button self
  | SORT_PLACE => sort_place_button self
  | PREVIOUS => previous_button self
  | NEXT => next_button self
  end.

(** The view after a series of presses. *)
Definition presses (bs : list button) (self : StatsPaginationView)
    : StatsPaginationView :=
  fold_left (fun self b => fst (press b self)) bs self.

(** Whether the button is disabled in the view. *)
Definition disabled (b : button) (self : StatsPaginationView) : bool :=
  match b with
  | SORT_KD => sort_kd_disabled self
  | SORT_PLACE => sort_place_disabled self
  | PREVIOUS => previous_disabled self
  | NEXT => next_disabled self
  end.

(** What the [tab] command sends: the note that the statistics are
    empty, or the first embed with the view. *)
Inductive tab_reply :=
| STATS_EMPTY
| TABLE (embed : Embed) (view : StatsPaginationView).

Definition tab (w : World) : exc tab_reply :=
  player_averages ← read_json_db PLAYER_AVERAGES_FILE w;
  match player_averages with
  | None => Return STATS_EMPTY
  | Some [] => Return STATS_EMPTY
  | Some player_list =>
      view ← new_view player_list;
      initial_embed ←
        create_stats_embed (all_player_stats view) (current_page view)
                           (total_pages view) (sort_by view);
      Return (TABLE initial_embed view)
  end.

End Table.

(** ** Notions used in the statements about the table *)

(** [page_count] is the integer quotient rounded up, for the [fuel]
    lengths from [n] on. *)
Fixpoint page_count_exact (fuel : nat) (n : Z) : bool :=
  match fuel with
  | O => true
  | S fuel' =>
      match x ← Float.int_true_div n 10; math_ceil x with
      | Return pages => pages =? (n + 9) / 10
      | Raise _ => false
      end
      && page_count_exact fuel' (n + 1)
  end.

(** The lengths for which the number of pages is checked. *)
Definition MAX_CHECKED_PLAYERS : nat := Z.to_nat 10000.

(** The players of a page, as [create_stats_embed] selects them. *)
Definition players_on_page {A} (player_list : list A) (page_num : Z)
    : list A :=
  slice player_list (page_num * 10) (page_num * 10 + 10).

(** The strings of the players of a page, in their order; [i] is the
    number of the first one. *)
Fixpoint player_strings (i : Z) (players : list Player) : exc (list str) :=
  match players with
  | [] => Return []
  | stats :: players' =>
      s ← player_string i stats;
      rest ← player_strings (i + 1) players';
      mret (s :: rest)
  end.

(** [a] may stand before [b] in a list sorted by [sort_mode]. *)
Definition in_order (sort_mode : sort_mode) (a b : Player) : Prop :=
  match sort_mode with
  | PLACE => avg_place (snd a) <= avg_place (snd b)
  | KD => SFltb (kd (snd a)) (kd (snd b)) = false
  end.

Definition is_nan (x : Float.float) : bool :=
  match x with
  | S754_nan => true
  | _ => false
  end.

(** ** Sample data for the table *)

(** A player of the table whose averages are whole numbers. *)
Definition table_line (name : string) (games place the_kd the_kills
    the_deaths : Z) : Player :=
  (lit name,
   {| games_played := games; avg_place := place;
      kd := Float.of_Z the_kd; avg_kills := Float.of_Z the_kills;
      avg_deaths := Float.of_Z the_deaths; avg_assists := Float.zero;
      avg_score := Float.zero |}).

Definition sample_table : list Player :=
  [ table_line "Raven" 12 4 1 6 6;
    table_line "Vortex" 15 2 3 9 3;
    table_line "Ghost" 11 7 1 2 2 ].

(** A number: neither an infinity nor a NaN. *)
Definition is_number (x : Float.float) : bool :=
  match x with
  | S754_zero _ | S754_finite _ _ _ => true
  | S754_infinity _ | S754_nan => false
  end.

(** The entry can be shown: [round] accepts both averages. *)
Definition showable (p : Player) : Prop :=
  is_number (avg_kills (snd p)) = true /\
  is_number (avg_deaths (snd p)) = true.

(** * Properties *)

(** ** The exception monad *)

Lemma bind_Return {A B} (m : exc A) (k : A -> exc B) (b : B) :
  m ≫= k = Return b -> exists a, m = Return a /\ k a = Return b.
Proof. destruct m as [a|e]; simpl; [eauto | discriminate]. Qed.

Lemma mapM_Return {A B} (f : A -> exc B) (l : list A) :
  (forall a, a ∈ l -> exists b, f a = Return b) ->
  exists bs, mapM f l = Return bs /\ Forall2 (fun a b => f a = Return b) l bs.
Proof.
  induction l as [|a l IH]; intros Hall.
  - exists []. split; [reflexivity | constructor].
  - destruct (Hall a) as [b Hb]; [left |].
    destruct IH as (bs & Hbs & Hrel).
    { intros a' Ha'. apply Hall. by right. }
    exists (b :: bs). split; [| by constructor].
    simpl. rewrite Hb. simpl. rewrite Hbs. reflexivity.
Qed.

Lemma mapM_Return_inv {A B} (f : A -> exc B) (l : list A) (bs : list B) :
  mapM f l = Return bs -> Forall2 (fun a b => f a = Return b) l bs.
Proof.
  revert bs. induction l as [|a l IH]; intros bs Hm; simpl in Hm.
  - injection Hm as <-. constructor.
  - apply bind_Return in Hm as (b & Hb & Hm).
    apply bind_Return in Hm as (bs' & Hbs & Hm).
    injection Hm as <-. constructor; auto.
Qed.

(** ** Floats *)

Lemma eq_zero_not_gt_zero (x : Float.float) :
  Float.eq_zero x = true -> Float.gt_zero x = false.
Proof. by destruct x as [[]|[]| |[] ? ?]. Qed.

Lemma py_sum_foldr (l : list Z) : py_sum l = foldr Z.add 0 l.
Proof. unfold py_sum. apply fold_symmetric; intros; lia. Qed.

(** True division of integers yields the nearest binary64 number. *)
Lemma int_true_div_nearest (a b : Z) (x : Float.float) :
  Float.int_true_div a b = Return x -> 0 <= b -> x = nearest_binary64 a b.
Proof.
  unfold Float.int_true_div, nearest_binary64, signed_nearest,
    Float.nearest_quotient, Float.finite_or_overflow, Float.prec, Float.emax.
  intros Hdiv Hb. destruct b as [|b|b]; [discriminate | | lia].
  change (Z.pos b <? 0) with false in Hdiv.
  change (Z.to_pos (Z.abs (Z.pos b))) with b in Hdiv.
  change (Z.to_pos (Z.pos b)) with b.
  rewrite xorb_false_r in Hdiv.
  destruct (Z.abs a) as [|ma|ma]; [congruence | | congruence].
  match type of Hdiv with
  | match ?q with _ => _ end = _ => destruct q; congruence
  end.
Qed.

Lemma rne_scaled_nearest (m : positive) (e : Z) :
  nearest_hundredths m e (Float.rne_scaled (Zpos m * 100) e).
Proof.
  unfold nearest_hundredths, Float.rne_scaled.
  destruct e as [|p|p]; cbv zeta.
  - change (Z.max (- 0) 0) with 0. change (Z.max 0 0) with 0.
    change (2 ^ 0) with 1. split; lia.
  - change (Z.max (- Z.pos p) 0) with 0.
    change (Z.max (Z.pos p) 0) with (Z.pos p).
    change (2 ^ 0) with 1. split; lia.
  - change (Z.max (- Z.neg p) 0) with (Z.pos p).
    change (Z.max (Z.neg p) 0) with 0.
    change (2 ^ 0) with 1. change (Z.pow_pos 2 p) with (2 ^ Z.pos p).
    set (den := 2 ^ Z.pos p).
    assert (Hden : 0 < den) by (apply Z.pow_pos_nonneg; lia).
    set (num := Z.pos m * 100).
    pose proof (Z.div_mod num den ltac:(lia)) as Hdm.
    pose proof (Z.mod_pos_bound num den Hden) as Hr.
    set (q := num / den) in *. set (r := num mod den) in *.
    replace (100 * Z.pos m * 1) with num by (unfold num; lia).
    destruct (Z.compare_spec (2 * r) den) as [Heq | Hlt | Hgt].
    + destruct (Z.even q) eqn:Heven.
      * split; [nia |]. done.
      * split; [nia |]. intros _.
        rewrite Z.even_add, Heven. done.
    + split; [nia | nia].
    + split; [nia | nia].
Qed.

(** [round(x, 2)] yields [x] rounded to two decimals. *)
Lemma round2_rounded (x y : Float.float) :
  Float.round2 x = Return y -> rounded_to_hundredths x y.
Proof.
  unfold Float.round2, rounded_to_hundredths.
  destruct x as [s|s| |s m e]; try congruence.
  intros Hround. exists (Float.rne_scaled (Zpos m * 100) e).
  split; [apply rne_scaled_nearest |].
  unfold signed_nearest, Float.nearest_quotient, Float.finite_or_overflow,
    Float.prec, Float.emax in *.
  destruct (Float.rne_scaled (Z.pos m * 100) e) as [|n|n];
    [congruence | | congruence].
  match type of Hround with
  | match ?q with _ => _ end = _ => destruct q; congruence
  end.
Qed.

(** [1 / 3] is [0x1.5555555555555p-2], and [round(1 / 3, 2)] is the
    float of [0.33]. *)
Example one_third :
  Float.int_true_div 1 3 = Return (S754_finite false 6004799503160661 (-54))
  /\ (x ← Float.int_true_div 1 3; Float.round2 x)
     = Return (S754_finite false 5944751508129055 (-54)).
Proof. vm_compute. auto. Qed.

(** [round(2.675, 2)] is [2.67]: the float of [2.675] lies below the
    tie. *)
Example round2_below_tie :
  (x ← Float.int_true_div 2675 1000; Float.round2 x)
  = Float.int_true_div 267 100.
Proof. vm_compute. reflexivity. Qed.

(** Ties go to the even neighbour: [round(0.125, 2)] is [0.12],
    [round(2.5)] is [2] and [round(3.5)] is [4]. *)
Example round_ties_to_even :
  (x ← Float.int_true_div 1 8; Float.round2 x) = Float.int_true_div 12 100
  /\ (x ← Float.int_true_div 5 2; Float.round0 x) = Return 2
  /\ (x ← Float.int_true_div 7 2; Float.round0 x) = Return 4.
Proof. vm_compute. auto. Qed.

(** A quotient beyond the range of a float raises. *)
Example true_div_overflow :
  Float.int_true_div (10 ^ 400) 3 = Raise OverflowError.
Proof. vm_compute. reflexivity. Qed.

(** ** Levenshtein distance *)

Lemma distance_cons_cons a s b t :
  distance (a :: s) (b :: t) =
    Nat.min (Nat.min (S (distance s (b :: t))) (S (distance (a :: s) t)))
            ((if (a =? b)%N then 0 else 1) + distance s t)%nat.
Proof. reflexivity. Qed.

Lemma distance_refl s : distance s s = 0%nat.
Proof.
  induction s as [|a s IH]; [reflexivity |].
  rewrite distance_cons_cons, N.eqb_refl, IH. apply Nat.min_0_r.
Qed.

(** ** Dictionaries *)

Section DictFacts.

Context {V : Type}.
Implicit Types (d : dict V) (k : str) (v : V).

Lemma dict_get_set_eq k v d : dict_get k (dict_set k v d) = Some v.
Proof.
  induction d as [|[k' v'] d IH]; simpl.
  - by rewrite decide_True.
  - destruct (decide (k = k')) as [->|Hne]; simpl.
    + by rewrite decide_True.
    + by rewrite decide_False.
Qed.

Lemma dict_get_set_ne k k' v d :
  k' <> k -> dict_get k' (dict_set k v d) = dict_get k' d.
Proof.
  intros Hne. induction d as [|[k0 v0] d IH]; simpl.
  - by rewrite decide_False.
  - destruct (decide (k = k0)) as [->|Hne0]; simpl.
    + by rewrite !decide_False.
    + by rewrite IH.
Qed.

Lemma dict_get_None k d : dict_get k d = None <-> k ∉ keys d.
Proof.
  induction d as [|[k' v'] d IH]; simpl.
  - split; [intros _; apply not_elem_of_nil | done].
  - rewrite not_elem_of_cons. destruct (decide (k = k')) as [->|Hne].
    + split; [done | intros [? _]; done].
    + rewrite IH. tauto.
Qed.

Lemma dict_get_Some_elem k v d : dict_get k d = Some v -> (k, v) ∈ d.
Proof.
  induction d as [|[k' v'] d IH]; simpl; [done |].
  destruct (decide (k = k')) as [->|Hne].
  - intros [= ->]. left.
  - intros Hd. right. auto.
Qed.

Lemma dict_get_elem k v d : dict_wf d -> (k, v) ∈ d -> dict_get k d = Some v.
Proof.
  unfold dict_wf. induction d as [|[k' v'] d IH]; simpl.
  - intros _ Hin. by apply elem_of_nil in Hin.
  - intros Hnd Hin. apply NoDup_cons in Hnd as [Hk' Hnd].
    apply elem_of_cons in Hin as [[= -> ->]|Hin].
    + by rewrite decide_True.
    + rewrite decide_False; [auto |].
      intros ->. apply Hk'. apply list_elem_of_fmap. by exists (k', v).
Qed.

(** Assigning to a key that is not in the dictionary appends it. *)
Lemma dict_set_new k v d : k ∉ keys d -> dict_set k v d = d ++ [(k, v)].
Proof.
  induction d as [|[k' v'] d IH]; simpl; [done |].
  rewrite not_elem_of_cons. intros [Hne Hnin].
  by rewrite decide_False, IH.
Qed.

Lemma keys_dict_set_old k v d : k ∈ keys d -> keys (dict_set k v d) = keys d.
Proof.
  induction d as [|[k' v'] d IH]; simpl.
  - intros Hin. by apply elem_of_nil in Hin.
  - intros Hin. destruct (decide (k = k')) as [->|Hne]; simpl; [done |].
    apply elem_of_cons in Hin as [?|Hin]; [done |]. by rewrite IH.
Qed.

End DictFacts.

(** ** Grouping *)

Section GroupFacts.

Context {X : Type}.
Implicit Types (grouped : dict (list X)) (x : X).

Lemma append_first_fit_hit nick x pre name l post :
  (forall n, n ∈ keys pre -> ~ (distance nick n <= MAX_DISTANCE)%nat) ->
  (distance nick name <= MAX_DISTANCE)%nat ->
  append_first_fit nick x (pre ++ (name, l) :: post)
    = Some (pre ++ (name, l ++ [x]) :: post).
Proof.
  intros Hpre Hname.
  induction pre as [|[n0 l0] pre IH]; simpl.
  - apply Nat.leb_le in Hname. by rewrite Hname.
  - assert (Hn0 : (distance nick n0 <=? MAX_DISTANCE)%nat = false).
    { apply Nat.leb_gt, Nat.nle_gt, Hpre. left. }
    rewrite Hn0, IH; [done |].
    intros n Hn. apply Hpre. by right.
Qed.

Lemma append_first_fit_miss nick x grouped :
  (forall n, n ∈ keys grouped -> ~ (distance nick n <= MAX_DISTANCE)%nat) ->
  append_first_fit nick x grouped = None.
Proof.
  intros Hall.
  induction grouped as [|[n0 l0] grouped IH]; simpl; [done |].
  assert (Hn0 : (distance nick n0 <=? MAX_DISTANCE)%nat = false).
  { apply Nat.leb_gt, Nat.nle_gt, Hall. left. }
  rewrite Hn0, IH; [done |].
  intros n Hn. apply Hall. by right.
Qed.

(** The inner loop either stops at a first name within the distance,
    or finds none. *)
Lemma append_first_fit_cases nick x grouped :
  (exists pre name l post,
      grouped = pre ++ (name, l) :: post /\
      (forall n, n ∈ keys pre -> ~ (distance nick n <= MAX_DISTANCE)%nat) /\
      (distance nick name <= MAX_DISTANCE)%nat /\
      append_first_fit nick x grouped
        = Some (pre ++ (name, l ++ [x]) :: post))
  \/ ((forall n, n ∈ keys grouped -> ~ (distance nick n <= MAX_DISTANCE)%nat) /\
      append_first_fit nick x grouped = None).
Proof.
  induction grouped as [|[n0 l0] grouped IH].
  - right. split; [| done]. intros n Hn. by apply elem_of_nil in Hn.
  - destruct (le_dec (distance nick n0) MAX_DISTANCE) as [Hin|Hout].
    + left. exists [], n0, l0, grouped. split; [done |].
      split; [intros n Hn; by apply elem_of_nil in Hn |].
      split; [done |].
      apply (append_first_fit_hit nick x []); [| done].
      intros n Hn. by apply elem_of_nil in Hn.
    + destruct IH as [(pre & name & l & post & -> & Hpre & Hname & _)|[Hall _]].
      * left. exists ((n0, l0) :: pre), name, l, post.
        assert (Hpre' : forall n, n ∈ keys ((n0, l0) :: pre) -> ~ (distance nick n <= MAX_DISTANCE)%nat).
        { intros n Hn. apply elem_of_cons in Hn as [->|Hn]; auto. }
        split; [done |]. split; [done |]. split; [done |].
        by apply (append_first_fit_hit nick x ((n0, l0) :: pre)).
      * right.
        assert (Hall' : forall n, n ∈ keys ((n0, l0) :: grouped) -> ~ (distance nick n <= MAX_DISTANCE)%nat).
        { intros n Hn. apply elem_of_cons in Hn as [->|Hn]; auto. }
        split; [done |]. by apply append_first_fit_miss.
Qed.

Lemma not_within_not_key nick grouped :
  (forall n, n ∈ keys grouped -> ~ (distance nick n <= MAX_DISTANCE)%nat) -> nick ∉ keys grouped.
Proof.
  intros Hall Hin. apply (Hall nick Hin).
  rewrite distance_refl. apply Nat.le_0_l.
Qed.

Lemma group_step_cases (payload : MatchRecord -> X) grouped player_stat :
  let nick := nickname player_stat in
  let x := payload player_stat in
  (exists pre name l post,
      grouped = pre ++ (name, l) :: post /\
      (forall n, n ∈ keys pre -> ~ (distance nick n <= MAX_DISTANCE)%nat) /\
      (distance nick name <= MAX_DISTANCE)%nat /\
      group_step payload grouped player_stat
        = pre ++ (name, l ++ [x]) :: post)
  \/ ((forall n, n ∈ keys grouped -> ~ (distance nick n <= MAX_DISTANCE)%nat) /\
      group_step payload grouped player_stat = grouped ++ [(nick, [x])]).
Proof.
  intros nick x. unfold group_step. fold nick x.
  destruct (append_first_fit_cases nick x grouped)
    as [(pre & name & l & post & Hg & Hpre & Hname & Hfit)|[Hall Hfit]].
  - left. exists pre, name, l, post. by rewrite Hfit.
  - right. split; [done |]. rewrite Hfit.
    by apply dict_set_new, not_within_not_key.
Qed.

End GroupFacts.

(** C1.  Identity resolution is greedy first-fit.  The grouping runs
    through the records of all matches in the insertion order of the
    store.  Each record either goes to the first canonical name, in the
    insertion order of the grouping, whose Levenshtein distance to the
    record's nickname is at most 3, where its stat tuple is appended
    and the names after it are not looked at; or no canonical name is
    that close, and the record's own nickname is added last as a new
    canonical name whose list holds that one tuple. *)
Theorem first_fit_grouping (raw_data_dict : RawStore) :
  grouped_data raw_data_dict
    = fold_left (group_step stats_of) (concat (map snd raw_data_dict)) []
  /\ forall grouped player_stat,
       let nick := nickname player_stat in
       (exists pre name l post,
           grouped = pre ++ (name, l) :: post /\
           (forall n, n ∈ keys pre -> (distance nick n > 3)%nat) /\
           (distance nick name <= 3)%nat /\
           group_step stats_of grouped player_stat
             = pre ++ (name, l ++ [stats_of player_stat]) :: post)
       \/ ((forall n, n ∈ keys grouped -> (distance nick n > 3)%nat) /\
           group_step stats_of grouped player_stat
             = grouped ++ [(nick, [stats_of player_stat])]).
Proof.
  split; [reflexivity |].
  intros grouped player_stat nick.
  destruct (group_step_cases stats_of grouped player_stat)
    as [(pre & name & l & post & Hg & Hpre & Hname & Hstep)|[Hall Hstep]].
  - left. exists pre, name, l, post. repeat split; try done.
    intros n Hn. apply Nat.nle_gt. by apply Hpre.
  - right. split; [| done].
    intros n Hn. apply Nat.nle_gt. by apply Hall.
Qed.

(** ** Sorting *)

Section SortFacts.

Context {A : Type} (key : A -> Z).

Lemma insert_desc_perm x l : insert_desc key x l ≡ₚ x :: l.
Proof.
  induction l as [|y l IH]; simpl; [done |].
  destruct (key y <=? key x); [done |].
  rewrite IH. apply perm_swap.
Qed.

Lemma sort_reverse_perm l : sort_reverse key l ≡ₚ l.
Proof.
  induction l as [|x l IH]; simpl; [done |].
  rewrite insert_desc_perm. by constructor.
Qed.

Lemma insert_desc_sorted x l :
  StronglySorted (descending key) l ->
  StronglySorted (descending key) (insert_desc key x l).
Proof.
  induction 1 as [|y l Hl IH Hy]; simpl.
  - repeat constructor.
  - destruct (Z.leb_spec (key y) (key x)) as [Hle|Hgt].
    + constructor; [by constructor |].
      constructor; [done |].
      eapply Forall_impl; [exact Hy |].
      unfold descending. intros z Hz. simpl in Hz. lia.
    + constructor; [done |].
      rewrite insert_desc_perm. constructor; [| done].
      unfold descending. lia.
Qed.

Lemma sort_reverse_sorted l : StronglySorted (descending key) (sort_reverse key l).
Proof.
  induction l as [|x l IH]; simpl; [constructor |].
  by apply insert_desc_sorted.
Qed.

Lemma sorted_split l n a b :
  StronglySorted (descending key) l ->
  a ∈ take n l -> b ∈ drop n l -> key b <= key a.
Proof.
  intros Hs. revert n. induction Hs as [|x l Hl IH Hx]; intros n Ha Hb.
  - rewrite take_nil in Ha. by apply elem_of_nil in Ha.
  - destruct n as [|n]; simpl in *; [by apply elem_of_nil in Ha |].
    apply elem_of_cons in Ha as [->|Ha]; [| by eapply IH].
    rewrite Forall_forall in Hx. apply Hx.
    eapply sublist_subseteq; [apply sublist_drop | exact Hb].
Qed.

Lemma insert_desc_filter (k : Z) x l :
  filter (fun y => key y = k) (insert_desc key x l)
    = filter (fun y => key y = k) (x :: l).
Proof.
  induction l as [|y l IH]; simpl; [done |].
  destruct (Z.leb_spec (key y) (key x)) as [Hle|Hgt]; [done |].
  rewrite (filter_cons _ y), IH, !filter_cons.
  destruct (decide (key x = k)) as [Hx|Hx];
    destruct (decide (key y = k)) as [Hy|Hy]; try done.
  lia.
Qed.

(** The sort is stable: the elements of one key keep their order. *)
Lemma sort_reverse_stable (k : Z) l :
  filter (fun y => key y = k) (sort_reverse key l)
    = filter (fun y => key y = k) l.
Proof.
  induction l as [|x l IH]; simpl; [done |].
  by rewrite insert_desc_filter, !filter_cons, IH.
Qed.

End SortFacts.

(** ** Strings and integers *)

Section IntFacts.

Context `{UnicodeData}.

Lemma lstrip_with_id (space : char -> bool) (s : str) :
  Forall (fun c => space c = false) s -> lstrip_with space s = s.
Proof. destruct 1 as [|c s Hc _]; simpl; [done | by rewrite Hc]. Qed.

Lemma strip_with_id (space : char -> bool) (s : str) :
  Forall (fun c => space c = false) s -> strip_with space s = s.
Proof.
  intros Hs. unfold strip_with.
  rewrite (lstrip_with_id space s Hs).
  rewrite lstrip_with_id; [apply rev_involutive |].
  rewrite Forall_forall in *. intros c Hc. apply Hs.
  by apply list_elem_of_In, in_rev, list_elem_of_In.
Qed.

Lemma lstrip_with_split (space : char -> bool) (s : str) :
  exists before,
    s = before ++ lstrip_with space s /\
    Forall (fun c => space c = true) before /\
    (forall c rest, lstrip_with space s = c :: rest -> space c = false).
Proof.
  induction s as [|c s (before & Hs & Hbefore & Hfirst)]; simpl.
  - exists []. by repeat split.
  - destruct (space c) eqn:Hc.
    + exists (c :: before). split; [by rewrite Hs at 1 |].
      split; [by constructor | done].
    + exists []. split; [done |]. split; [constructor |].
      by intros c' rest [= <- _].
Qed.

(** [strip] removes the white space at the two ends, and nothing
    else. *)
Lemma strip_trimmed (s : str) : trimmed s (strip s).
Proof.
  unfold trimmed, strip, strip_with.
  destruct (lstrip_with_split is_space s) as (before & Hs & Hbefore & Hfirst).
  set (t := lstrip_with is_space s) in *.
  destruct (lstrip_with_split is_space (rev t))
    as (after & Ht & Hafter & Hlast).
  set (u := lstrip_with is_space (rev t)) in *.
  assert (Ht' : t = rev u ++ rev after).
  { by rewrite <- rev_app_distr, <- Ht, rev_involutive. }
  exists before, (rev after). split; [by rewrite <- Ht' |].
  split; [done |]. split.
  { rewrite Forall_forall in Hafter |- *. intros c Hc.
    apply Hafter. by apply list_elem_of_In, in_rev, list_elem_of_In. }
  split.
  - intros c rest Hcore. apply (Hfirst c (rest ++ rev after)).
    by rewrite Ht', Hcore.
  - intros c rest Hcore. apply (Hlast c (rev rest)).
    apply (f_equal (@rev char)) in Hcore.
    by rewrite rev_involutive, rev_app_distr in Hcore.
Qed.

Lemma decimal_not_int_space c : is_decimal c = true -> int_space c = false.
Proof.
  unfold is_decimal, int_space. intros Hd.
  destruct (is_space c) eqn:Hs; [| done].
  by rewrite (space_not_decimal c Hs) in Hd.
Qed.

Lemma decimal_not_sign c :
  is_decimal c = true -> (c =? HYPHEN)%N = false /\ (c =? PLUS)%N = false.
Proof.
  unfold is_decimal. intros Hd.
  split; apply N.eqb_neq; intros ->;
    by rewrite decimal_ascii in Hd.
Qed.

Lemma digits_decimal (s : str) : forall acc after_digit,
  Forall (fun c => is_decimal c = true) s ->
  s <> [] ->
  digits acc after_digit s
    = Some (fold_left
              (fun acc c => (10 * acc + default 0 (decimal_value c))%N)
              s acc).
Proof.
  induction s as [|c s IH]; intros acc after_digit Hs Hne; [done |].
  apply Forall_cons in Hs as [Hc Hs]. unfold is_decimal in Hc. simpl.
  destruct (decimal_value c) as [d|]; [| discriminate]. simpl.
  destruct s as [|c' s]; [done |]. by apply IH.
Qed.

Lemma filter_decimal (s : str) :
  Forall (fun c => is_decimal c = true) s -> List.filter is_decimal s = s.
Proof.
  induction 1 as [|c s Hc _ IH]; [done |]. simpl. by rewrite Hc, IH.
Qed.

(** What [int] does with a group of [\d+]. *)
Lemma int_group (s : str) :
  Forall (fun c => is_decimal c = true) s ->
  s <> [] ->
  int s = if within_limit s then Return (Z.of_N (decimal_number s))
          else Raise ValueError.
Proof.
  intros Hs Hne. unfold int, within_limit.
  rewrite strip_with_id.
  2: { eapply Forall_impl; [exact Hs |]. apply decimal_not_int_space. }
  destruct s as [|c s]; [done |].
  pose proof Hs as Hs'. apply Forall_cons in Hs' as [Hc _].
  destruct (decimal_not_sign c Hc) as [-> ->].
  rewrite digits_decimal, filter_decimal by done.
  rewrite Nat.ltb_antisym. by destruct (_ <=? _)%nat.
Qed.

(** [int] reads a group of [\d+] within the limit as the number that
    it writes. *)
Lemma int_decimal (s : str) :
  Forall (fun c => is_decimal c = true) s ->
  s <> [] ->
  (length s <= MAX_STR_DIGITS)%nat ->
  int s = Return (Z.of_N (decimal_number s)).
Proof.
  intros Hs Hne Hlen. rewrite int_group by done.
  unfold within_limit. by rewrite (proj2 (Nat.leb_le _ _) Hlen).
Qed.

Lemma int_overlong (s : str) :
  Forall (fun c => is_decimal c = true) s ->
  (MAX_STR_DIGITS < length s)%nat ->
  int s = Raise ValueError.
Proof.
  intros Hs Hlen. rewrite int_group; [| done |].
  - unfold within_limit. by rewrite (proj2 (Nat.leb_gt _ _) Hlen).
  - intros ->. simpl in Hlen. lia.
Qed.

(** The first piece of [split] on ['-'] is what stands before the
    first ['-']. *)
Lemma hd_split_hyphen (filename : str) :
  hd [] (split HYPHEN filename) = before_hyphen filename.
Proof.
  induction filename as [|c rest IH]; [done |]. simpl.
  destruct (c =? HYPHEN)%N; [done |].
  destruct (split HYPHEN rest); simpl in *; by rewrite <- IH.
Qed.

(** The sort key of a file name with a numeric prefix is the value of
    the prefix. *)
Lemma sort_key_numeric (filename : str) :
  numeric_prefix filename = true ->
  sort_key filename = Return (prefix_value filename).
Proof.
  unfold numeric_prefix, sort_key, prefix_value, within_limit.
  rewrite hd_split_hyphen.
  intros [[Hdigits Hsome%negb_true_iff%bool_decide_eq_false]%andb_true_iff
            Hlen%Nat.leb_le]%andb_true_iff.
  apply int_decimal; [| done | done].
  apply Forall_forall. intros c Hc.
  rewrite forallb_forall in Hdigits. by apply Hdigits, list_elem_of_In.
Qed.

End IntFacts.

(** ** The active nicknames *)

Section ActiveFacts.

Context `{UnicodeData}.

Lemma keyed_Return (files : list str) (keyed : list (Z * str)) :
  mapM (fun filename => k ← sort_key filename; mret (k, filename)) files
    = Return keyed ->
  map snd keyed = files /\ Forall keyed_ok keyed.
Proof.
  intros Hm. apply mapM_Return_inv in Hm.
  induction Hm as [|f p files keyed Hp _ [IH1 IH2]]; [by split |].
  apply bind_Return in Hp as (k & Hk & Hp). injection Hp as <-.
  simpl. split; [by rewrite IH1 | by constructor].
Qed.

(** A file name paired with the value of its numeric prefix. *)
Let valued (p : Z * str) : Prop := fst p = prefix_value (snd p).

Lemma all_known_files_Return raw_data_dict :
  numeric_prefixes raw_data_dict ->
  exists keyed,
    map snd keyed = keys raw_data_dict /\
    Forall valued keyed /\
    all_known_files raw_data_dict
      = Return (map snd (sort_reverse fst keyed)).
Proof.
  intros Hnum. unfold all_known_files.
  exists (map (fun filename => (prefix_value filename, filename))
              (keys raw_data_dict)).
  split; [by rewrite map_map, map_id |].
  split; [by apply Forall_forall; intros p (f & -> & _)%list_elem_of_fmap |].
  assert (Hkeyed : mapM (fun filename =>
                           k ← sort_key filename; mret (k, filename))
                        (keys raw_data_dict)
                   = Return (map (fun filename =>
                                    (prefix_value filename, filename))
                                 (keys raw_data_dict))).
  { unfold numeric_prefixes in Hnum.
    induction (keys raw_data_dict) as [|f files IH]; [done |].
    simpl. rewrite sort_key_numeric by (apply Hnum; left). simpl.
    rewrite IH; [done |]. intros f' Hf'. apply Hnum. by right. }
  by rewrite Hkeyed.
Qed.

Lemma newest_first_sorted (keyed : list (Z * str)) n :
  Forall valued keyed ->
  newest_first (take n (map snd (sort_reverse fst keyed)))
               (drop n (map snd (sort_reverse fst keyed))).
Proof.
  intros Hok a b Ha Hb.
  assert (Hok' : Forall valued (sort_reverse fst keyed)).
  { by rewrite sort_reverse_perm. }
  rewrite Forall_forall in Hok'.
  change (map snd) with (fmap (M := list) (@snd Z str)) in Ha, Hb.
  rewrite <- fmap_take in Ha. rewrite <- fmap_drop in Hb.
  apply list_elem_of_fmap in Ha as (pa & -> & Ha).
  apply list_elem_of_fmap in Hb as (pb & -> & Hb).
  pose proof (sorted_split fst _ n pa pb (sort_reverse_sorted fst keyed) Ha Hb)
    as Hle.
  assert (Hpa : valued pa).
  { apply Hok'. eapply sublist_subseteq; [apply sublist_take | exact Ha]. }
  assert (Hpb : valued pb).
  { apply Hok'. eapply sublist_subseteq; [apply sublist_drop | exact Hb]. }
  unfold valued in Hpa, Hpb. by rewrite <- Hpa, <- Hpb.
Qed.

Lemma elem_of_nicknames_in raw_data_dict filename nick :
  nick ∈ nicknames_in raw_data_dict filename <->
  exists players player_stat,
    dict_get filename raw_data_dict = Some players /\
    player_stat ∈ players /\ nickname player_stat = nick.
Proof.
  unfold nicknames_in.
  destruct (dict_get filename raw_data_dict) as [players|].
  - rewrite elem_of_list_to_set.
    change (map nickname players) with (nickname <$> players).
    rewrite list_elem_of_fmap. split.
    + intros (p & -> & Hp). by exists players, p.
    + intros (players' & p & [= <-] & Hp & <-). by exists p.
  - split; [intros Hin; by apply not_elem_of_empty in Hin |].
    intros (? & ? & ? & _). done.
Qed.

Lemma elem_of_active raw_data_dict (files : list str) nick :
  nick ∈ (⋃ (map (nicknames_in raw_data_dict)
                  (elements (list_to_set (C := gset str) files)))
          : gset str)
  <-> occurs_in raw_data_dict files nick.
Proof.
  rewrite elem_of_union_list. unfold occurs_in. split.
  - intros (X & HX & Hnick).
    change (map (nicknames_in raw_data_dict)) with
      (fmap (M := list) (nicknames_in raw_data_dict)) in HX.
    apply list_elem_of_fmap in HX as (f & -> & Hf).
    apply elem_of_elements, elem_of_list_to_set in Hf.
    apply elem_of_nicknames_in in Hnick as (players & p & ? & ? & ?).
    by exists f, players, p.
  - intros (f & players & p & Hf & Hget & Hp & Hnick).
    exists (nicknames_in raw_data_dict f). split.
    + change (map (nicknames_in raw_data_dict)) with
        (fmap (M := list) (nicknames_in raw_data_dict)).
      apply list_elem_of_fmap. exists f. split; [done |].
      by apply elem_of_elements, elem_of_list_to_set.
    + apply elem_of_nicknames_in. by exists players, p.
Qed.

End ActiveFacts.

(** C2.  The active nicknames.  For a store whose file names all have
    a numeric prefix (decimal digits, at least one and at most 4300,
    before the first ['-']), the file names are sorted by the integer
    that these digits write, largest first: the sorted list is a
    rearrangement of the keys of the store and, wherever it is cut, no
    file after the cut has a prefix of larger value than a file before
    it.  The recent files are the first 10 of that list (all of them
    when the store has fewer), and a nickname is active exactly when it
    occurs in the record list of one of those files.  The value of a
    prefix is said with the digits of the file name, not with the key
    function of the sort. *)
Theorem active_nicknames_recent `{UnicodeData} (raw_data_dict : RawStore) :
  numeric_prefixes raw_data_dict ->
  exists sorted active,
    all_known_files raw_data_dict = Return sorted /\
    sorted ≡ₚ keys raw_data_dict /\
    (forall n, newest_first (take n sorted) (drop n sorted)) /\
    recent_files raw_data_dict = Return (list_to_set (take 10 sorted)) /\
    length (take 10 sorted) = Nat.min 10 (length raw_data_dict) /\
    active_nicknames raw_data_dict = Return active /\
    forall nick,
      nick ∈ active <-> occurs_in raw_data_dict (take 10 sorted) nick.
Proof.
  intros Hnum.
  destruct (all_known_files_Return raw_data_dict Hnum)
    as (keyed & Hfiles & Hok & Hsorted).
  set (sorted := map snd (sort_reverse fst keyed)) in *.
  assert (Hperm : sorted ≡ₚ keys raw_data_dict).
  { rewrite <- Hfiles. unfold sorted.
    change (map snd) with (fmap (M := list) (@snd Z str)).
    by rewrite sort_reverse_perm. }
  exists sorted,
    (⋃ (map (nicknames_in raw_data_dict)
            (elements (list_to_set (C := gset str) (take 10 sorted))))).
  split; [done |]. split; [done |].
  split; [intros n; by apply newest_first_sorted |].
  assert (Hrecent : recent_files raw_data_dict
                    = Return (list_to_set (take 10 sorted))).
  { unfold recent_files. by rewrite Hsorted. }
  split; [done |].
  split.
  { rewrite length_take, Hperm. unfold keys. by rewrite length_map. }
  split.
  { unfold active_nicknames. by rewrite Hrecent. }
  intros nick. apply elem_of_active.
Qed.

(** ** The canonical names are pairwise different *)

Section GroupKeys.

Context {X : Type} (payload : MatchRecord -> X).

Lemma keys_app (d1 d2 : dict (list X)) : keys (d1 ++ d2) = keys d1 ++ keys d2.
Proof. unfold keys. apply map_app. Qed.

Lemma group_step_wf grouped player_stat :
  dict_wf grouped -> dict_wf (group_step payload grouped player_stat).
Proof.
  unfold dict_wf. intros Hwf.
  destruct (group_step_cases payload grouped player_stat)
    as [(pre & name & l & post & -> & _ & _ & ->)|[Hall ->]].
  - by rewrite keys_app in *.
  - rewrite keys_app. simpl. apply NoDup_app. split; [done |].
    split; [| apply NoDup_singleton].
    intros n Hn Hn'. apply list_elem_of_singleton in Hn' as ->.
    by apply not_within_not_key in Hall.
Qed.

Lemma fold_group_step_wf stats grouped :
  dict_wf grouped -> dict_wf (fold_left (group_step payload) stats grouped).
Proof.
  revert grouped. induction stats as [|r stats IH]; intros grouped Hwf.
  - done.
  - simpl. by apply IH, group_step_wf.
Qed.

Lemma group_wf stats : dict_wf (group payload stats).
Proof. apply fold_group_step_wf. constructor. Qed.

End GroupKeys.

(** ** The loop over the canonical names *)

Section AveragesFacts.

Variable MIN_GAMES : Z.
Variable active : gset str.

Lemma is_active_spec name :
  is_active active name = true <->
  exists nick, nick ∈ active /\ (distance name nick <= MAX_DISTANCE)%nat.
Proof.
  unfold is_active. rewrite existsb_exists. split.
  - intros (nick & Hin & Hle). exists nick. split.
    + by apply elem_of_elements, list_elem_of_In.
    + by apply Nat.leb_le.
  - intros (nick & Hin & Hle). exists nick. split.
    + by apply list_elem_of_In, elem_of_elements.
    + by apply Nat.leb_le.
Qed.

(** What the loop leaves under [name], by what the grouping holds
    under it. *)
Lemma fold_averages_step grouped acc n averages n' name :
  dict_wf grouped ->
  fold_leftM (averages_step MIN_GAMES active) grouped (acc, n)
    = Return (averages, n') ->
  match dict_get name grouped with
  | Some stats_list =>
      if is_active active name
         && negb (Z.of_nat (length stats_list) <? MIN_GAMES)
      then exists entry, averages_of stats_list = Return entry /\
                         dict_get name averages = Some entry
      else dict_get name averages = dict_get name acc
  | None => dict_get name averages = dict_get name acc
  end.
Proof.
  unfold dict_wf.
  revert acc n. induction grouped as [|[k l] grouped IH]; intros acc n Hwf Hfold.
  - simpl in *. by injection Hfold as <- <-.
  - simpl in Hwf. apply NoDup_cons in Hwf as [Hk Hwf].
    cbn [fold_leftM] in Hfold.
    apply bind_Return in Hfold as ([acc' m] & Hstep & Hfold).
    specialize (IH acc' m Hwf Hfold).
    cbn [dict_get]. destruct (decide (name = k)) as [->|Hne].
    + assert (Hnone : dict_get k grouped = None) by by apply dict_get_None.
      rewrite Hnone in IH. rewrite IH.
      unfold averages_step in Hstep.
      destruct (is_active active k); simpl in *.
      * destruct (Z.of_nat (length l) <? MIN_GAMES); simpl in *.
        -- by injection Hstep as <- <-.
        -- apply bind_Return in Hstep as (entry & Hentry & Hstep).
           injection Hstep as <- <-.
           exists entry. split; [done |]. apply dict_get_set_eq.
      * by injection Hstep as <- <-.
    + assert (Hacc : dict_get name acc' = dict_get name acc).
      { unfold averages_step in Hstep.
        destruct (negb (is_active active k)); simpl in *.
        - by injection Hstep as <- <-.
        - destruct (Z.of_nat (length l) <? MIN_GAMES); simpl in *.
          + by injection Hstep as <- <-.
          + apply bind_Return in Hstep as (entry & Hentry & Hstep).
            injection Hstep as <- <-. simpl.
            by apply dict_get_set_ne. }
      by rewrite <- Hacc.
Qed.

Lemma new_averages_lookup grouped averages n name :
  dict_wf grouped ->
  new_averages MIN_GAMES active grouped = Return (averages, n) ->
  match dict_get name grouped with
  | Some stats_list =>
      if is_active active name
         && negb (Z.of_nat (length stats_list) <? MIN_GAMES)
      then exists entry, averages_of stats_list = Return entry /\
                         dict_get name averages = Some entry
      else dict_get name averages = None
  | None => dict_get name averages = None
  end.
Proof.
  intros Hwf Hnew.
  apply (fold_averages_step grouped [] 0%nat averages n name Hwf Hnew).
Qed.

End AveragesFacts.

Section AggregateFacts.

Context `{UnicodeData}.
Variable MIN_GAMES : Z.

Lemma aggregate_Return raw_data_dict averages result :
  aggregate MIN_GAMES raw_data_dict = Return (Some (averages, result)) ->
  exists active n,
    active_nicknames raw_data_dict = Return active /\
    new_averages MIN_GAMES active (grouped_data raw_data_dict)
      = Return (averages, n).
Proof.
  unfold aggregate. intros Hagg.
  apply bind_Return in Hagg as (active & Hactive & Hagg).
  destruct (all_stats raw_data_dict) as [|r stats]; [discriminate |].
  apply bind_Return in Hagg as ([averages' n] & Hnew & Hagg).
  injection Hagg as <- <-. by exists active, n.
Qed.

(** An entry of the result comes from a canonical name that passes
    both filters. *)
Lemma aggregate_entry raw_data_dict averages result name entry :
  aggregate MIN_GAMES raw_data_dict = Return (Some (averages, result)) ->
  dict_get name averages = Some entry ->
  exists active stats_list,
    active_nicknames raw_data_dict = Return active /\
    dict_get name (grouped_data raw_data_dict) = Some stats_list /\
    is_active active name = true /\
    MIN_GAMES <= Z.of_nat (length stats_list) /\
    averages_of stats_list = Return entry.
Proof.
  intros Hagg Hentry.
  apply aggregate_Return in Hagg as (active & n & Hactive & Hnew).
  pose proof (new_averages_lookup MIN_GAMES active _ _ _ name
                (group_wf stats_of _) Hnew) as Hlook.
  fold (grouped_data raw_data_dict) in Hlook.
  destruct (dict_get name (grouped_data raw_data_dict)) as [stats_list|];
    [| congruence].
  destruct (is_active active name) eqn:Hact; simpl in Hlook; [| congruence].
  destruct (Z.ltb_spec (Z.of_nat (length stats_list)) MIN_GAMES);
    simpl in Hlook; [congruence |].
  destruct Hlook as (entry' & Hav & Hget).
  exists active, stats_list. repeat split; try done. congruence.
Qed.

End AggregateFacts.

Section ActiveInv.

Context `{UnicodeData}.

Lemma active_nicknames_Return_inv raw_data_dict active :
  active_nicknames raw_data_dict = Return active ->
  exists sorted,
    all_known_files raw_data_dict = Return sorted /\
    forall nick,
      nick ∈ active <-> occurs_in raw_data_dict (take 10 sorted) nick.
Proof.
  unfold active_nicknames, recent_files. intros Hact.
  apply bind_Return in Hact as (recent & Hrecent & Hact).
  apply bind_Return in Hrecent as (sorted & Hsorted & Hrecent).
  injection Hrecent as <-. injection Hact as <-.
  exists sorted. split; [done |]. intros nick. apply elem_of_active.
Qed.

End ActiveInv.

(** C3, as the code has it.  Whenever the aggregation yields a mapping,
    the active nicknames are those occurring in the 10 most recent
    matches, and a canonical name is kept only if some active nickname
    is within Levenshtein distance 3 of the name itself: a name farther
    than 3 from every active nickname has no entry, however many games
    it has, and every entry has an active nickname within 3 of its
    name.  The distance to the active nicknames decides, together with
    the number of games: a canonical name has an entry exactly when
    some active nickname is within distance 3 of it (3 included) and
    it has at least [MIN_GAMES] tuples. *)
Theorem gating_by_exemplar `{UnicodeData} (MIN_GAMES : Z)
    (raw_data_dict : RawStore) averages result :
  aggregate MIN_GAMES raw_data_dict = Return (Some (averages, result)) ->
  exists sorted active,
    all_known_files raw_data_dict = Return sorted /\
    active_nicknames raw_data_dict = Return active /\
    (forall nick,
        nick ∈ active <-> occurs_in raw_data_dict (take 10 sorted) nick) /\
    (forall name,
        (forall nick, nick ∈ active -> (distance name nick > 3)%nat) ->
        dict_get name averages = None) /\
    (forall name entry,
        dict_get name averages = Some entry ->
        exists nick, nick ∈ active /\ (distance name nick <= 3)%nat) /\
    (forall name stats_list,
        dict_get name (grouped_data raw_data_dict) = Some stats_list ->
        ((exists entry, dict_get name averages = Some entry) <->
         (exists nick, nick ∈ active /\ (distance name nick <= 3)%nat) /\
         MIN_GAMES <= Z.of_nat (length stats_list))).
Proof.
  intros Hagg.
  destruct (aggregate_Return _ _ _ _ Hagg) as (active & n & Hactive & Hnew).
  destruct (active_nicknames_Return_inv _ _ Hactive) as (sorted & Hsorted & Hocc).
  assert (Hkept : forall name entry,
             dict_get name averages = Some entry ->
             exists nick, nick ∈ active /\ (distance name nick <= 3)%nat).
  { intros name entry Hentry.
    destruct (aggregate_entry _ _ _ _ _ _ Hagg Hentry)
      as (active' & stats_list & Hactive' & _ & Hact & _).
    assert (active' = active) as -> by congruence.
    by apply is_active_spec in Hact. }
  exists sorted, active.
  split; [done |]. split; [done |]. split; [exact Hocc |].
  split; [| split; [exact Hkept |]].
  - intros name Hfar.
    destruct (dict_get name averages) as [entry|] eqn:Hentry; [| done].
    destruct (Hkept name entry Hentry) as (nick & Hin & Hle).
    specialize (Hfar nick Hin). lia.
  - intros name stats_list Hgrouped. split.
    + intros [entry Hentry]. split; [by apply (Hkept name entry) |].
      destruct (aggregate_entry _ _ _ _ _ _ Hagg Hentry)
        as (_ & stats_list' & _ & Hgrouped' & _ & Hgames & _).
      congruence.
    + intros [Hnear Hgames].
      pose proof (new_averages_lookup MIN_GAMES active _ _ _ name
                    (group_wf stats_of _) Hnew) as Hlook.
      fold (grouped_data raw_data_dict) in Hlook.
      rewrite Hgrouped in Hlook.
      apply is_active_spec in Hnear. rewrite Hnear in Hlook.
      destruct (Z.ltb_spec (Z.of_nat (length stats_list)) MIN_GAMES);
        [lia |].
      destruct Hlook as (entry & _ & Hget). by exists entry.
Qed.

(** C4.  The K/D of a retained name.  With [mean_kills] and
    [mean_deaths] the means of the kills and deaths columns of its
    tuples (the binary64 numbers nearest to the sums divided by the
    number of tuples): if [mean_deaths > 0], [kd] is the binary64
    quotient [mean_kills / mean_deaths] rounded to 2 decimals;
    otherwise, and so when [mean_deaths] is 0, [kd] is [mean_kills]
    itself, not rounded, while the [avg_kills] field is [mean_kills]
    rounded to 2 decimals.  The means, the quotient and the rounding
    are said with the division of the standard library's IEEE 754 and
    with integer arithmetic, not with the functions of the code. *)
Theorem kd_computation `{UnicodeData} (MIN_GAMES : Z)
    (raw_data_dict : RawStore) averages result name entry :
  aggregate MIN_GAMES raw_data_dict = Return (Some (averages, result)) ->
  dict_get name averages = Some entry ->
  exists stats_list,
    dict_get name (grouped_data raw_data_dict) = Some stats_list /\
    stats_list <> [] /\
    let mean_kills := mean (map col1 stats_list) in
    let mean_deaths := mean (map col2 stats_list) in
    (if SFltb (S754_zero false) mean_deaths
     then rounded_to_hundredths (SFdiv 53 1024 mean_kills mean_deaths)
                                (kd entry)
     else kd entry = mean_kills) /\
    (SFeqb mean_deaths (S754_zero false) = true -> kd entry = mean_kills) /\
    rounded_to_hundredths mean_kills (avg_kills entry).
Proof.
  intros Hagg Hentry.
  destruct (aggregate_entry _ _ _ _ _ _ Hagg Hentry)
    as (active & stats_list & _ & Hgrouped & _ & _ & Hav).
  unfold averages_of in Hav.
  apply bind_Return in Hav as (mean_kills & Hkills & Hav).
  apply bind_Return in Hav as (mean_deaths & Hdeaths & Hav).
  apply bind_Return in Hav as (mean_place & _ & Hav).
  apply bind_Return in Hav as (the_place & _ & Hav).
  apply bind_Return in Hav as (the_kd & Hkd & Hav).
  apply bind_Return in Hav as (the_kills & Hround & Hav).
  apply bind_Return in Hav as (the_deaths & _ & Hav).
  apply bind_Return in Hav as (mean_assists & _ & Hav).
  apply bind_Return in Hav as (the_assists & _ & Hav).
  apply bind_Return in Hav as (mean_score & _ & Hav).
  apply bind_Return in Hav as (the_score & _ & Hav).
  injection Hav as <-. cbn [kd avg_kills].
  exists stats_list. split; [done |].
  split; [by intros ->; vm_compute in Hkills |].
  apply int_true_div_nearest in Hkills; [| lia].
  apply int_true_div_nearest in Hdeaths; [| lia].
  rewrite py_sum_foldr in Hkills, Hdeaths.
  rewrite <- (length_map col1) in Hkills.
  rewrite <- (length_map col2) in Hdeaths.
  fold (mean (map col1 stats_list)) in Hkills.
  fold (mean (map col2 stats_list)) in Hdeaths.
  cbv zeta. rewrite <- Hkills, <- Hdeaths.
  assert (Hcases : if SFltb (S754_zero false) mean_deaths
                   then rounded_to_hundredths
                          (SFdiv 53 1024 mean_kills mean_deaths) the_kd
                   else the_kd = mean_kills).
  { unfold Float.gt_zero, Float.zero in Hkd.
    destruct (SFltb (S754_zero false) mean_deaths) eqn:Hpos.
    - apply bind_Return in Hkd as (q & Hq & Hkd).
      apply round2_rounded in Hkd.
      unfold Float.float_div in Hq.
      destruct mean_deaths; try discriminate; by injection Hq as <-.
    - by injection Hkd as <-. }
  split; [exact Hcases |].
  split; [| by apply round2_rounded].
  intros Hzero.
  pose proof (eq_zero_not_gt_zero _ Hzero) as Hnot.
  unfold Float.gt_zero, Float.zero in Hnot. by rewrite Hnot in Hcases.
Qed.

(** C5.  The threshold on the number of games.  Whenever the
    aggregation yields a mapping, an active canonical name with exactly
    [MIN_GAMES - 1] tuples has no entry, and one with exactly
    [MIN_GAMES] tuples has an entry. *)
Theorem min_games_boundary `{UnicodeData} (MIN_GAMES : Z)
    (raw_data_dict : RawStore) averages result active name stats_list :
  aggregate MIN_GAMES raw_data_dict = Return (Some (averages, result)) ->
  active_nicknames raw_data_dict = Return active ->
  dict_get name (grouped_data raw_data_dict) = Some stats_list ->
  is_active active name = true ->
  (Z.of_nat (length stats_list) = MIN_GAMES - 1 ->
     dict_get name averages = None) /\
  (Z.of_nat (length stats_list) = MIN_GAMES ->
     exists entry, dict_get name averages = Some entry /\
                   games_played entry = MIN_GAMES).
Proof.
  intros Hagg Hactive Hgrouped Hact.
  destruct (aggregate_Return _ _ _ _ Hagg) as (active' & n & Hactive' & Hnew).
  assert (active' = active) as -> by congruence.
  pose proof (new_averages_lookup MIN_GAMES active _ _ _ name
                (group_wf stats_of _) Hnew) as Hlook.
  fold (grouped_data raw_data_dict) in Hlook.
  rewrite Hgrouped, Hact in Hlook. simpl in Hlook.
  split; intros Hgames.
  - destruct (Z.ltb_spec (Z.of_nat (length stats_list)) MIN_GAMES);
      simpl in Hlook; [done | lia].
  - destruct (Z.ltb_spec (Z.of_nat (length stats_list)) MIN_GAMES);
      simpl in Hlook; [lia |].
    destruct Hlook as (entry & Hav & Hget). exists entry. split; [done |].
    unfold averages_of in Hav.
    repeat (apply bind_Return in Hav as (? & _ & Hav)).
    by injection Hav as <-.
Qed.

Lemma numeric_prefixes_checked `{UnicodeData} (raw_data_dict : RawStore) :
  numeric_prefixes_check raw_data_dict = true ->
  numeric_prefixes raw_data_dict.
Proof.
  unfold numeric_prefixes_check, numeric_prefixes.
  rewrite forallb_forall. intros Hall filename Hin.
  by apply list_elem_of_In, Hall in Hin.
Qed.

Lemma active_nicknames_recent_witness :
  numeric_prefixes (H := ascii_tables) eleven_matches /\
  exists sorted active,
    all_known_files (H := ascii_tables) eleven_matches = Return sorted /\
    sorted ≡ₚ keys eleven_matches /\
    (forall n, newest_first (H := ascii_tables)
                 (take n sorted) (drop n sorted)) /\
    recent_files (H := ascii_tables) eleven_matches
      = Return (list_to_set (take 10 sorted)) /\
    length (take 10 sorted) = Nat.min 10 (length eleven_matches) /\
    active_nicknames (H := ascii_tables) eleven_matches = Return active /\
    forall nick,
      nick ∈ active <-> occurs_in eleven_matches (take 10 sorted) nick.
Proof.
  assert (Hnum : numeric_prefixes (H := ascii_tables) eleven_matches).
  { apply numeric_prefixes_checked. vm_compute. reflexivity. }
  split; [exact Hnum |].
  exact (active_nicknames_recent (H := ascii_tables) eleven_matches Hnum).
Defined.

(** The sort compares the prefixes as numbers: as text, ["9-a.png"]
    would sort above ["10-a.png"]. *)
Example numeric_not_lexical :
  all_known_files (H := ascii_tables)
    [ (lit "9-a.png", []); (lit "10-a.png", []); (lit "100-a.png", []) ]
  = Return [lit "100-a.png"; lit "10-a.png"; lit "9-a.png"].
Proof. vm_compute. reflexivity. Qed.

(** Files of equal prefix keep the order of the store. *)
Example equal_prefixes_keep_order :
  all_known_files (H := ascii_tables)
    [ (lit "7-b.png", []); (lit "9-a.png", []); (lit "7-a.png", []) ]
  = Return [lit "9-a.png"; lit "7-b.png"; lit "7-a.png"].
Proof. vm_compute. reflexivity. Qed.

(** C3, as it is worded for the members of an identity, fails on
    [eleven_matches] with [MIN_GAMES = 1]: the only member of [bbbb]
    is [bbbb], which occurs in the oldest match alone, yet [bbbb] has
    an entry, since the active nickname [aabb] is within 3 of it. *)
Lemma gating_by_members_fails :
  ~ gating_by_members (H := ascii_tables) 1 eleven_matches.
Proof.
  intros Hclaim.
  destruct (aggregate (H := ascii_tables) 1 eleven_matches)
    as [[[averages result]|]|e] eqn:Hagg;
    [| vm_compute in Hagg; discriminate | vm_compute in Hagg; discriminate].
  specialize (Hclaim averages result {[lit "aabb"]} (lit "bbbb") [lit "bbbb"]
                Hagg).
  assert (Hentry : dict_get (lit "bbbb") averages = None).
  { apply Hclaim.
    - vm_compute. reflexivity.
    - vm_compute. reflexivity.
    - intros nick Hnick Hactive.
      apply list_elem_of_singleton in Hnick as ->.
      apply elem_of_singleton in Hactive. discriminate. }
  vm_compute in Hagg. injection Hagg as <- _.
  vm_compute in Hentry. discriminate.
Qed.

Lemma gating_by_exemplar_witness :
  exists averages result,
    aggregate (H := ascii_tables) 2 twelve_matches
      = Return (Some (averages, result)) /\
    (exists sorted active,
       all_known_files (H := ascii_tables) twelve_matches = Return sorted /\
       active_nicknames (H := ascii_tables) twelve_matches = Return active /\
       (forall nick,
           nick ∈ active
           <-> occurs_in twelve_matches (take 10 sorted) nick) /\
       (forall name,
           (forall nick, nick ∈ active -> (distance name nick > 3)%nat) ->
           dict_get name averages = None) /\
       (forall name entry,
           dict_get name averages = Some entry ->
           exists nick, nick ∈ active /\ (distance name nick <= 3)%nat) /\
       (forall name stats_list,
           dict_get name (grouped_data twelve_matches) = Some stats_list ->
           ((exists entry, dict_get name averages = Some entry) <->
            (exists nick, nick ∈ active /\ (distance name nick <= 3)%nat) /\
            2 <= Z.of_nat (length stats_list)))) /\
    active_nicknames (H := ascii_tables) twelve_matches
      = Return {[ lit "aabb" ]} /\
    keys (grouped_data twelve_matches)
      = [lit "aaaa"; lit "bbbb"; lit "Stranger"] /\
    keys averages = [lit "aaaa"] /\
    (distance (lit "Stranger") (lit "aabb") = 7)%nat /\
    dict_get (lit "Stranger") (grouped_data twelve_matches)
      = Some [(1, 5, 1, 0, 0, 0); (1, 4, 1, 0, 0, 0)] /\
    dict_get (lit "Stranger") averages = None.
Proof.
  destruct (aggregate (H := ascii_tables) 2 twelve_matches)
    as [[[averages result]|]|e] eqn:Hagg.
  - exists averages, result. split; [reflexivity |].
    split; [exact (gating_by_exemplar (H := ascii_tables) 2 twelve_matches
                     averages result Hagg) |].
    vm_compute in Hagg. injection Hagg as <- _.
    split; [vm_compute; reflexivity |].
    split; [vm_compute; reflexivity |].
    split; [vm_compute; reflexivity |].
    split; [vm_compute; reflexivity |].
    split; vm_compute; reflexivity.
  - vm_compute in Hagg. discriminate.
  - vm_compute in Hagg. discriminate.
Defined.

Lemma kd_computation_witness :
  (exists averages result entry,
     aggregate (H := ascii_tables) 1 vortex_store
       = Return (Some (averages, result)) /\
     dict_get (lit "Vortex") averages = Some entry /\
     kd entry = S754_finite false 6755399441055744 (-50) /\
     avg_kills entry = S754_finite false 6755399441055744 (-49) /\
     exists stats_list,
       dict_get (lit "Vortex") (grouped_data vortex_store)
         = Some stats_list /\
       stats_list <> [] /\
       let mean_kills := mean (map col1 stats_list) in
       let mean_deaths := mean (map col2 stats_list) in
       (if SFltb (S754_zero false) mean_deaths
        then rounded_to_hundredths (SFdiv 53 1024 mean_kills mean_deaths)
                                   (kd entry)
        else kd entry = mean_kills) /\
       (SFeqb mean_deaths (S754_zero false) = true ->
        kd entry = mean_kills) /\
       rounded_to_hundredths mean_kills (avg_kills entry)) /\
  (exists averages result entry,
     aggregate (H := ascii_tables) 1 deathless_store
       = Return (Some (averages, result)) /\
     dict_get (lit "Lone") averages = Some entry /\
     mean (map col2 [(1, 1, 0, 0, 0, 0); (1, 0, 0, 0, 0, 0);
                     (1, 0, 0, 0, 0, 0)]) = S754_zero false /\
     kd entry = S754_finite false 6004799503160661 (-54) /\
     avg_kills entry = S754_finite false 5944751508129055 (-54) /\
     exists stats_list,
       dict_get (lit "Lone") (grouped_data deathless_store)
         = Some stats_list /\
       stats_list <> [] /\
       let mean_kills := mean (map col1 stats_list) in
       let mean_deaths := mean (map col2 stats_list) in
       (if SFltb (S754_zero false) mean_deaths
        then rounded_to_hundredths (SFdiv 53 1024 mean_kills mean_deaths)
                                   (kd entry)
        else kd entry = mean_kills) /\
       (SFeqb mean_deaths (S754_zero false) = true ->
        kd entry = mean_kills) /\
       rounded_to_hundredths mean_kills (avg_kills entry)).
Proof.
  split.
  - destruct (aggregate (H := ascii_tables) 1 vortex_store)
      as [[[averages result]|]|e] eqn:Hagg;
      [| vm_compute in Hagg; discriminate | vm_compute in Hagg; discriminate].
    destruct (dict_get (lit "Vortex") averages) as [entry|] eqn:Hentry.
    + exists averages, result, entry.
      split; [reflexivity |]. split; [exact Hentry |].
      pose proof (kd_computation (H := ascii_tables) 1 vortex_store averages
                    result (lit "Vortex") entry Hagg Hentry) as Hkd.
      vm_compute in Hagg. injection Hagg as <- _.
      vm_compute in Hentry. injection Hentry as <-.
      split; [reflexivity |]. split; [reflexivity |]. exact Hkd.
    + vm_compute in Hagg. injection Hagg as <- _.
      vm_compute in Hentry. discriminate.
  - destruct (aggregate (H := ascii_tables) 1 deathless_store)
      as [[[averages result]|]|e] eqn:Hagg;
      [| vm_compute in Hagg; discriminate | vm_compute in Hagg; discriminate].
    destruct (dict_get (lit "Lone") averages) as [entry|] eqn:Hentry.
    + exists averages, result, entry.
      split; [reflexivity |]. split; [exact Hentry |].
      pose proof (kd_computation (H := ascii_tables) 1 deathless_store
                    averages result (lit "Lone") entry Hagg Hentry) as Hkd.
      vm_compute in Hagg. injection Hagg as <- _.
      vm_compute in Hentry. injection Hentry as <-.
      split; [vm_compute; reflexivity |].
      split; [reflexivity |]. split; [reflexivity |]. exact Hkd.
    + vm_compute in Hagg. injection Hagg as <- _.
      vm_compute in Hentry. discriminate.
Defined.

(** The example of the specification: the two spellings form one
    identity with 2 games, 12.0 average kills and a K/D of 6.0. *)
Example vortex_averages :
  exists averages result entry,
    aggregate (H := ascii_tables) 1 vortex_store
      = Return (Some (averages, result)) /\
    averages = [(lit "Vortex", entry)] /\
    games_played entry = 2 /\
    avg_kills entry = Float.of_Z 12 /\
    kd entry = Float.of_Z 6.
Proof.
  eexists _, _, _. split; [vm_compute; reflexivity |].
  split; [reflexivity |]. vm_compute. auto.
Qed.

(** With no deaths the K/D is the mean of the kills as it is, here
    1/3, and the [avg_kills] field is its rounding, 0.33. *)
Example deathless_averages :
  exists averages result entry,
    aggregate (H := ascii_tables) 1 deathless_store
      = Return (Some (averages, result)) /\
    averages = [(lit "Lone", entry)] /\
    Float.int_true_div 1 3 = Return (kd entry) /\
    Float.int_true_div 33 100 = Return (avg_kills entry) /\
    kd entry <> avg_kills entry.
Proof.
  eexists _, _, _. split; [vm_compute; reflexivity |].
  split; [reflexivity |]. vm_compute. repeat split; discriminate.
Qed.

Lemma min_games_boundary_witness :
  (exists averages result entry,
      aggregate (H := ascii_tables) 2 vortex_store
        = Return (Some (averages, result)) /\
      dict_get (lit "Vortex") averages = Some entry /\
      games_played entry = 2) /\
  (exists averages result,
      aggregate (H := ascii_tables) 3 vortex_store
        = Return (Some (averages, result)) /\
      dict_get (lit "Vortex") averages = None).
Proof.
  assert (Hactive : active_nicknames (H := ascii_tables) vortex_store
                    = Return {[lit "Vortex"; lit "V0rtex"]}).
  { vm_compute. reflexivity. }
  assert (Hgrouped : dict_get (lit "Vortex") (grouped_data vortex_store)
                     = Some [(1, 10, 2, 0, 0, 0); (1, 14, 2, 0, 0, 0)]).
  { vm_compute. reflexivity. }
  assert (Hact : is_active {[lit "Vortex"; lit "V0rtex"]} (lit "Vortex") = true).
  { vm_compute. reflexivity. }
  split.
  - destruct (aggregate (H := ascii_tables) 2 vortex_store)
      as [[[averages result]|]|e] eqn:Hagg;
      [| vm_compute in Hagg; discriminate | vm_compute in Hagg; discriminate].
    destruct (proj2 (min_games_boundary (H := ascii_tables) 2 vortex_store
                       averages result _ _ _ Hagg Hactive Hgrouped Hact)
                    eq_refl) as (entry & Hentry & Hgames).
    exists averages, result, entry.
    split; [reflexivity |]. split; [exact Hentry | exact Hgames].
  - destruct (aggregate (H := ascii_tables) 3 vortex_store)
      as [[[averages result]|]|e] eqn:Hagg;
      [| vm_compute in Hagg; discriminate | vm_compute in Hagg; discriminate].
    exists averages, result. split; [reflexivity |].
    exact (proj1 (min_games_boundary (H := ascii_tables) 3 vortex_store
                    averages result _ _ _ Hagg Hactive Hgrouped Hact)
                 eq_refl).
Defined.

(** ** Regular expressions *)

Ltac run_parts :=
  split; [reflexivity |]; split; [by constructor |]; split; [done |].

Section ReFacts.

Import Re.

Section RunFacts.

Context {R : Type} (class : char -> bool) (k : str -> str -> option R).

Lemma greedy_sound s : forall seen may_end r,
  run_greedy class k seen may_end s = Some r ->
  exists run rest,
    s = run ++ rest /\
    Forall (fun c => class c = true) run /\
    (may_end = false -> run <> []) /\
    k (rev seen ++ run) rest = Some r.
Proof.
  induction s as [|c s IH]; intros seen may_end r Hg; simpl in Hg.
  - destruct may_end; [| discriminate].
    exists [], []. rewrite !app_nil_r. by run_parts.
  - assert (Hend : (if may_end then k (rev seen) (c :: s) else None) = Some r ->
                   exists run rest,
                     c :: s = run ++ rest /\
                     Forall (fun c => class c = true) run /\
                     (may_end = false -> run <> []) /\
                     k (rev seen ++ run) rest = Some r).
    { destruct may_end; [| discriminate]. intros Hk.
      exists [], (c :: s). rewrite !app_nil_r. by run_parts. }
    destruct (class c) eqn:Hc; [| by apply Hend].
    destruct (run_greedy class k (c :: seen) true s) as [r'|] eqn:Hrec;
      [| by apply Hend].
    injection Hg as ->.
    apply IH in Hrec as (run & rest & -> & Hrun & _ & Hk).
    exists (c :: run), rest. split; [done |].
    split; [by constructor |]. split; [done |].
    simpl in Hk. by rewrite <- app_assoc in Hk.
Qed.

Lemma greedy_complete run : forall rest seen may_end r0,
  Forall (fun c => class c = true) run ->
  (may_end = false -> run <> []) ->
  k (rev seen ++ run) rest = Some r0 ->
  exists r, run_greedy class k seen may_end (run ++ rest) = Some r.
Proof.
  induction run as [|c run IH]; intros rest seen may_end r0 Hrun Hne Hk.
  - destruct may_end; [| by destruct Hne].
    rewrite app_nil_r in Hk. simpl.
    destruct rest as [|c rest]; simpl; [by exists r0 |].
    rewrite Hk. destruct (class c); [| by exists r0].
    destruct (run_greedy class k (c :: seen) true rest) as [r|];
      [by exists r | by exists r0].
  - apply Forall_cons in Hrun as [Hc Hrun]. simpl. rewrite Hc.
    destruct (IH rest (c :: seen) true r0 Hrun) as [r Hr]; [done | |].
    { simpl. by rewrite <- app_assoc. }
    rewrite Hr. by exists r.
Qed.

Lemma lazy_sound s : forall seen may_end r,
  run_lazy class k seen may_end s = Some r ->
  exists run rest,
    s = run ++ rest /\
    Forall (fun c => class c = true) run /\
    (may_end = false -> run <> []) /\
    k (rev seen ++ run) rest = Some r.
Proof.
  induction s as [|c s IH]; intros seen may_end r Hl; simpl in Hl.
  - destruct may_end; [| discriminate].
    destruct (k (rev seen) []) as [r'|] eqn:Hk; [| discriminate].
    injection Hl as ->.
    exists [], []. rewrite !app_nil_r. by run_parts.
  - destruct (if may_end then k (rev seen) (c :: s) else None)
      as [r'|] eqn:Hend.
    + injection Hl as ->. destruct may_end; [| discriminate].
      exists [], (c :: s). rewrite !app_nil_r. by run_parts.
    + destruct (class c) eqn:Hc; [| discriminate].
      apply IH in Hl as (run & rest & -> & Hrun & _ & Hk).
      exists (c :: run), rest. split; [done |].
      split; [by constructor |]. split; [done |].
      simpl in Hk. by rewrite <- app_assoc in Hk.
Qed.

Lemma lazy_complete run : forall rest seen may_end r0,
  Forall (fun c => class c = true) run ->
  (may_end = false -> run <> []) ->
  k (rev seen ++ run) rest = Some r0 ->
  exists r, run_lazy class k seen may_end (run ++ rest) = Some r.
Proof.
  induction run as [|c run IH]; intros rest seen may_end r0 Hrun Hne Hk.
  - destruct may_end; [| by destruct Hne].
    rewrite app_nil_r in Hk. simpl.
    destruct rest as [|c rest]; simpl; rewrite Hk; by exists r0.
  - apply Forall_cons in Hrun as [Hc Hrun]. simpl.
    destruct (if may_end then k (rev seen) (c :: run ++ rest) else None)
      as [r|]; [by exists r |].
    rewrite Hc. apply (IH rest (c :: seen) true r0 Hrun); [done |].
    simpl. by rewrite <- app_assoc.
Qed.

End RunFacts.

(** A match of [rmatch] has the shape of the pattern. *)
Lemma rmatch_sound p : forall s groups,
  rmatch p s = Some groups -> shaped p s groups.
Proof.
  induction p as [|a p IH]; intros s groups Hm; simpl in Hm.
  - injection Hm as <-. constructor.
  - assert (Hrun : exists run rest,
               s = run ++ rest /\
               Forall (fun c => class a c = true) run /\
               (negb (nonempty a) = false -> run <> []) /\
               match rmatch p rest with
               | Some groups' =>
                   Some (if group a then run :: groups' else groups')
               | None => None
               end = Some groups).
    { destruct (mode a).
      - by apply greedy_sound in Hm.
      - by apply lazy_sound in Hm. }
    destruct Hrun as (run & rest & -> & Hclass & Hne & Hk).
    destruct (rmatch p rest) as [groups'|] eqn:Hrest; [| discriminate].
    injection Hk as <-. constructor; [done | | by apply IH].
    intros Hplus. apply Hne. by rewrite Hplus.
Qed.

(** A subject that has the shape of the pattern is matched. *)
Lemma rmatch_complete p s groups :
  shaped p s groups -> exists groups', rmatch p s = Some groups'.
Proof.
  induction 1 as [s|a p run rest groups Hclass Hne _ [groups' IH]]; simpl.
  - by exists [].
  - set (k := fun run rest =>
                match rmatch p rest with
                | Some groups => Some (if group a then run :: groups else groups)
                | None => None
                end).
    assert (Hk : k ([] ++ run) rest
                 = Some (if group a then run :: groups' else groups')).
    { unfold k. by rewrite IH. }
    assert (Hne' : negb (nonempty a) = false -> run <> []).
    { intros Hn. apply Hne. by destruct (nonempty a). }
    destruct (mode a).
    + by apply (greedy_complete (class a) k run rest [] _ _ Hclass Hne' Hk).
    + by apply (lazy_complete (class a) k run rest [] _ _ Hclass Hne' Hk).
Qed.

Lemma shaped_cons_inv a p s groups :
  shaped (a :: p) s groups ->
  exists run rest groups',
    s = run ++ rest /\
    Forall (fun c => class a c = true) run /\
    (nonempty a = true -> run <> []) /\
    shaped p rest groups' /\
    groups = if group a then run :: groups' else groups'.
Proof.
  inversion 1; subst. eexists _, _, _. by repeat split.
Qed.

Lemma shaped_nil_inv s groups : shaped [] s groups -> groups = [].
Proof. by inversion 1. Qed.

End ReFacts.

(** ** The row parser *)

Section ParserFacts.

Context `{UnicodeData}.

Import Re.

Lemma row_shape (s : str) (groups : list str) :
  shaped ROW_PATTERN s groups ->
  exists place name kills deaths assists treasury score,
    groups = [place; name; kills; deaths; assists; treasury; score] /\
    number_group place /\ number_group kills /\ number_group deaths /\
    number_group assists /\ number_group treasury /\ number_group score /\
    Forall (fun c => name_char c = true) name /\ name <> [].
Proof.
  unfold ROW_PATTERN, number_group. intros Hs.
  repeat match goal with
         | Hs : shaped (_ :: _) _ _ |- _ =>
             apply shaped_cons_inv in Hs
               as (? & ? & ? & _ & ? & ? & Hs & ?)
         end.
  apply shaped_nil_inv in Hs. simpl in *. subst.
  eexists _, _, _, _, _, _, _. split; [reflexivity |].
  repeat split; auto.
Qed.

End ParserFacts.

Section ParseLine.

Context `{UnicodeData}.

Import Re.

Lemma parse_line_cases (line : str) :
  (exists g_place g_name g_kills g_deaths g_assists g_treasury g_score,
      let groups := [g_place; g_name; g_kills; g_deaths; g_assists;
                     g_treasury; g_score] in
      shaped ROW_PATTERN (strip line) groups /\
      rmatch ROW_PATTERN (strip line) = Some groups /\
      parse_line line
        = if digit_groups_fit groups
          then Return [record_of_groups g_place g_name g_kills g_deaths
                                        g_assists g_treasury g_score]
          else Raise ValueError)
  \/ ((forall groups, ~ shaped ROW_PATTERN (strip line) groups) /\
      rmatch ROW_PATTERN (strip line) = None /\
      parse_line line = Return []).
Proof.
  destruct (rmatch ROW_PATTERN (strip line)) as [groups|] eqn:Hm.
  - left. pose proof (rmatch_sound _ _ _ Hm) as Hs.
    destruct (row_shape _ _ Hs)
      as (p & n & k & d & a & t & sc & -> & [? ?] & [? ?] & [? ?] & [? ?]
          & [? ?] & [? ?] & _).
    exists p, n, k, d, a, t, sc. split; [done |]. split; [done |].
    unfold parse_line. rewrite Hm.
    rewrite !int_group by done. cbn [digit_groups_fit].
    destruct (within_limit p); [| done].
    destruct (within_limit k); [| done].
    destruct (within_limit d); [| done].
    destruct (within_limit a); [| done].
    destruct (within_limit t); [| done].
    by destruct (within_limit sc).
  - right. split; [| split; [done |]].
    + intros groups Hs. apply rmatch_complete in Hs as [groups' Hs].
      congruence.
    + unfold parse_line. by rewrite Hm.
Qed.

(** A line either yields its records or raises [ValueError], the
    latter exactly when it is an overlong row. *)
Lemma parse_line_outcome (line : str) :
  if overlong_row line then parse_line line = Raise ValueError
  else exists records,
         parse_line line = Return records /\
         length records = if row_matches line then 1%nat else 0%nat.
Proof.
  unfold overlong_row, row_matches.
  destruct (parse_line_cases line)
    as [(p & n & k & d & a & t & sc & _ & -> & ->)|(_ & -> & ->)].
  - destruct (digit_groups_fit _); simpl; [by eexists | done].
  - by eexists.
Qed.

Lemma parse_lines (lines : list str) :
  if existsb overlong_row lines
  then mapM parse_line lines = Raise ValueError
  else exists per_line,
         mapM parse_line lines = Return per_line /\
         Forall2 (fun line records => parse_line line = Return records)
                 lines per_line /\
         length (concat per_line) = length (List.filter row_matches lines).
Proof.
  induction lines as [|line lines IH]; simpl.
  - exists []. repeat split. constructor.
  - pose proof (parse_line_outcome line) as Hline.
    destruct (overlong_row line); simpl.
    + by rewrite Hline.
    + destruct Hline as (records & Hrec & Hone). rewrite Hrec. simpl.
      destruct (existsb overlong_row lines).
      * by rewrite IH.
      * destruct IH as (per_line & Hm & Hall & Hlen). rewrite Hm. simpl.
        exists (records :: per_line).
        split; [done |]. split; [by constructor |].
        simpl. rewrite length_app, Hone, Hlen.
        by destruct (row_matches line).
Qed.

End ParseLine.

(** C6, with the limit of [int].  A line, with the white space at its
    two ends set aside, either has the shape of the row pattern or has
    not.  In the first case the pattern matches, with seven groups of
    which the six numeric ones are non-empty runs of decimal digits.
    If each of these has at most 4300 digits, the line yields one
    record: its numeric fields are the numbers that the digit groups
    write and its nickname is the name group without the white space
    at its two ends.  If one of them is longer, the line raises
    [ValueError].  In the second case the line yields no record and
    raises nothing.  The records of a text are those of its lines, in
    order, unless a line raises. *)
Theorem row_parsing `{UnicodeData} :
  (forall line,
      exists core,
        trimmed line core /\
        ((exists g_place g_name g_kills g_deaths g_assists g_treasury
                 g_score,
             let groups := [g_place; g_name; g_kills; g_deaths; g_assists;
                            g_treasury; g_score] in
             Re.shaped ROW_PATTERN core groups /\
             Re.rmatch ROW_PATTERN core = Some groups /\
             number_group g_place /\ number_group g_kills /\
             number_group g_deaths /\ number_group g_assists /\
             number_group g_treasury /\ number_group g_score /\
             if digit_groups_fit groups
             then exists record,
                    parse_line line = Return [record] /\
                    place record = Z.of_N (decimal_number g_place) /\
                    kills record = Z.of_N (decimal_number g_kills) /\
                    deaths record = Z.of_N (decimal_number g_deaths) /\
                    assists record = Z.of_N (decimal_number g_assists) /\
                    treasury record = Z.of_N (decimal_number g_treasury) /\
                    score record = Z.of_N (decimal_number g_score) /\
                    trimmed g_name (nickname record)
             else parse_line line = Raise ValueError)
         \/ ((forall groups, ~ Re.shaped ROW_PATTERN core groups) /\
             parse_line line = Return [])))
  /\ (forall data,
        exists text,
          trimmed data text /\
          if existsb overlong_row (split NEWLINE text)
          then stats_for_this_image data = Raise ValueError
          else exists per_line,
                 Forall2 (fun line records => parse_line line = Return records)
                         (split NEWLINE text) per_line /\
                 stats_for_this_image data = Return (concat per_line)).
Proof.
  split.
  - intros line. exists (strip line). split; [apply strip_trimmed |].
    destruct (parse_line_cases line)
      as [(p & n & k & d & a & t & sc & Hs & Hm & Hp)|(Hs & _ & Hp)].
    + left. exists p, n, k, d, a, t, sc.
      destruct (row_shape _ _ Hs)
        as (p' & n' & k' & d' & a' & t' & sc' & [= <- <- <- <- <- <- <-]
            & ? & ? & ? & ? & ? & ? & _).
      intros groups. do 8 (split; [done |]).
      fold groups in Hp. destruct (digit_groups_fit groups); [| done].
      eexists. split; [exact Hp |]. simpl.
      do 6 (split; [done |]). apply strip_trimmed.
    + right. by split.
  - intros data. exists (strip data). split; [apply strip_trimmed |].
    pose proof (parse_lines (split NEWLINE (strip data))) as Hlines.
    unfold stats_for_this_image.
    destruct (existsb overlong_row (split NEWLINE (strip data))).
    + by rewrite Hlines.
    + destruct Hlines as (per_line & Hm & Hall & _).
      exists per_line. split; [done |]. by rewrite Hm.
Qed.

(** C6, as it is worded, fails on a matching line whose kills are
    written with 4301 digits: the line has the shape of a row and
    raises [ValueError]. *)
Lemma row_parsing_overlong :
  row_matches (H := ascii_tables) overlong_line = true /\
  parse_line (H := ascii_tables) overlong_line = Raise ValueError.
Proof. split; vm_compute; reflexivity. Qed.

(** C7, with the limit of [int].  When no line of the text is a row
    with a digit group of more than 4300 digits,
    [parse_and_store_data] returns the number of accepted rows, which
    is the number of lines that the row pattern matches; if that
    number is zero the store is left as it was, otherwise the record
    list is written under the given match id; no other key changes its
    value, and the keys already present keep their order.  When a
    line is such a row, the call raises [ValueError] and nothing is
    stored. *)
Theorem batch_storage `{UnicodeData} (image_name data : str)
    (raw_data_dict : RawStore) :
  exists text,
    trimmed data text /\
    if existsb overlong_row (split NEWLINE text)
    then parse_and_store_data image_name data raw_data_dict
         = Raise ValueError
    else
      exists stats raw_data_dict',
        stats_for_this_image data = Return stats /\
        parse_and_store_data image_name data raw_data_dict
          = Return (length stats, raw_data_dict') /\
        length stats
          = length (List.filter row_matches (split NEWLINE text)) /\
        ((stats = [] /\ raw_data_dict' = raw_data_dict)
         \/ (stats <> [] /\
             dict_get image_name raw_data_dict' = Some stats /\
             (keys raw_data_dict' = keys raw_data_dict
              \/ keys raw_data_dict' = keys raw_data_dict ++ [image_name])))
        /\ (forall k, k <> image_name ->
              dict_get k raw_data_dict' = dict_get k raw_data_dict).
Proof.
  exists (strip data). split; [apply strip_trimmed |].
  pose proof (parse_lines (split NEWLINE (strip data))) as Hlines.
  unfold parse_and_store_data, stats_for_this_image.
  destruct (existsb overlong_row (split NEWLINE (strip data))).
  { by rewrite Hlines. }
  destruct Hlines as (per_line & Hm & _ & Hlen). rewrite Hm. simpl.
  destruct (concat per_line) as [|r stats] eqn:Hc.
  - exists [], raw_data_dict. repeat split; try done. by left.
  - exists (r :: stats), (dict_set image_name (r :: stats) raw_data_dict).
    repeat split; try done.
    + right. split; [done |]. split; [apply dict_get_set_eq |].
      destruct (decide (image_name ∈ keys raw_data_dict)) as [Hin|Hout].
      * left. by apply keys_dict_set_old.
      * right. rewrite dict_set_new by done. apply keys_app.
    + intros k Hk. by apply dict_get_set_ne.
Qed.

(** C7, as it is worded, fails on a text with such a line: a line
    matched, and the call returns no count and stores nothing. *)
Lemma batch_storage_overlong :
  existsb (row_matches (H := ascii_tables))
          (split NEWLINE (strip (H := ascii_tables) overlong_line)) = true /\
  parse_and_store_data (H := ascii_tables) (lit "7-a.png") overlong_line
                       vortex_store
  = Raise ValueError.
Proof. split; vm_compute; reflexivity. Qed.

(** ** The persisted files *)

(** C8, as the claim words it, fails: contents that do not parse as a
    document do not always give the empty dictionary.  A raw file
    whose bytes are not UTF-8 text fails to parse, and [read_json_db]
    raises [UnicodeDecodeError] on it: this is a [ValueError] that
    neither handler catches. *)
Lemma read_json_db_undecodable :
  fails_to_parse (file_at RAW_STATS_FILE undecodable_raw) = true /\
  read_json_db RAW_STATS_FILE undecodable_raw = Raise UnicodeDecodeError /\
  read_json_db RAW_STATS_FILE undecodable_raw
    <> Return (Some (empty_dict RAW_STATS_FILE)).
Proof. repeat split. discriminate. Qed.

(** C8, amended.  Loading a store.  [read_json_db] returns the empty
    dictionary, and raises nothing, when the file is missing and when
    its text is not a JSON document (a syntax error).  Contents that
    fail to parse in another way make it raise: bytes that are not
    UTF-8 text raise [UnicodeDecodeError], and an integer literal that
    is too long raises [ValueError].  A file that cannot be opened
    gives [None], and a document is returned as it is.  So the empty
    dictionary is returned exactly when the file is missing, is not
    JSON, or holds the empty dictionary. *)
Theorem read_json_db_failures (db_path : db_path) (w : World) :
  match file_at db_path w with
  | Absent | Malformed =>
      read_json_db db_path w = Return (Some (empty_dict db_path))
  | Undecodable => read_json_db db_path w = Raise UnicodeDecodeError
  | Overlong => read_json_db db_path w = Raise ValueError
  | Denied => read_json_db db_path w = Return None
  | Holds data => read_json_db db_path w = Return (Some data)
  end /\
  (read_json_db db_path w = Return (Some (empty_dict db_path)) <->
   file_at db_path w = Absent \/ file_at db_path w = Malformed \/
   file_at db_path w = Holds (empty_dict db_path)).
Proof.
  unfold read_json_db.
  destruct (file_at db_path w) as [| | | | | data]; cbn.
  all: split; [reflexivity |].
  all: split; [intros Hread | intros [Hf | [Hf | Hf]]]; try discriminate.
  all: try (by left); try (by right; left); try reflexivity.
  - right. right. congruence.
  - congruence.
Qed.

Example read_json_db_runs :
  read_json_db RAW_STATS_FILE cold_start = Return (Some []) /\
  read_json_db PLAYER_AVERAGES_FILE damaged_averages = Return (Some []) /\
  read_json_db RAW_STATS_FILE (world_of vortex_store)
    = Return (Some vortex_store).
Proof. repeat split. Qed.

Lemma read_json_db_frame (db_path : db_path) (w w' : World) :
  file_at db_path w' = file_at db_path w ->
  read_json_db db_path w' = read_json_db db_path w.
Proof. unfold read_json_db. by intros ->. Qed.

Lemma write_json_db_spec (db_path : db_path) data (w : World) :
  write_json_db db_path data w
    = Return (if read_only w db_path then w
              else store_at db_path (Holds data) w).
Proof.
  unfold write_json_db, json_dump. by destruct (read_only w db_path).
Qed.

Section UpdateFacts.

Context `{UnicodeData}.
Variable MIN_GAMES : Z.

(** The ways in which a run ends. *)
Lemma update_cases (w : World) :
  (loaded_store_is_empty w /\
   update_player_averages MIN_GAMES w = (Return (Message NO_RAW_DATA), w))
  \/ (exists e,
        read_json_db RAW_STATS_FILE w = Raise e /\
        update_player_averages MIN_GAMES w = (Raise e, w))
  \/ (exists raw_data_dict,
        read_json_db RAW_STATS_FILE w = Return (Some raw_data_dict) /\
        raw_data_dict <> [] /\
        ((exists e,
            aggregate MIN_GAMES raw_data_dict = Raise e /\
            update_player_averages MIN_GAMES w = (Raise e, w))
         \/ (aggregate MIN_GAMES raw_data_dict = Return None /\
             update_player_averages MIN_GAMES w
               = (Return (Message RAW_DATA_EMPTY), w))
         \/ (exists averages result,
               aggregate MIN_GAMES raw_data_dict
                 = Return (Some (averages, result)) /\
               update_player_averages MIN_GAMES w
                 = (Return result,
                    if read_only w PLAYER_AVERAGES_FILE then w
                    else store_at PLAYER_AVERAGES_FILE (Holds averages) w)))).
Proof.
  unfold update_player_averages, loaded_store_is_empty.
  destruct (read_json_db RAW_STATS_FILE w) as [[[|item raw]|]|e] eqn:Hread.
  - left. split; [by right | done].
  - right. right. exists (item :: raw). split; [done |]. split; [done |].
    destruct (aggregate MIN_GAMES (item :: raw))
      as [[[averages result]|]|e] eqn:Hagg.
    + right. right. exists averages, result. split; [done |].
      rewrite write_json_db_spec. done.
    + right. left. done.
    + left. by exists e.
  - left. split; [by left | done].
  - right. left. by exists e.
Qed.

End UpdateFacts.

(** C9.  Idempotence.  A run of the aggregation leaves the raw file as
    it was, and a second run on the world that the first one left
    returns the same value and leaves the same world, with the same
    player averages in it. *)
Theorem aggregation_idempotent `{UnicodeData} (MIN_GAMES : Z) (w : World) :
  let first := update_player_averages MIN_GAMES w in
  let second := update_player_averages MIN_GAMES (snd first) in
  raw_stats (snd first) = raw_stats w /\
  fst second = fst first /\
  player_averages (snd second) = player_averages (snd first) /\
  snd second = snd first.
Proof.
  destruct w as [raw0 avg0 ro]. cbv zeta.
  unfold update_player_averages, read_json_db, write_json_db, json_dump.
  simpl.
  destruct raw0 as [| | | | |[|item raw]]; simpl; try by repeat split.
  destruct (aggregate MIN_GAMES (item :: raw))
    as [[[averages result]|]|e] eqn:Hagg; simpl;
    try (rewrite Hagg; by repeat split).
  destruct (ro PLAYER_AVERAGES_FILE) eqn:Hro; simpl;
    rewrite Hagg, Hro; by repeat split.
Qed.

(** C10.  The empty store.  When what is loaded from the raw file is
    empty, the run returns the no-data message and leaves the world,
    and so the persisted player averages, as they were.  A run changes
    the world only when the loaded store is not empty and the
    aggregation yields a mapping, and the change is that the averages
    file then holds that mapping; if the file can be written, such a
    run does leave it holding the mapping. *)
Theorem empty_store_no_write `{UnicodeData} (MIN_GAMES : Z) (w : World) :
  (loaded_store_is_empty w ->
   update_player_averages MIN_GAMES w = (Return (Message NO_RAW_DATA), w))
  /\ (forall outcome w',
        update_player_averages MIN_GAMES w = (outcome, w') ->
        w' <> w ->
        exists raw_data_dict averages result,
          read_json_db RAW_STATS_FILE w = Return (Some raw_data_dict) /\
          raw_data_dict <> [] /\
          aggregate MIN_GAMES raw_data_dict
            = Return (Some (averages, result)) /\
          outcome = Return result /\
          w' = store_at PLAYER_AVERAGES_FILE (Holds averages) w)
  /\ (forall raw_data_dict averages result,
        read_json_db RAW_STATS_FILE w = Return (Some raw_data_dict) ->
        raw_data_dict <> [] ->
        aggregate MIN_GAMES raw_data_dict
          = Return (Some (averages, result)) ->
        read_only w PLAYER_AVERAGES_FILE = false ->
        update_player_averages MIN_GAMES w
          = (Return result,
             store_at PLAYER_AVERAGES_FILE (Holds averages) w)).
Proof.
  split; [| split].
  - intros Hempty.
    destruct (update_cases MIN_GAMES w)
      as [[_ Hrun]|[(e & Hread & _)|(raw & Hread & Hne & _)]]; [done | |];
      destruct Hempty as [Hnone|Hnil]; congruence.
  - intros outcome w' Hrun Hchanged.
    destruct (update_cases MIN_GAMES w)
      as [[_ Hrun']|[(e & _ & Hrun')|(raw & Hread & Hne &
            [(e & _ & Hrun')|[[_ Hrun']|(averages & result & Hagg & Hrun')]])]];
      rewrite Hrun in Hrun'; injection Hrun' as -> Hw'; try done.
    destruct (read_only w PLAYER_AVERAGES_FILE); [done |].
    by exists raw, averages, result.
  - intros raw averages result Hread Hne Hagg Hro.
    unfold update_player_averages. rewrite Hread.
    destruct raw as [|item raw]; [done |].
    by rewrite Hagg, write_json_db_spec, Hro.
Qed.

Lemma empty_store_no_write_witness :
  loaded_store_is_empty cold_start /\
  update_player_averages (H := ascii_tables) 1 cold_start
    = (Return (Message NO_RAW_DATA), cold_start) /\
  update_player_averages (H := ascii_tables) 5 (world_of vortex_store)
    = (Return (Summary 0 5 24 4),
       store_at PLAYER_AVERAGES_FILE (Holds []) (world_of vortex_store)).
Proof.
  assert (Hempty : loaded_store_is_empty cold_start) by (by right).
  split; [exact Hempty |]. split.
  - exact (proj1 (empty_store_no_write (H := ascii_tables) 1 cold_start)
                 Hempty).
  - refine (proj2 (proj2 (empty_store_no_write (H := ascii_tables) 5
                            (world_of vortex_store)))
                  vortex_store [] (Summary 0 5 24 4) eq_refl _ _ eq_refl).
    + discriminate.
    + vm_compute. reflexivity.
Defined.

(** A store whose record lists are all empty is not empty: the run
    returns the second message, and writes nothing either. *)
Example no_records_no_write :
  update_player_averages (H := ascii_tables) 1
    (world_of [(lit "1-a.png", [])])
  = (Return (Message RAW_DATA_EMPTY), world_of [(lit "1-a.png", [])]).
Proof. vm_compute. reflexivity. Qed.

(** A file name without a numeric prefix makes the run raise before
    anything is written. *)
Example bad_prefix_raises :
  update_player_averages (H := ascii_tables) 1
    (world_of [(lit "image.png", [player "Vortex" 10 2])])
  = (Raise ValueError, world_of [(lit "image.png", [player "Vortex" 10 2])]).
Proof. vm_compute. reflexivity. Qed.

(** ** The members of an identity *)

Section Members.

Context {X Y : Type} (payload : MatchRecord -> X) (f : X -> Y).

Lemma append_first_fit_map nick x (grouped : dict (list X)) :
  append_first_fit nick (f x) (map_lists f grouped)
    = option_map (map_lists f) (append_first_fit nick x grouped).
Proof.
  induction grouped as [|[name l] grouped IH]; simpl; [done |].
  destruct (distance nick name <=? MAX_DISTANCE)%nat; simpl.
  - by rewrite map_app.
  - rewrite IH. by destruct (append_first_fit nick x grouped).
Qed.

Lemma dict_set_map nick x (grouped : dict (list X)) :
  dict_set nick [f x] (map_lists f grouped)
    = map_lists f (dict_set nick [x] grouped).
Proof.
  induction grouped as [|[name l] grouped IH]; simpl; [done |].
  destruct (decide (nick = name)); simpl; [done | by rewrite IH].
Qed.

Lemma group_step_map (grouped : dict (list X)) player_stat :
  group_step (fun r => f (payload r)) (map_lists f grouped) player_stat
    = map_lists f (group_step payload grouped player_stat).
Proof.
  unfold group_step. rewrite append_first_fit_map.
  destruct (append_first_fit (nickname player_stat) (payload player_stat)
                             grouped); simpl; [done |].
  apply dict_set_map.
Qed.

Lemma fold_group_step_map stats (grouped : dict (list X)) :
  fold_left (group_step (fun r => f (payload r))) stats (map_lists f grouped)
    = map_lists f (fold_left (group_step payload) stats grouped).
Proof.
  revert grouped. induction stats as [|r stats IH]; intros grouped; [done |].
  simpl. by rewrite group_step_map, IH.
Qed.

End Members.

(** The grouping of the stat tuples and the grouping of the nicknames
    are two views of one grouping of the records: same canonical names
    in the same order, and under each name the tuples and the nicknames
    of the same records. *)
Lemma grouped_data_members (raw_data_dict : RawStore) :
  grouped_data raw_data_dict
    = map_lists stats_of (group id (all_stats raw_data_dict)) /\
  cluster_members raw_data_dict
    = map_lists nickname (group id (all_stats raw_data_dict)).
Proof.
  unfold grouped_data, cluster_members, group. split.
  - apply (fold_group_step_map id stats_of _ []).
  - apply (fold_group_step_map id nickname _ []).
Qed.

(** ** Runs on sample data *)

(** The second spelling joins the first one; a name farther than 3
    from both starts an identity of its own, placed last. *)
Example first_fit_on_vortex :
  grouped_data
    (vortex_store ++ [(lit "7-a.png", [player "Stalker" 5 5])])
  = [ (lit "Vortex", [(1, 10, 2, 0, 0, 0); (1, 14, 2, 0, 0, 0)]);
      (lit "Stalker", [(1, 5, 5, 0, 0, 0)]) ].
Proof. vm_compute. reflexivity. Qed.

(** First fit, not best fit: [aabbb] is at distance 3 from [aaaaa] and
    at distance 1 from [abbbb], and goes to [aaaaa], which comes first. *)
Example first_fit_not_best_fit :
  grouped_data
    [ (lit "1-a.png", [player "aaaaa" 1 0; player "abbbb" 2 0;
                       player "aabbb" 3 0]) ]
  = [ (lit "aaaaa", [(1, 1, 0, 0, 0, 0); (1, 3, 0, 0, 0, 0)]);
      (lit "abbbb", [(1, 2, 0, 0, 0, 0)]) ].
Proof. vm_compute. reflexivity. Qed.

Example parse_well_formed_row :
  parse_line (H := ascii_tables) (lit "  3 Night Owl-7   12 4 9 1500 3210  ")
  = Return [ {| place := 3; nickname := lit "Night Owl-7"; kills := 12;
                deaths := 4; assists := 9; treasury := 1500;
                score := 3210 |} ].
Proof. vm_compute. reflexivity. Qed.

(** Digits are word characters: the name ends where the shortest name
    lets five numbers follow, and what comes after them is ignored. *)
Example parse_shortest_name :
  parse_line (H := ascii_tables) (lit "1 a 2 3 4 5 6 7")
  = Return [ {| place := 1; nickname := lit "a"; kills := 2; deaths := 3;
                assists := 4; treasury := 5; score := 6 |} ].
Proof. vm_compute. reflexivity. Qed.

Example parse_malformed_rows :
  parse_line (H := ascii_tables) (lit "Place Name K D A T S") = Return [] /\
  parse_line (H := ascii_tables) (lit "1 Vortex 10 2 3 4") = Return [] /\
  parse_line (H := ascii_tables) (lit "1 V@rtex 10 2 3 4 5") = Return [] /\
  parse_line (H := ascii_tables) (lit "") = Return [].
Proof. vm_compute. auto. Qed.

Example store_two_rows :
  parse_and_store_data (H := ascii_tables) (lit "7-a.png")
    (lit "1 Vortex 10 2 3 4 5" ++ [NEWLINE] ++ lit "no row here"
     ++ [NEWLINE] ++ lit "2 Stalker 5 5 0 0 90")
    vortex_store
  = Return (2%nat,
            vortex_store
            ++ [(lit "7-a.png",
                 [ {| place := 1; nickname := lit "Vortex"; kills := 10;
                      deaths := 2; assists := 3; treasury := 4; score := 5 |};
                   {| place := 2; nickname := lit "Stalker"; kills := 5;
                      deaths := 5; assists := 0; treasury := 0;
                      score := 90 |} ])]).
Proof. vm_compute. reflexivity. Qed.

Example store_no_row :
  parse_and_store_data (H := ascii_tables) (lit "7-a.png")
    (lit "nothing to see" ++ [NEWLINE] ++ lit "1 2 3")
    vortex_store
  = Return (0%nat, vortex_store).
Proof. vm_compute. reflexivity. Qed.

(** * Further properties of the grouping and of the parser *)

Lemma distance_nil_r s : distance s [] = length s.
Proof. by destruct s. Qed.

Lemma distance_sym s : forall t, distance s t = distance t s.
Proof.
  induction s as [|a s IHs]; intros t.
  - by rewrite distance_nil_r.
  - induction t as [|b t IHt]; [by rewrite distance_nil_r |].
    rewrite !distance_cons_cons, IHs, IHt, (IHs t), (N.eqb_sym a b).
    f_equal. apply Nat.min_comm.
Qed.

Section GroupInvariants.

Context {X : Type} (payload : MatchRecord -> X).

(** The records of a grouping: what its lists hold, as a multiset. *)
Lemma group_step_values (grouped : dict (list X)) player_stat :
  concat (values (group_step payload grouped player_stat))
    ≡ₚ concat (values grouped) ++ [payload player_stat].
Proof.
  destruct (group_step_cases payload grouped player_stat)
    as [(pre & name & l & post & -> & _ & _ & ->)|[_ ->]];
    unfold values; rewrite !map_app, !concat_app; simpl.
  - rewrite <- !app_assoc. apply Permutation_app_head.
    apply Permutation_app_head, Permutation_app_comm.
  - done.
Qed.

Lemma fold_group_step_values stats (grouped : dict (list X)) :
  concat (values (fold_left (group_step payload) stats grouped))
    ≡ₚ concat (values grouped) ++ map payload stats.
Proof.
  revert grouped. induction stats as [|r stats IH]; intros grouped; simpl.
  - by rewrite app_nil_r.
  - rewrite IH, group_step_values, <- app_assoc. done.
Qed.

(** No list of a grouping is empty. *)
Lemma fold_group_step_nonempty stats (grouped : dict (list X)) :
  Forall (fun item => snd item <> []) grouped ->
  Forall (fun item => snd item <> [])
         (fold_left (group_step payload) stats grouped).
Proof.
  revert grouped. induction stats as [|r stats IH]; intros grouped Hg; [done |].
  simpl. apply IH.
  destruct (group_step_cases payload grouped r)
    as [(pre & name & l & post & -> & _ & _ & ->)|[_ ->]].
  - apply Forall_app in Hg as [Hpre Hpost].
    apply Forall_cons in Hpost as [_ Hpost].
    apply Forall_app. split; [done |]. constructor; [| done].
    simpl. by destruct l.
  - apply Forall_app. split; [done |]. by repeat constructor.
Qed.

Lemma group_step_far_apart (grouped : dict (list X)) player_stat :
  far_apart (keys grouped) ->
  far_apart (keys (group_step payload grouped player_stat)).
Proof.
  intros Hfar.
  destruct (group_step_cases payload grouped player_stat)
    as [(pre & name & l & post & -> & _ & _ & ->)|[Hall ->]].
  - by rewrite keys_app in *.
  - rewrite keys_app. simpl. intros i j earlier later Hij Hi Hj.
    destruct (decide (j < length (keys grouped))%nat) as [Hlt|Hge].
    + rewrite lookup_app_l in Hi by lia. rewrite lookup_app_l in Hj by lia.
      by apply (Hfar i j).
    + rewrite lookup_app_r in Hj by lia.
      destruct (j - length (keys grouped))%nat as [|?] eqn:Hj';
        simpl in Hj; [| done]. injection Hj as <-.
      rewrite lookup_app_l in Hi by lia.
      apply Nat.nle_gt, Hall. by eapply list_elem_of_lookup_2.
Qed.

Lemma fold_group_step_far_apart stats (grouped : dict (list X)) :
  far_apart (keys grouped) ->
  far_apart (keys (fold_left (group_step payload) stats grouped)).
Proof.
  revert grouped. induction stats as [|r stats IH]; intros grouped Hfar;
    [done |].
  simpl. by apply IH, group_step_far_apart.
Qed.

End GroupInvariants.

Lemma group_step_led_by_exemplar (members : dict (list str)) player_stat :
  led_by_exemplar members ->
  led_by_exemplar (group_step nickname members player_stat).
Proof.
  unfold led_by_exemplar. intros Hled.
  destruct (group_step_cases nickname members player_stat)
    as [(pre & name & l & post & -> & _ & Hname & ->)|[_ ->]].
  - apply Forall_app in Hled as [Hpre Hpost].
    apply Forall_cons in Hpost as [[Hhd Hl] Hpost]. simpl in Hhd, Hl.
    apply Forall_app. split; [done |]. constructor; [| done]. simpl. split.
    + destruct l; [discriminate | done].
    + apply Forall_app. split; [done |]. constructor; [done | constructor].
  - apply Forall_app. split; [done |].
    constructor; [| constructor]. simpl. split; [done |].
    constructor; [| constructor]. rewrite distance_refl. apply Nat.le_0_l.
Qed.

Lemma cluster_members_led_by_exemplar (raw_data_dict : RawStore) :
  led_by_exemplar (cluster_members raw_data_dict).
Proof.
  unfold cluster_members, group.
  assert (Hgen : forall stats members,
             led_by_exemplar members ->
             led_by_exemplar (fold_left (group_step nickname) stats members)).
  { induction stats as [|r stats IH]; intros members Hled; [done |].
    simpl. by apply IH, group_step_led_by_exemplar. }
  apply Hgen. constructor.
Qed.

Lemma dict_get_map_lists {X Y} (f : X -> Y) name (grouped : dict (list X)) :
  dict_get name (map_lists f grouped) = map f <$> dict_get name grouped.
Proof.
  induction grouped as [|[k l] grouped IH]; simpl; [done |].
  by destruct (decide (name = k)).
Qed.

Lemma keys_map_lists {X Y} (f : X -> Y) (grouped : dict (list X)) :
  keys (map_lists f grouped) = keys grouped.
Proof.
  unfold keys, map_lists. rewrite map_map. by apply map_ext.
Qed.

(** X1.  The canonical names of a grouping are pairwise different, and
    any two of them are farther than 3 edits apart. *)
Theorem canonical_names_far_apart (raw_data_dict : RawStore) :
  NoDup (keys (grouped_data raw_data_dict)) /\
  forall i j a b,
    i <> j ->
    keys (grouped_data raw_data_dict) !! i = Some a ->
    keys (grouped_data raw_data_dict) !! j = Some b ->
    (3 < distance a b)%nat.
Proof.
  split; [apply (group_wf stats_of) |].
  assert (Hfar : far_apart (keys (grouped_data raw_data_dict))).
  { apply fold_group_step_far_apart. intros i j ? ? _ Hi. done. }
  intros i j a b Hij Hi Hj.
  destruct (Nat.lt_total i j) as [Hlt|[Heq|Hgt]]; [| done |].
  - rewrite distance_sym. by apply (Hfar i j).
  - by apply (Hfar j i).
Qed.

(** X2.  The grouping attributes every record to exactly one identity:
    the tuples of all identities together are the tuples of all records
    of the store, each as often as it occurs, and no identity has an
    empty list. *)
Theorem grouping_keeps_every_record (raw_data_dict : RawStore) :
  concat (values (grouped_data raw_data_dict))
    ≡ₚ map stats_of (all_stats raw_data_dict) /\
  Forall (fun item => snd item <> []) (grouped_data raw_data_dict).
Proof.
  split.
  - apply (fold_group_step_values stats_of _ []).
  - apply fold_group_step_nonempty. constructor.
Qed.

(** X3.  The first member of an identity is its canonical name, and
    every member nickname is within 3 edits of the canonical name. *)
Theorem members_within_tolerance (raw_data_dict : RawStore) :
  forall name members,
    dict_get name (cluster_members raw_data_dict) = Some members ->
    (exists others, members = name :: others) /\
    (forall nick, nick ∈ members -> (distance nick name <= 3)%nat).
Proof.
  intros name members Hget.
  pose proof (cluster_members_led_by_exemplar raw_data_dict) as Hled.
  unfold led_by_exemplar in Hled. rewrite Forall_forall in Hled.
  destruct (Hled _ (dict_get_Some_elem _ _ _ Hget)) as [Hhd Hall].
  simpl in Hhd, Hall. split.
  - destruct members as [|m others]; [discriminate |].
    injection Hhd as ->. by exists others.
  - rewrite Forall_forall in Hall. exact Hall.
Qed.

Lemma members_within_tolerance_witness :
  dict_get (lit "Vortex") (cluster_members vortex_store)
    = Some [lit "Vortex"; lit "V0rtex"] /\
  (exists others, [lit "Vortex"; lit "V0rtex"] = lit "Vortex" :: others) /\
  (forall nick, nick ∈ [lit "Vortex"; lit "V0rtex"] ->
     (distance nick (lit "Vortex") <= 3)%nat).
Proof.
  assert (Hget : dict_get (lit "Vortex") (cluster_members vortex_store)
                 = Some [lit "Vortex"; lit "V0rtex"]).
  { vm_compute. reflexivity. }
  split; [exact Hget |].
  exact (members_within_tolerance vortex_store _ _ Hget).
Defined.

(** X4.  An identity one of whose member nicknames occurs in the recent
    matches, and which has at least [MIN_GAMES] games, is in the
    mapping whenever the aggregation yields one, with all the games of
    its members. *)
Theorem recent_member_is_retained `{UnicodeData} (MIN_GAMES : Z)
    (raw_data_dict : RawStore) averages result active name members nick :
  aggregate MIN_GAMES raw_data_dict = Return (Some (averages, result)) ->
  active_nicknames raw_data_dict = Return active ->
  dict_get name (cluster_members raw_data_dict) = Some members ->
  nick ∈ members ->
  nick ∈ active ->
  MIN_GAMES <= Z.of_nat (length members) ->
  exists entry,
    dict_get name averages = Some entry /\
    games_played entry = Z.of_nat (length members).
Proof.
  intros Hagg Hactive Hmembers Hnick Hrecent Hgames.
  assert (Hclose : (distance nick name <= MAX_DISTANCE)%nat).
  { pose proof (cluster_members_led_by_exemplar raw_data_dict) as Hled.
    unfold led_by_exemplar in Hled. rewrite Forall_forall in Hled.
    destruct (Hled _ (dict_get_Some_elem _ _ _ Hmembers)) as [_ Hall].
    rewrite Forall_forall in Hall. by apply Hall. }
  destruct (grouped_data_members raw_data_dict) as [Hg Hc].
  rewrite Hc, dict_get_map_lists in Hmembers.
  destruct (dict_get name (group id (all_stats raw_data_dict)))
    as [records|] eqn:Hrecords; [| discriminate].
  injection Hmembers as <-.
  assert (Hstats : dict_get name (grouped_data raw_data_dict)
                   = Some (map stats_of records)).
  { by rewrite Hg, dict_get_map_lists, Hrecords. }
  rewrite length_map in Hgames |- *.
  assert (Hact : is_active active name = true).
  { apply is_active_spec. exists nick. split; [done |].
    by rewrite distance_sym. }
  destruct (aggregate_Return _ _ _ _ Hagg) as (active' & n & Hactive' & Hnew).
  assert (active' = active) as -> by congruence.
  pose proof (new_averages_lookup MIN_GAMES active _ _ _ name
                (group_wf stats_of _) Hnew) as Hlook.
  fold (grouped_data raw_data_dict) in Hlook.
  rewrite Hstats, Hact, length_map in Hlook. simpl in Hlook.
  destruct (Z.ltb_spec (Z.of_nat (length records)) MIN_GAMES);
    simpl in Hlook; [lia |].
  destruct Hlook as (entry & Hav & Hget). exists entry. split; [done |].
  unfold averages_of in Hav.
  repeat (apply bind_Return in Hav as (? & _ & Hav)).
  injection Hav as <-. simpl. by rewrite length_map.
Qed.

Lemma recent_member_is_retained_witness :
  exists averages result entry,
    aggregate (H := ascii_tables) 2 vortex_store
      = Return (Some (averages, result)) /\
    dict_get (lit "Vortex") averages = Some entry /\
    games_played entry = 2.
Proof.
  destruct (aggregate (H := ascii_tables) 2 vortex_store)
    as [[[averages result]|]|e] eqn:Hagg;
    [| vm_compute in Hagg; discriminate | vm_compute in Hagg; discriminate].
  assert (Hactive : active_nicknames (H := ascii_tables) vortex_store
                    = Return {[lit "Vortex"; lit "V0rtex"]}).
  { vm_compute. reflexivity. }
  assert (Hmembers : dict_get (lit "Vortex") (cluster_members vortex_store)
                     = Some [lit "Vortex"; lit "V0rtex"]).
  { vm_compute. reflexivity. }
  assert (Hnick : lit "V0rtex" ∈ [lit "Vortex"; lit "V0rtex"]).
  { right. left. }
  assert (Hrecent : lit "V0rtex"
                    ∈ ({[lit "Vortex"; lit "V0rtex"]} : gset str)).
  { apply elem_of_union_r, elem_of_singleton. reflexivity. }
  destruct (recent_member_is_retained (H := ascii_tables) 2 vortex_store
              averages result _ _ _ _ Hagg Hactive Hmembers Hnick Hrecent)
    as (entry & Hentry & Hgames).
  { simpl. lia. }
  exists averages, result, entry.
  split; [reflexivity |]. split; [exact Hentry | exact Hgames].
Defined.

Section CountFacts.

Variable MIN_GAMES : Z.
Variable active : gset str.

Lemma fold_averages_keys grouped : forall acc n averages n',
  dict_wf grouped ->
  (forall k, k ∈ keys grouped -> k ∉ keys acc) ->
  fold_leftM (averages_step MIN_GAMES active) grouped (acc, n)
    = Return (averages, n') ->
  exists kept,
    sublist kept (keys grouped) /\
    keys averages = keys acc ++ kept /\
    n' = (n + length kept)%nat.
Proof.
  unfold dict_wf.
  induction grouped as [|[k l] grouped IH]; intros acc n averages n' Hwf Hnew Hfold.
  - simpl in Hfold. injection Hfold as <- <-. exists [].
    split; [constructor |]. by rewrite app_nil_r, Nat.add_0_r.
  - simpl in Hwf. apply NoDup_cons in Hwf as [Hk Hwf].
    cbn [fold_leftM] in Hfold.
    apply bind_Return in Hfold as ([acc' m] & Hstep & Hfold).
    assert (Hcases : (acc' = acc /\ m = n) \/
                     (exists entry, acc' = acc ++ [(k, entry)] /\ m = S n)).
    { unfold averages_step in Hstep.
      destruct (negb (is_active active k)); simpl in Hstep.
      - left. by injection Hstep as <- <-.
      - destruct (Z.of_nat (length l) <? MIN_GAMES); simpl in Hstep.
        + left. by injection Hstep as <- <-.
        + apply bind_Return in Hstep as (entry & _ & Hstep).
          injection Hstep as <- <-. right. exists entry. split; [| done].
          simpl. apply dict_set_new, Hnew. left. }
    destruct Hcases as [[-> ->]|(entry & -> & ->)].
    + destruct (IH acc n averages n' Hwf) as (kept & Hsub & Hkeys & Hn);
        [| done |].
      { intros k' Hk'. apply Hnew. by right. }
      exists kept. split; [by apply sublist_cons | done].
    + destruct (IH (acc ++ [(k, entry)]) (S n) averages n' Hwf)
        as (kept & Hsub & Hkeys & Hn); [| done |].
      { intros k' Hk'. unfold keys. rewrite map_app. fold (keys acc).
        rewrite elem_of_app. simpl. intros [Hin|Hin].
        - by apply (Hnew k'); [right |].
        - apply list_elem_of_singleton in Hin as ->. done. }
      exists (k :: kept). split; [by apply sublist_skip |].
      rewrite Hkeys. unfold keys. rewrite map_app, <- app_assoc. simpl.
      split; [done | lia].
Qed.

End CountFacts.

(** X5.  The summary of a run tells the truth: the number of players it
    reports is the number of entries of the mapping, the totals are the
    sums of the kills and of the deaths of all records of the store,
    and the names of the mapping are canonical names, in the order of
    their first occurrence in the store. *)
Theorem summary_counts_entries `{UnicodeData} (MIN_GAMES : Z)
    (raw_data_dict : RawStore) averages result :
  aggregate MIN_GAMES raw_data_dict = Return (Some (averages, result)) ->
  result = Summary (length averages) MIN_GAMES
                   (py_sum (map kills (all_stats raw_data_dict)))
                   (py_sum (map deaths (all_stats raw_data_dict))) /\
  sublist (keys averages) (keys (grouped_data raw_data_dict)) /\
  NoDup (keys averages).
Proof.
  unfold aggregate. intros Hagg.
  apply bind_Return in Hagg as (active & Hactive & Hagg).
  destruct (all_stats raw_data_dict) as [|r stats] eqn:Hstats;
    [discriminate |].
  apply bind_Return in Hagg as ([averages' n] & Hnew & Hagg).
  injection Hagg as <- <-.
  destruct (fold_averages_keys MIN_GAMES active
              (grouped_data raw_data_dict) [] 0%nat averages' n
              (group_wf stats_of (all_stats raw_data_dict)))
    as (kept & Hsub & Hkeys & Hn).
  { intros k _ Hin. by apply elem_of_nil in Hin. }
  { exact Hnew. }
  simpl in Hkeys, Hn. subst n.
  assert (Hlen : length averages' = length kept).
  { rewrite <- Hkeys. unfold keys. by rewrite length_map. }
  rewrite Hlen, Hkeys. split; [done |]. split; [done |].
  apply (sublist_NoDup kept (keys (grouped_data raw_data_dict)));
    [apply (group_wf stats_of) | exact Hsub].
Qed.

Lemma summary_counts_entries_witness :
  exists averages result,
    aggregate (H := ascii_tables) 1 eleven_matches
      = Return (Some (averages, result)) /\
    result = Summary (length averages) 1
                     (py_sum (map kills (all_stats eleven_matches)))
                     (py_sum (map deaths (all_stats eleven_matches))) /\
    sublist (keys averages) (keys (grouped_data eleven_matches)) /\
    NoDup (keys averages).
Proof.
  destruct (aggregate (H := ascii_tables) 1 eleven_matches)
    as [[[averages result]|]|e] eqn:Hagg.
  - exists averages, result. split; [reflexivity |].
    exact (summary_counts_entries (H := ascii_tables) 1 eleven_matches
             averages result Hagg).
  - vm_compute in Hagg. discriminate.
  - vm_compute in Hagg. discriminate.
Defined.

Section StripFacts.

Variable space : char -> bool.

Lemma lstrip_with_length s : (length (lstrip_with space s) <= length s)%nat.
Proof.
  induction s as [|c s IH]; simpl; [done |].
  destruct (space c); simpl; lia.
Qed.

Lemma lstrip_with_idem s :
  lstrip_with space (lstrip_with space s) = lstrip_with space s.
Proof.
  induction s as [|c s IH]; simpl; [done |].
  destruct (space c) eqn:Hc; [done |]. simpl. by rewrite Hc.
Qed.

Lemma lstrip_with_suffix s :
  exists spaces, s = spaces ++ lstrip_with space s.
Proof.
  induction s as [|c s [spaces IH]]; simpl; [by exists [] |].
  destruct (space c).
  - exists (c :: spaces). simpl. by rewrite <- IH.
  - by exists [].
Qed.

Lemma lstrip_with_prefix_fixed s t :
  lstrip_with space (s ++ t) = s ++ t -> lstrip_with space s = s.
Proof.
  destruct s as [|c s]; simpl; [done |].
  destruct (space c); [| done].
  intros Heq. pose proof (lstrip_with_length (s ++ t)) as Hlen.
  rewrite Heq in Hlen. simpl in Hlen. lia.
Qed.

(** Stripping twice is stripping once. *)
Lemma strip_with_idem s :
  strip_with space (strip_with space s) = strip_with space s.
Proof.
  unfold strip_with.
  set (u := lstrip_with space s).
  set (v := lstrip_with space (rev u)).
  destruct (lstrip_with_suffix (rev u)) as [spaces Hspaces]. fold v in Hspaces.
  assert (Hu : u = rev v ++ rev spaces).
  { rewrite <- (rev_involutive u), Hspaces. apply rev_app_distr. }
  assert (Hfixed : lstrip_with space (rev v) = rev v).
  { apply (lstrip_with_prefix_fixed _ (rev spaces)). rewrite <- Hu.
    apply lstrip_with_idem. }
  rewrite Hfixed, rev_involutive. unfold v. by rewrite lstrip_with_idem.
Qed.

End StripFacts.

Lemma parse_line_well_formed `{UnicodeData} (line : str)
    (records : list MatchRecord) :
  parse_line line = Return records ->
  Forall (fun r =>
            0 <= place r /\ 0 <= kills r /\ 0 <= deaths r /\
            0 <= assists r /\ 0 <= treasury r /\ 0 <= score r /\
            (forall c rest, nickname r = c :: rest -> is_space c = false) /\
            (forall c rest, nickname r = rest ++ [c] -> is_space c = false) /\
            Forall (fun c => name_char c = true) (nickname r))
         records.
Proof.
  intros Hline.
  destruct (parse_line_cases line)
    as [(p & n & k & d & a & t & sc & Hshape & _ & Hp)|(_ & _ & Hp)];
    rewrite Hp in Hline.
  - destruct (digit_groups_fit _); [| discriminate].
    injection Hline as <-. constructor; [| constructor].
    unfold record_of_groups. simpl.
    repeat (split; [apply N2Z.is_nonneg |]).
    destruct (strip_trimmed n)
      as (before & after & Hn & _ & _ & Hfirst & Hlast).
    split; [done |]. split; [done |].
    destruct (row_shape _ _ Hshape)
      as (p' & n' & k' & d' & a' & t' & sc' & [= <- <- <- <- <- <- <-]
          & _ & _ & _ & _ & _ & _ & Hname & _).
    rewrite Hn in Hname.
    by apply Forall_app in Hname as [_ [Hname _]%Forall_app].
  - injection Hline as <-. constructor.
Qed.

(** X6.  Every record that the parser accepts is well formed: its six
    numbers are not negative, its nickname neither starts nor ends
    with a white space character and is made of the characters that
    the name group allows.  The only error of the parser is
    [ValueError]. *)
Theorem parsed_records_well_formed `{UnicodeData} (data : str) :
  match stats_for_this_image data with
  | Return records =>
      Forall (fun r =>
                0 <= place r /\ 0 <= kills r /\ 0 <= deaths r /\
                0 <= assists r /\ 0 <= treasury r /\ 0 <= score r /\
                (forall c rest,
                    nickname r = c :: rest -> is_space c = false) /\
                (forall c rest,
                    nickname r = rest ++ [c] -> is_space c = false) /\
                Forall (fun c => name_char c = true) (nickname r))
             records
  | Raise e => e = ValueError
  end.
Proof.
  unfold stats_for_this_image.
  pose proof (parse_lines (split NEWLINE (strip data))) as Hlines.
  destruct (existsb overlong_row (split NEWLINE (strip data))).
  { by rewrite Hlines. }
  destruct Hlines as (per_line & -> & Hall & _). simpl.
  apply Forall_concat.
  induction Hall as [|line records lines per_line Hline _ IH];
    constructor; [| done].
  by apply (parse_line_well_formed line).
Qed.

(** A name group of white space alone is kept as the empty
    nickname. *)
Example parse_blank_name :
  exists record,
    parse_line (H := ascii_tables) (lit "1   2 3 4 5 6") = Return [record] /\
    nickname record = [].
Proof. eexists. split; [vm_compute; reflexivity | reflexivity]. Qed.

(** * Further properties of the persisted files *)

Lemma file_at_store_at_eq (p : db_path) f (w : World) :
  file_at p (store_at p f w) = f.
Proof. by destruct p. Qed.

Lemma file_at_store_at_ne (p q : db_path) f (w : World) :
  q <> p -> file_at q (store_at p f w) = file_at q w.
Proof. by destruct p, q. Qed.

Lemma read_only_store_at (p : db_path) f (w : World) :
  read_only (store_at p f w) = read_only w.
Proof. by destruct p. Qed.

Lemma init_json_db_spec (db_path : db_path) default_structure (w : World) :
  init_json_db db_path default_structure w
    = Return (if path_exists db_path w || read_only w db_path then w
              else store_at db_path (Holds default_structure) w).
Proof.
  unfold init_json_db, json_dump.
  destruct (path_exists db_path w); simpl; [done |].
  by destruct (read_only w db_path).
Qed.

(** X8.  Creating a file never raises and never touches a file that
    exists, whatever its state; a file that is missing and can be
    written is created with the default structure; the other file is
    untouched; and creating twice is creating once. *)
Theorem init_json_db_keeps_existing (db_path : db_path)
    (default_structure : content db_path) (w : World) :
  exists w',
    init_json_db db_path default_structure w = Return w' /\
    (path_exists db_path w = true -> w' = w) /\
    (path_exists db_path w = false -> read_only w db_path = false ->
       file_at db_path w' = Holds default_structure) /\
    (forall other, other <> db_path -> file_at other w' = file_at other w) /\
    init_json_db db_path default_structure w' = Return w'.
Proof.
  rewrite init_json_db_spec.
  destruct (path_exists db_path w) eqn:Hex; simpl.
  - exists w. rewrite init_json_db_spec, Hex. by repeat split.
  - destruct (read_only w db_path) eqn:Hro.
    + exists w. rewrite init_json_db_spec, Hex, Hro. simpl.
      by repeat split.
    + exists (store_at db_path (Holds default_structure) w).
      split; [done |]. split; [done |].
      split; [intros _ _; apply file_at_store_at_eq |].
      split; [intros other Hother; by apply file_at_store_at_ne |].
      rewrite init_json_db_spec. unfold path_exists.
      by rewrite file_at_store_at_eq.
Qed.

Lemma init_json_db_exists (p : db_path) default_structure (w : World) :
  exists w',
    init_json_db p default_structure w = Return w' /\
    read_only w' = read_only w /\
    (read_only w p = false -> path_exists p w' = true) /\
    (forall q, path_exists q w = true -> path_exists q w' = true).
Proof.
  rewrite init_json_db_spec.
  destruct (path_exists p w) eqn:Hex; simpl; [by exists w |].
  destruct (read_only w p) eqn:Hro; [by exists w |].
  exists (store_at p (Holds default_structure) w).
  split; [done |]. split; [apply read_only_store_at |].
  unfold path_exists in *. split.
  - intros _. by rewrite file_at_store_at_eq.
  - intros q Hq. destruct p, q; simpl in *; congruence.
Qed.

Lemma read_json_db_init_empty (p q : db_path) (w w' : World) :
  init_json_db p (empty_dict p) w = Return w' ->
  read_json_db q w' = read_json_db q w.
Proof.
  rewrite init_json_db_spec. intros [= <-].
  destruct (path_exists p w) eqn:Hex; simpl; [done |].
  destruct (read_only w p); [done |].
  unfold path_exists in Hex. unfold read_json_db.
  destruct p, q; simpl in *;
    by destruct (raw_stats w), (player_averages w).
Qed.

(** X9.  The start-up creation of the two files never raises and is
    invisible to the reads: each file reads after it as it read
    before, a missing file reading as the empty dictionary in both
    cases.  When the files can be written, both exist afterwards. *)
Theorem on_ready_invisible_to_reads (w : World) :
  exists w',
    on_ready w = Return w' /\
    (forall db_path, read_json_db db_path w' = read_json_db db_path w) /\
    ((forall db_path, read_only w db_path = false) ->
     forall db_path, path_exists db_path w' = true).
Proof.
  unfold on_ready.
  destruct (init_json_db_exists RAW_STATS_FILE [] w)
    as (w1 & Hinit1 & Hro1 & Hmade1 & Hkeep1).
  destruct (init_json_db_exists PLAYER_AVERAGES_FILE [] w1)
    as (w2 & Hinit2 & Hro2 & Hmade2 & Hkeep2).
  exists w2. rewrite Hinit1. simpl. split; [done |]. split.
  - intros q.
    rewrite (read_json_db_init_empty PLAYER_AVERAGES_FILE q w1 w2 Hinit2).
    apply (read_json_db_init_empty RAW_STATS_FILE q w w1 Hinit1).
  - intros Hwritable [|].
    + by apply Hkeep2, Hmade1.
    + apply Hmade2. rewrite Hro1. apply Hwritable.
Qed.

(** * Further properties of the file names *)

Section FileNames.

Context `{UnicodeData}.

Lemma decimal_value_digit_char (d : N) :
  (d < 10)%N -> decimal_value (digit_char d) = Some d.
Proof.
  intros Hd. unfold digit_char. rewrite decimal_ascii by lia.
  destruct (N.leb_spec 48 (48 + d)), (N.leb_spec (48 + d) 57);
    simpl; try lia.
  f_equal. lia.
Qed.

Lemma decimal_number_snoc (s : str) (c : char) :
  decimal_number (s ++ [c])
    = (10 * decimal_number s + default 0 (decimal_value c))%N.
Proof. unfold decimal_number. by rewrite fold_left_app. Qed.

Lemma decimal_digits_spec (fuel : nat) : forall n,
  (n < 2 ^ N.of_nat fuel)%N ->
  decimal_number (decimal_digits fuel n) = n /\
  Forall (fun c => is_decimal c = true /\ c <> HYPHEN)
         (decimal_digits fuel n) /\
  decimal_digits fuel n <> [].
Proof.
  assert (Hone : forall d, (d < 10)%N ->
             decimal_number [digit_char d] = d /\
             Forall (fun c => is_decimal c = true /\ c <> HYPHEN)
                    [digit_char d] /\
             [digit_char d] <> []).
  { intros d Hd. unfold decimal_number, is_decimal. simpl.
    rewrite (decimal_value_digit_char d Hd). simpl.
    split; [done |]. split; [| done].
    constructor; [| constructor].
    split; [by rewrite (decimal_value_digit_char d Hd) |].
    unfold digit_char, HYPHEN. lia. }
  induction fuel as [|fuel IH]; intros n Hn.
  - simpl in *. apply Hone. lia.
  - simpl. destruct (N.ltb_spec n 10) as [Hsmall|Hbig]; [by apply Hone |].
    assert (Hdiv : (n / 10 < 2 ^ N.of_nat fuel)%N).
    { apply N.Div0.div_lt_upper_bound.
      rewrite Nat2N.inj_succ, N.pow_succ_r' in Hn. lia. }
    destruct (IH _ Hdiv) as (Hnum & Hall & Hne).
    assert (Hmod : (n mod 10 < 10)%N) by (apply N.mod_lt; lia).
    destruct (Hone _ Hmod) as (Hnum' & Hall' & _).
    split; [| split].
    + rewrite decimal_number_snoc, Hnum, decimal_value_digit_char by done.
      simpl. rewrite (N.div_mod n 10) at 3 by lia. done.
    + by apply Forall_app.
    + by destruct (decimal_digits fuel (n / 10)).
Qed.

Lemma str_of_int_spec (n : Z) :
  0 <= n ->
  decimal_number (str_of_int n) = Z.to_N n /\
  Forall (fun c => is_decimal c = true /\ c <> HYPHEN) (str_of_int n) /\
  str_of_int n <> [].
Proof.
  intros Hn.
  assert (Hsize : (Z.to_N n < 2 ^ N.of_nat (N.to_nat (N.size (Z.to_N n))))%N).
  { rewrite N2Nat.id. apply N.size_gt. }
  destruct n as [|p|p]; [| | lia]; by apply decimal_digits_spec.
Qed.

Lemma split_first (sep : char) (first rest : str) :
  Forall (fun c => c <> sep) first ->
  hd [] (split sep (first ++ sep :: rest)) = first.
Proof.
  induction 1 as [|c first Hc _ IH]; simpl.
  - by rewrite N.eqb_refl.
  - apply N.eqb_neq in Hc. rewrite Hc.
    destruct (split sep (first ++ sep :: rest)); simpl in *; by rewrite <- IH.
Qed.

Lemma decimal_digits_length (fuel : nat) : forall n k,
  (1 <= k)%nat ->
  (n < 10 ^ N.of_nat k)%N ->
  (length (decimal_digits fuel n) <= k)%nat.
Proof.
  induction fuel as [|fuel IH]; intros n k Hk Hn; simpl; [lia |].
  destruct (N.ltb_spec n 10) as [Hsmall|Hbig]; simpl; [lia |].
  rewrite length_app. simpl.
  destruct k as [|[|k]]; [lia | |].
  { change (10 ^ N.of_nat 1)%N with 10%N in Hn. lia. }
  assert (Hdiv : (n / 10 < 10 ^ N.of_nat (S k))%N).
  { apply N.Div0.div_lt_upper_bound.
    rewrite (Nat2N.inj_succ (S k)), N.pow_succ_r' in Hn. exact Hn. }
  specialize (IH _ (S k) ltac:(lia) Hdiv). lia.
Qed.

(** A number below [10 ^ 4300] is written with at most 4300 digits. *)
Lemma str_of_int_length (n : Z) :
  0 <= n < 10 ^ Z.of_nat MAX_STR_DIGITS ->
  (length (str_of_int n) <= MAX_STR_DIGITS)%nat.
Proof.
  intros [Hpos Hlim].
  assert (Hn : (Z.to_N n < 10 ^ N.of_nat MAX_STR_DIGITS)%N).
  { apply N2Z.inj_lt. rewrite Z2N.id, N2Z.inj_pow, nat_N_Z by done.
    exact Hlim. }
  assert (Hone : (1 <= MAX_STR_DIGITS)%nat).
  { unfold MAX_STR_DIGITS. apply Nat.lt_0_succ. }
  clear Hlim. revert Hn Hone. generalize MAX_STR_DIGITS as k.
  intros k Hn Hone. unfold str_of_int.
  destruct n as [|p|p]; [| | done]; by apply decimal_digits_length.
Qed.

Lemma int_str_of_int (n : Z) :
  0 <= n < 10 ^ Z.of_nat MAX_STR_DIGITS -> int (str_of_int n) = Return n.
Proof.
  intros Hn. destruct (str_of_int_spec n (proj1 Hn)) as (Hnum & Hall & Hne).
  rewrite int_decimal.
  - by rewrite Hnum, Z2N.id by apply Hn.
  - eapply Forall_impl; [exact Hall |]. by intros c [? _].
  - done.
  - by apply str_of_int_length.
Qed.

Lemma hd_split_image_file_name (message_id : Z) (filename : str) :
  0 <= message_id ->
  hd [] (split HYPHEN (image_file_name message_id filename))
  = str_of_int message_id.
Proof.
  intros Hid. unfold image_file_name. simpl. apply split_first.
  destruct (str_of_int_spec message_id Hid) as (_ & Hall & _).
  eapply Forall_impl; [exact Hall |]. by intros c [_ ?].
Qed.

Lemma sort_key_image_file_name (message_id : Z) (filename : str) :
  0 <= message_id < 10 ^ Z.of_nat MAX_STR_DIGITS ->
  sort_key (image_file_name message_id filename) = Return message_id.
Proof.
  intros Hid. unfold sort_key.
  rewrite hd_split_image_file_name by apply Hid. by apply int_str_of_int.
Qed.

End FileNames.

(** X10.  The name under which an attachment is saved carries the id
    of its message as its numeric prefix: for a message id that is not
    negative and is written with at most 4300 digits (beyond that
    [int] refuses the prefix; the ids of messages are below [2 ^ 64]),
    the sort key of the file name is that id, whatever the name of the
    attachment. *)
Theorem recency_key_round_trip `{UnicodeData} (message_id : Z)
    (filename : str) :
  0 <= message_id < 10 ^ Z.of_nat MAX_STR_DIGITS ->
  sort_key (image_file_name message_id filename) = Return message_id.
Proof.
  intros Hid.
  destruct (str_of_int_spec message_id (proj1 Hid)) as (Hnum & Hall & Hne).
  unfold sort_key. rewrite hd_split_image_file_name by apply Hid.
  rewrite int_decimal.
  - by rewrite Hnum, Z2N.id by apply Hid.
  - eapply Forall_impl; [exact Hall |]. by intros c [? _].
  - done.
  - by apply str_of_int_length.
Qed.

Lemma recency_key_round_trip_witness :
  0 <= 1387832036580134933 < 10 ^ Z.of_nat MAX_STR_DIGITS /\
  sort_key (H := ascii_tables)
    (image_file_name 1387832036580134933 (lit "image-1.png"))
  = Return 1387832036580134933.
Proof.
  assert (Hid : 0 <= 1387832036580134933 < 10 ^ Z.of_nat MAX_STR_DIGITS).
  { split; [discriminate |]. apply Z.ltb_lt. vm_compute. reflexivity. }
  split; [exact Hid |].
  exact (recency_key_round_trip (H := ascii_tables) _ _ Hid).
Defined.

(** X11.  Saved attachments do not collide: two file names built from
    message ids that are not negative are equal only if the ids are
    equal and the attachment names are equal. *)
Theorem image_file_names_do_not_collide `{UnicodeData}
    (id1 id2 : Z) (filename1 filename2 : str) :
  0 <= id1 -> 0 <= id2 ->
  image_file_name id1 filename1 = image_file_name id2 filename2 ->
  id1 = id2 /\ filename1 = filename2.
Proof.
  intros H1 H2 Heq.
  assert (Hid : id1 = id2).
  { pose proof (hd_split_image_file_name id1 filename1 H1) as Hk1.
    pose proof (hd_split_image_file_name id2 filename2 H2) as Hk2.
    rewrite Heq, Hk2 in Hk1.
    destruct (str_of_int_spec id1 H1) as (Hnum1 & _).
    destruct (str_of_int_spec id2 H2) as (Hnum2 & _).
    rewrite <- Hk1, Hnum2 in Hnum1. by apply Z2N.inj. }
  split; [done |]. subst id2. unfold image_file_name in Heq.
  apply app_inv_head in Heq. by injection Heq.
Qed.

Lemma image_file_names_do_not_collide_witness :
  0 <= 12 /\ 0 <= 12 /\
  image_file_name 12 (lit "a.png") = image_file_name 12 (lit "a.png") /\
  12 = 12 /\ lit "a.png" = lit "a.png".
Proof.
  split; [lia |]. split; [lia |]. split; [reflexivity |].
  apply (image_file_names_do_not_collide (H := ascii_tables)
           12 12 (lit "a.png") (lit "a.png")); [lia | lia | reflexivity].
Defined.

(** * Further properties of the configuration *)

Section ConfigurationFacts.

Context `{UnicodeData}.

Lemma int_only_ValueError (s : str) (e : exn) :
  int s = Raise e -> e = ValueError.
Proof.
  unfold int.
  destruct (match strip_with int_space s with
            | c :: rest =>
                if (c =? HYPHEN)%N then (true, rest)
                else if (c =? PLUS)%N then (false, rest)
                else (false, strip_with int_space s)
            | [] => (false, strip_with int_space s)
            end) as [negative body].
  destruct (digits 0 false body); [| congruence].
  destruct (_ <? _)%nat; [congruence | discriminate].
Qed.

Lemma mapM_Raise {A B} (f : A -> exc B) (l : list A) (e : exn) :
  mapM f l = Raise e -> exists a, a ∈ l /\ f a = Raise e.
Proof.
  induction l as [|a l IH]; simpl; [discriminate |].
  destruct (f a) as [b|e'] eqn:Hfa; simpl.
  - destruct (mapM f l) as [bs|e'']; simpl; [discriminate |].
    intros [= ->]. destruct IH as (a' & Hin & Ha'); [done |].
    exists a'. split; [by right | done].
  - intros [= ->]. exists a. split; [left | done].
Qed.

Lemma int_list_only_ValueError (s : str) (e : exn) :
  int_list s = Raise e -> e = ValueError.
Proof.
  unfold int_list. intros Hm.
  apply mapM_Raise in Hm as (x & _ & Hx). by apply int_only_ValueError in Hx.
Qed.

Lemma split_nonempty (sep : char) (s : str) : split sep s <> [].
Proof.
  induction s as [|c s IH]; simpl; [done |].
  destruct (c =? sep)%N; [done |]. by destruct (split sep s).
Qed.

Lemma int_list_Return (s : str) (ids : list Z) :
  int_list s = Return ids ->
  Forall2 (fun x id => int (strip x) = Return id) (split COMMA s) ids /\
  ids <> [].
Proof.
  unfold int_list. intros Hm. apply mapM_Return_inv in Hm. split; [done |].
  pose proof (split_nonempty COMMA s) as Hne.
  destruct Hm; [done | discriminate].
Qed.

End ConfigurationFacts.

(** X12.  Validation of the configuration never lets an exception
    through: it ends the process or returns a configuration.  A
    configuration is returned only when all six variables are set and
    not empty; then every comma-separated piece of the two id lists is
    an integer literal, the lists hold these integers in order and are
    not empty, and the log channel and the minimum of games are the
    integers that their variables write. *)
Theorem validated_configuration `{UnicodeData} (env : Environ.t) :
  exists outcome,
    load_and_validate_env env = Return outcome /\
    forall config, outcome = Some config ->
      exists api_key bot_token admin_ids log_channel target_channels
             min_games,
        env = {| Environ.GOOGLE_AI_API_KEY := Some api_key;
                 Environ.DISCORD_BOT_TOKEN := Some bot_token;
                 Environ.ADMIN_USER_IDS := Some admin_ids;
                 Environ.LOG_CHANNEL_ID := Some log_channel;
                 Environ.TARGET_CHANNEL_IDS := Some target_channels;
                 Environ.MIN_GAMES_FOR_STATS := Some min_games |} /\
        Forall (fun value => value <> [])
               [api_key; bot_token; admin_ids; log_channel;
                target_channels; min_games] /\
        Config.API_KEY config = api_key /\
        Config.BOT_TOKEN config = bot_token /\
        Forall2 (fun x id => int (strip x) = Return id)
                (split COMMA admin_ids) (Config.ADMIN_IDS config) /\
        Config.ADMIN_IDS config <> [] /\
        int log_channel = Return (Config.LOG_CHANNEL_ID config) /\
        Forall2 (fun x id => int (strip x) = Return id)
                (split COMMA target_channels)
                (Config.TARGET_CHANNEL_IDS config) /\
        Config.TARGET_CHANNEL_IDS config <> [] /\
        int min_games = Return (Config.MIN_GAMES config).
Proof.
  unfold load_and_validate_env.
  destruct env as [[api_key|] [bot_token|] [admin_ids|] [log_channel|]
                   [target_channels|] [min_games|]];
    cbn -[truthy int int_list];
    try (exists None; split; [reflexivity | discriminate]).
  assert (Htruthy : forall value, truthy (Some value) = true -> value <> []).
  { by intros [|? ?]. }
  destruct (truthy (Some api_key)) eqn:H1; cbn -[truthy int int_list];
    [| exists None; split; [reflexivity | discriminate]].
  destruct (truthy (Some bot_token)) eqn:H2; cbn -[truthy int int_list];
    [| exists None; split; [reflexivity | discriminate]].
  destruct (truthy (Some admin_ids)) eqn:H3; cbn -[truthy int int_list];
    [| exists None; split; [reflexivity | discriminate]].
  destruct (truthy (Some log_channel)) eqn:H4; cbn -[truthy int int_list];
    [| exists None; split; [reflexivity | discriminate]].
  destruct (truthy (Some target_channels)) eqn:H5; cbn -[truthy int int_list];
    [| exists None; split; [reflexivity | discriminate]].
  destruct (truthy (Some min_games)) eqn:H6; cbn -[truthy int int_list];
    [| exists None; split; [reflexivity | discriminate]].
  destruct (int_list admin_ids) as [admins|e] eqn:Ha; simpl.
  2: { apply int_list_only_ValueError in Ha as ->.
       exists None. split; [reflexivity | discriminate]. }
  destruct (int log_channel) as [log|e] eqn:Hl; simpl.
  2: { apply int_only_ValueError in Hl as ->.
       exists None. split; [reflexivity | discriminate]. }
  destruct (int_list target_channels) as [targets|e] eqn:Ht; simpl.
  2: { apply int_list_only_ValueError in Ht as ->.
       exists None. split; [reflexivity | discriminate]. }
  destruct (int min_games) as [minimum|e] eqn:Hm; simpl.
  2: { apply int_only_ValueError in Hm as ->.
       exists None. split; [reflexivity | discriminate]. }
  eexists. split; [reflexivity |]. intros config [= <-].
  apply int_list_Return in Ha as [Ha Hane].
  apply int_list_Return in Ht as [Ht Htne].
  exists api_key, bot_token, admin_ids, log_channel, target_channels,
    min_games.
  split; [reflexivity |]. simpl.
  split; [repeat (constructor; [by apply Htruthy |]); constructor |].
  by repeat split.
Qed.

(** * Further properties of the update command *)

Section UpdateFacts2.

Context `{UnicodeData}.
Variable extract : str -> str.

Lemma stats_for_this_image_rows_of (data : str) :
  stats_for_this_image data
    = if existsb overlong_row (split NEWLINE (strip data))
      then Raise ValueError
      else Return (rows_of data).
Proof.
  unfold rows_of, stats_for_this_image.
  pose proof (parse_lines (split NEWLINE (strip data))) as Hlines.
  destruct (existsb overlong_row (split NEWLINE (strip data))).
  - by rewrite Hlines.
  - destruct Hlines as (per_line & Hm & _). by rewrite Hm.
Qed.

Lemma process_image_spec raw_data processed_count image_name :
  process_image extract (raw_data, processed_count) image_name
    = if crashes extract image_name then Raise ValueError
      else Return (store_image extract raw_data image_name,
                   if startswith (extract image_name) ERROR_MARK
                   then processed_count else S processed_count).
Proof.
  unfold process_image, store_image, yields_rows, parse_and_store_data,
    crashes.
  destruct (startswith (extract image_name) ERROR_MARK); simpl; [done |].
  rewrite stats_for_this_image_rows_of.
  destruct (existsb overlong_row _); simpl; [done |].
  by destruct (rows_of (extract image_name)).
Qed.

Lemma fold_process_image images : forall raw_data processed_count,
  fold_leftM (process_image extract) images (raw_data, processed_count)
    = if existsb (crashes extract) images then Raise ValueError
      else Return (fold_left (store_image extract) images raw_data,
                   (processed_count
                    + length (List.filter
                                (fun f =>
                                   negb (startswith (extract f) ERROR_MARK))
                                images))%nat).
Proof.
  induction images as [|f images IH]; intros raw_data processed_count.
  - simpl. by rewrite Nat.add_0_r.
  - cbn [fold_leftM existsb]. rewrite process_image_spec.
    destruct (crashes extract f); simpl; [done |]. rewrite IH.
    destruct (existsb (crashes extract) images); [done |].
    destruct (startswith (extract f) ERROR_MARK); simpl; [done |].
    do 2 f_equal. lia.
Qed.

Lemma dict_get_store_image raw_data image_name k :
  dict_get k (store_image extract raw_data image_name)
    = if bool_decide (k = image_name) && yields_rows extract k
      then Some (rows_of (extract k))
      else dict_get k raw_data.
Proof.
  unfold store_image. case_bool_decide as Hk; simpl.
  - subst k. destruct (yields_rows extract image_name); [| done].
    apply dict_get_set_eq.
  - destruct (yields_rows extract image_name); [| done].
    by apply dict_get_set_ne.
Qed.

Lemma dict_get_fold_store_image images : forall raw_data k,
  dict_get k (fold_left (store_image extract) images raw_data)
    = if bool_decide (k ∈ images) && yields_rows extract k
      then Some (rows_of (extract k))
      else dict_get k raw_data.
Proof.
  induction images as [|f images IH]; intros raw_data k; cbn [fold_left].
  - by rewrite bool_decide_eq_false_2 by apply not_elem_of_nil.
  - rewrite IH, dict_get_store_image.
    destruct (yields_rows extract k); rewrite ?andb_false_r; [| done].
    rewrite !andb_true_r.
    destruct (decide (k ∈ images)) as [Hin|Hout].
    + rewrite !bool_decide_eq_true_2; [done | by right | done].
    + rewrite (bool_decide_eq_false_2 (k ∈ images)) by done.
      destruct (decide (k = f)) as [->|Hne].
      * rewrite !bool_decide_eq_true_2; [done | left | done].
      * rewrite !bool_decide_eq_false_2; [done | | done].
        rewrite elem_of_cons. tauto.
Qed.

Lemma keys_store_image raw_data image_name :
  keys raw_data `prefix_of` keys (store_image extract raw_data image_name).
Proof.
  unfold store_image. destruct (yields_rows extract image_name); [| done].
  destruct (decide (image_name ∈ keys raw_data)) as [Hin|Hout].
  - by rewrite keys_dict_set_old.
  - rewrite dict_set_new by done. unfold keys. rewrite map_app.
    by apply prefix_app_r.
Qed.

Lemma keys_fold_store_image images : forall raw_data,
  keys raw_data
    `prefix_of` keys (fold_left (store_image extract) images raw_data).
Proof.
  induction images as [|f images IH]; intros raw_data; simpl; [done |].
  etrans; [apply keys_store_image | apply IH].
Qed.

Lemma elem_of_new_images (image_files : list str) (raw_data : RawStore) k :
  k ∈ new_images image_files raw_data
  <-> k ∈ image_files /\ dict_get k raw_data = None.
Proof.
  unfold new_images, dict_has.
  rewrite list_elem_of_In, filter_In, <- list_elem_of_In.
  destruct (dict_get k raw_data); simpl; split; intros [? ?]; by split.
Qed.

End UpdateFacts2.

Lemma update_player_averages_frame `{UnicodeData} (MIN_GAMES : Z) (w : World) :
  raw_stats (snd (update_player_averages MIN_GAMES w)) = raw_stats w /\
  read_only (snd (update_player_averages MIN_GAMES w)) = read_only w.
Proof.
  destruct (update_cases MIN_GAMES w)
    as [[_ ->]|[(e & _ & ->)|(raw & _ & _ &
          [(e & _ & ->)|[[_ ->]|(averages & result & _ & ->)]])]];
    simpl; try done.
  by destruct (read_only w PLAYER_AVERAGES_FILE).
Qed.

Section UpdateFacts3.

Context `{UnicodeData}.
Variable ADMIN_IDS : list Z.
Variable MIN_GAMES : Z.

Lemma world_at_flush_loaded (call : Invocation) (w : World) raw_data :
  read_json_db RAW_STATS_FILE w = Return (Some raw_data) ->
  let images := new_images (image_files call) raw_data in
  let extract := extract_data_with_gemini call in
  world_at_flush call w
    = if negb (existsb (crashes extract) images)
         && (0 <? extracted_count extract images)%nat
         && negb (read_only w RAW_STATS_FILE)
      then store_at RAW_STATS_FILE
             (Holds (fold_left (store_image extract) images raw_data)) w
      else w.
Proof.
  intros Hread images extract.
  unfold world_at_flush, process_new_images. rewrite Hread.
  fold images. fold extract. unfold extracted_count.
  destruct images as [|first others] eqn:Himages; [done |].
  rewrite fold_process_image.
  destruct (existsb (crashes extract) (first :: others)); [done |].
  simpl (0 + _)%nat. cbn [negb andb].
  destruct (0 <? _)%nat; [| done].
  rewrite write_json_db_spec.
  by destruct (read_only w RAW_STATS_FILE).
Qed.

Lemma world_at_flush_not_loaded (call : Invocation) (w : World) :
  (forall raw_data,
      read_json_db RAW_STATS_FILE w <> Return (Some raw_data)) ->
  world_at_flush call w = w.
Proof.
  intros Hread. unfold world_at_flush, process_new_images.
  destruct (read_json_db RAW_STATS_FILE w) as [[raw_data|]|e]; [| | done].
  - by destruct (Hread raw_data).
  - by destruct (image_files call).
Qed.

Lemma world_after_frame (call : Invocation) (w : World) :
  let w1 := if goes_ahead ADMIN_IDS call then world_at_flush call w else w in
  raw_stats (world_after ADMIN_IDS MIN_GAMES call w) = raw_stats w1 /\
  read_only (world_after ADMIN_IDS MIN_GAMES call w) = read_only w1.
Proof.
  unfold world_after, update, goes_ahead, world_at_flush.
  destruct (existsb (Z.eqb (author_id call)) ADMIN_IDS); simpl; [| done].
  destruct (log_channel_found call); simpl; [| done].
  destruct (process_new_images (image_files call)
                               (extract_data_with_gemini call) w)
    as [[[f|] w1] notices]; simpl; [done |].
  pose proof (update_player_averages_frame MIN_GAMES w1) as [Hraw Hro].
  by destruct (update_player_averages MIN_GAMES w1) as [[r|e] w2].
Qed.

Lemma fold_store_image_id extract images : forall raw_data,
  (forall f, f ∈ images -> yields_rows extract f = false) ->
  fold_left (store_image extract) images raw_data = raw_data.
Proof.
  induction images as [|f images IH]; intros raw_data Hnone; [done |].
  simpl. unfold store_image at 2. rewrite Hnone by left.
  apply IH. intros f' Hf'. apply Hnone. by right.
Qed.

Lemma extracted_count_zero extract images f :
  extracted_count extract images = 0%nat ->
  f ∈ images -> yields_rows extract f = false.
Proof.
  unfold extracted_count, yields_rows. intros Hcount Hin.
  destruct (startswith (extract f) ERROR_MARK) eqn:Hmark; [done |].
  apply length_zero_iff_nil in Hcount.
  assert (Hf : In f (List.filter
                       (fun f => negb (startswith (extract f) ERROR_MARK))
                       images)).
  { apply filter_In. split; [by apply list_elem_of_In | by rewrite Hmark]. }
  rewrite Hcount in Hf. destruct Hf.
Qed.

End UpdateFacts3.

(** X14.  What the loop over the new images builds in memory, from a
    store [raw_data] that was read and the images that are not among
    its keys.  When the extraction of one of these images is not marked
    as failed and holds a row with a number beyond the limit of [int],
    the loop raises [ValueError].  Otherwise it ends with a store and a
    count: the count is the number of new images whose extraction is
    not marked as failed; the keys of the old store are the first keys
    of the new one, in their order; a key of the old store keeps its
    records; and any other name has records exactly when it is one of
    the listed images, its extraction is not marked as failed, and the
    parser accepts at least one row of it; the records are then those
    rows. *)
Theorem update_stores_new_images `{UnicodeData}
    (call : Invocation) (raw_data : RawStore) :
  let extract := extract_data_with_gemini call in
  let images := new_images (image_files call) raw_data in
  if existsb (crashes extract) images
  then fold_leftM (process_image extract) images (raw_data, 0%nat)
       = Raise ValueError
  else
    exists raw_data',
      fold_leftM (process_image extract) images (raw_data, 0%nat)
        = Return (raw_data', extracted_count extract images) /\
      keys raw_data `prefix_of` keys raw_data' /\
      forall k,
        dict_get k raw_data'
          = match dict_get k raw_data with
            | Some rows => Some rows
            | None =>
                if bool_decide (k ∈ image_files call)
                   && yields_rows extract k
                then Some (rows_of (extract k))
                else None
            end.
Proof.
  intros extract images. rewrite fold_process_image.
  destruct (existsb (crashes extract) images); [done |].
  eexists. split; [reflexivity |]. split; [apply keys_fold_store_image |].
  intros k. rewrite dict_get_fold_store_image.
  destruct (dict_get k raw_data) as [rows|] eqn:Hk.
  - rewrite bool_decide_eq_false_2; [done |].
    unfold images. rewrite elem_of_new_images. intros [_ Hnone]. congruence.
  - destruct (decide (k ∈ image_files call)) as [Hin|Hout].
    + rewrite !bool_decide_eq_true_2; [done | done |].
      by apply elem_of_new_images.
    + rewrite !bool_decide_eq_false_2; [done | done |].
      unfold images. rewrite elem_of_new_images. tauto.
Qed.

Example update_stores_new_images_run :
  let call := {| author_id := 7; log_channel_found := true;
                 image_files := [lit "5-a.png"; lit "7-a.png"; lit "9-b.png";
                                 lit "11-c.png"];
                 extract_data_with_gemini :=
                   fun image_name =>
                     if startswith image_name (lit "11")
                     then ERROR_MARK else lit "1 Stalker 5 5 0 0 90" |} in
  exists rows,
    fold_leftM (process_image (H := ascii_tables)
                  (extract_data_with_gemini call))
               (new_images (image_files call) vortex_store)
               (vortex_store, 0%nat)
      = Return (vortex_store
                  ++ [(lit "7-a.png", rows); (lit "9-b.png", rows)], 2%nat).
Proof. eexists. vm_compute. reflexivity. Qed.

Example update_crashes_on_overlong_row :
  let call := {| author_id := 7; log_channel_found := true;
                 image_files := [lit "7-a.png"];
                 extract_data_with_gemini := fun _ => overlong_line |} in
  update (H := ascii_tables) [7] 1 call (world_of vortex_store)
    = (CRASHED (Uncaught ValueError), world_of vortex_store,
       [FOUND_NEW_IMAGES 1]).
Proof. vm_compute. reflexivity. Qed.

Section Twice.

Context `{UnicodeData}.

Lemma second_flush_finds_nothing (call : Invocation) (raw_data : RawStore) :
  let extract := extract_data_with_gemini call in
  let stored :=
    fold_left (store_image extract)
              (new_images (image_files call) raw_data) raw_data in
  fold_left (store_image extract) (new_images (image_files call) stored)
            stored
  = stored.
Proof.
  intros extract stored. apply fold_store_image_id. intros f Hf.
  apply elem_of_new_images in Hf as [Hin Hnone].
  unfold stored in Hnone. rewrite dict_get_fold_store_image in Hnone.
  destruct (yields_rows extract f); [| done].
  rewrite andb_true_r in Hnone.
  case_bool_decide as Hnew; [discriminate |].
  destruct Hnew. by apply elem_of_new_images.
Qed.

End Twice.

(** X15.  Ingestion is idempotent.  A second call of the command, with
    the same images and the same results of the extraction, leaves the
    raw file as the first call left it. *)
Theorem update_twice_keeps_store `{UnicodeData}
    (ADMIN_IDS : list Z) (MIN_GAMES : Z) (call : Invocation) (w : World) :
  let w1 := world_after ADMIN_IDS MIN_GAMES call w in
  raw_stats (world_after ADMIN_IDS MIN_GAMES call w1) = raw_stats w1.
Proof.
  intros w1.
  destruct (world_after_frame ADMIN_IDS MIN_GAMES call w) as [Hraw Hro].
  destruct (world_after_frame ADMIN_IDS MIN_GAMES call w1) as [Hraw1 _].
  fold w1 in Hraw, Hro. rewrite Hraw1. clear Hraw1.
  destruct (goes_ahead ADMIN_IDS call); [| done].
  assert (Hsame : forall w', raw_stats w' = raw_stats w ->
             read_json_db RAW_STATS_FILE w' = read_json_db RAW_STATS_FILE w).
  { intros w' Hw'. by apply read_json_db_frame. }
  destruct (read_json_db RAW_STATS_FILE w) as [[raw_data|]|e] eqn:Hread.
  - rewrite (world_at_flush_loaded call w raw_data Hread) in Hraw, Hro.
    set (extract := extract_data_with_gemini call) in *.
    set (images := new_images (image_files call) raw_data) in *.
    set (stored := fold_left (store_image extract) images raw_data) in *.
    destruct (negb (existsb (crashes extract) images)
              && (0 <? extracted_count extract images)%nat
              && negb (read_only w RAW_STATS_FILE)) eqn:Hflush.
    + assert (Hread1 : read_json_db RAW_STATS_FILE w1 = Return (Some stored)).
      { unfold read_json_db. simpl. by rewrite Hraw. }
      rewrite (world_at_flush_loaded call w1 stored Hread1).
      fold extract. unfold stored, images, extract.
      rewrite second_flush_finds_nothing. fold extract images stored.
      simpl in Hraw.
      match goal with
      | |- raw_stats (if ?c then _ else _) = _ => destruct c
      end; [| done]. simpl. by rewrite Hraw.
    + assert (Hread1 : read_json_db RAW_STATS_FILE w1
                       = Return (Some raw_data)).
      { by apply Hsame. }
      rewrite (world_at_flush_loaded call w1 raw_data Hread1).
      fold extract images. by rewrite Hro, Hflush.
  - rewrite world_at_flush_not_loaded; [done |].
    intros raw_data. rewrite Hsame; [done |].
    by rewrite Hraw, world_at_flush_not_loaded by (rewrite Hread; done).
  - rewrite world_at_flush_not_loaded; [done |].
    intros raw_data. rewrite Hsame; [done |].
    by rewrite Hraw, world_at_flush_not_loaded by (rewrite Hread; done).
Qed.

(** * Further properties of the reaction handlers *)

#[local] Set Warnings "-clear-no-such-hyp".

Section ReactionFacts.

Variable message_id : Z.

Lemma for_each_save_attachment (save : str -> save_end)
    (attachments : list Attachment.t) : forall (folder : Folder) saved,
  let result := for_each (save_attachment message_id save) attachments
                         (folder, saved) in
  folder ⊆ fst result /\
  exists new,
    snd result = saved ++ new /\
    NoDup new /\
    (forall name, name ∈ new -> name ∉ folder) /\
    (forall name, name ∈ fst result -> name ∉ folder ->
       name ∈ new /\ save name <> SAVE_FAILED false) /\
    (forall name, name ∈ new ->
       exists a content_type,
         a ∈ attachments /\
         Attachment.content_type a = Some content_type /\
         contains (lit "image") content_type = true /\
         name = image_file_name message_id (Attachment.filename a)).
Proof.
  assert (Hnone : forall (folder : Folder) saved l,
            folder ⊆ folder /\
            exists new : list str,
              saved = saved ++ new /\ NoDup new /\
              (forall name, name ∈ new -> name ∉ folder) /\
              (forall name, name ∈ folder -> name ∉ folder ->
                 name ∈ new /\ save name <> SAVE_FAILED false) /\
              (forall name, name ∈ new ->
                 exists a content_type,
                   a ∈ (l : list Attachment.t) /\
                   Attachment.content_type a = Some content_type /\
                   contains (lit "image") content_type = true /\
                   name = image_file_name message_id
                                          (Attachment.filename a))).
  { intros folder saved l. split; [done |]. exists [].
    rewrite app_nil_r. split; [done |]. split; [constructor |].
    split; [by intros name Hin%elem_of_nil |].
    split; [by intros name Hin Hout |]. by intros name Hin%elem_of_nil. }
  induction attachments as [| a attachments IH]; intros folder saved;
    cbv zeta.
  { apply Hnone. }
  cbn [for_each].
  destruct (save_attachment message_id save (folder, saved) a)
    as [state | state] eqn:Hbody; unfold save_attachment in Hbody.
  all: destruct (Attachment.content_type a) as [ct |] eqn:Hct;
    [| simplify_eq; apply Hnone].
  assert (Hstep : forall result,
            (folder ⊆ fst result /\
             exists new,
               snd result = saved ++ new /\ NoDup new /\
               (forall name, name ∈ new -> name ∉ folder) /\
               (forall name, name ∈ fst result -> name ∉ folder ->
                  name ∈ new /\ save name <> SAVE_FAILED false) /\
               (forall name, name ∈ new ->
                  exists a content_type,
                    a ∈ attachments /\
                    Attachment.content_type a = Some content_type /\
                    contains (lit "image") content_type = true /\
                    name = image_file_name message_id
                                           (Attachment.filename a))) ->
            folder ⊆ fst result /\
            exists new,
              snd result = saved ++ new /\ NoDup new /\
              (forall name, name ∈ new -> name ∉ folder) /\
              (forall name, name ∈ fst result -> name ∉ folder ->
                 name ∈ new /\ save name <> SAVE_FAILED false) /\
              (forall name, name ∈ new ->
                 exists a' content_type,
                   a' ∈ a :: attachments /\
                   Attachment.content_type a' = Some content_type /\
                   contains (lit "image") content_type = true /\
                   name = image_file_name message_id
                                          (Attachment.filename a'))).
  { intros result (Hsub & new & Hsaved & Hdup & Hfresh & Hnew & Hfrom).
    split; [done |]. exists new. repeat (split; [done |]).
    intros name Hin. destruct (Hfrom name Hin) as (a' & ct' & Ha' & Hrest).
    exists a', ct'. split; [by right | done]. }
  all: destruct (contains (lit "image") ct) eqn:Himage;
    [| simplify_eq; apply Hstep, IH].
  all: case_bool_decide as Hexists; [simplify_eq; apply Hstep, IH |].
  all: set (file_path :=
              image_file_name message_id (Attachment.filename a)) in *.
  all: assert (Hthis : exists a' content_type,
            a' ∈ a :: attachments /\
            Attachment.content_type a' = Some content_type /\
            contains (lit "image") content_type = true /\
            file_path = image_file_name message_id (Attachment.filename a'))
    by (exists a, ct; split; [by left | done]).
  all: destruct (save file_path) as [| file_left] eqn:Hsave; simplify_eq.
  - destruct (IH ({[file_path]} ∪ folder) (saved ++ [file_path]))
      as (Hsub & new & Hsaved & Hdup & Hfresh & Hnew & Hfrom).
    split; [set_solver |]. exists (file_path :: new).
    split; [by rewrite Hsaved, <- app_assoc |].
    split; [constructor; [| done]; intros Hin; apply Hfresh in Hin;
            set_solver |].
    split; [intros name [-> | Hin]%elem_of_cons; [done |];
            apply Hfresh in Hin; set_solver |].
    split.
    + intros name Hin Hout.
      destruct (decide (name = file_path)) as [-> | Hne].
      { split; [by left | by rewrite Hsave]. }
      destruct (Hnew name Hin) as [Hin' Hok]; [set_solver |].
      split; [by right | done].
    + intros name [-> | Hin]%elem_of_cons; [done |].
      destruct (Hfrom name Hin) as (a' & ct' & Ha' & Hrest).
      exists a', ct'. split; [by right | done].
  - cbn [fst snd]. split; [destruct file_left; set_solver |].
    exists [file_path]. split; [done |].
    split; [apply NoDup_singleton |].
    split; [by intros name ->%list_elem_of_singleton |].
    split.
    + intros name Hin Hout. destruct file_left; [| done].
      assert (name = file_path) as -> by set_solver.
      split; [by left | by rewrite Hsave].
    + by intros name ->%list_elem_of_singleton.
Qed.

Lemma for_each_remove_attachment_sub (remove_fails : str -> bool)
    (attachments : list Attachment.t) (folder : Folder) :
  let folder' := for_each (remove_attachment message_id remove_fails)
                          attachments folder in
  folder' ⊆ folder /\
  forall name, name ∈ folder -> name ∉ folder' ->
    name ∈ saved_names message_id attachments.
Proof.
  revert folder. unfold saved_names.
  induction attachments as [| a attachments IH]; intros folder; simpl.
  { split; [done |]. by intros name Hin Hout. }
  unfold remove_attachment at 1 3.
  set (file_path := image_file_name message_id (Attachment.filename a)).
  case_bool_decide as Hexists.
  - destruct (remove_fails file_path).
    + split; [done |]. by intros name Hin Hout.
    + destruct (IH (folder ∖ {[file_path]})) as [Hsub Hgone].
      split; [set_solver |].
      intros name Hin Hout.
      destruct (decide (name = file_path)) as [-> | Hne]; [set_solver |].
      apply elem_of_union_r, Hgone; set_solver.
  - destruct (IH folder) as [Hsub Hgone]. split; [done |].
    intros name Hin Hout. apply elem_of_union_r. by apply Hgone.
Qed.

Lemma for_each_remove_attachment_all (remove_fails : str -> bool)
    (attachments : list Attachment.t) (folder : Folder) :
  (forall name, remove_fails name = false) ->
  for_each (remove_attachment message_id remove_fails) attachments folder
  = folder ∖ saved_names message_id attachments.
Proof.
  intros Hnever. revert folder. unfold saved_names.
  induction attachments as [| a attachments IH]; intros folder; simpl.
  { apply leibniz_equiv. set_solver. }
  unfold remove_attachment at 1.
  set (file_path := image_file_name message_id (Attachment.filename a)).
  rewrite Hnever.
  case_bool_decide as Hexists; rewrite IH; apply leibniz_equiv; set_solver.
Qed.

End ReactionFacts.

(** X16.  A reaction only adds files, only images of the message, and
    it overwrites nothing.  The handler removes no file.  Every path
    that it hands to [attachment.save] is a path that did not exist
    when the handler started, and no path is handed over twice: no call
    can write over a file that was there, or over one that the handler
    has just written.  A file that the handler adds is one of these
    paths.  Each of these paths is handed over because the reaction
    passed the guard (target channel, administrator, the check mark),
    the message was fetched, and the path is named after the message
    and one of its attachments whose content type contains "image";
    the recency key of such a name is the id of the message (an id
    that is not negative and has at most 4300 digits, as the ids of
    messages are). *)
Theorem reaction_saves_only_images `{UnicodeData}
    (TARGET_CHANNEL_IDS ADMIN_IDS : list Z) (payload : Payload.t)
    (around : Surroundings) (folder : Folder) :
  let result :=
    on_raw_reaction_add TARGET_CHANNEL_IDS ADMIN_IDS payload around folder in
  let folder' := fst result in
  let saved := snd result in
  folder ⊆ folder' /\
  NoDup saved /\
  (forall name, name ∈ saved -> name ∉ folder) /\
  (forall name, name ∈ folder' -> name ∉ folder ->
     name ∈ saved /\ save around name <> SAVE_FAILED false) /\
  (forall name, name ∈ saved ->
     concerned TARGET_CHANNEL_IDS ADMIN_IDS payload = true /\
     exists attachments a content_type,
       fetch_message around = FETCHED attachments /\
       a ∈ attachments /\
       Attachment.content_type a = Some content_type /\
       contains (lit "image") content_type = true /\
       name = image_file_name (Payload.message_id payload)
                              (Attachment.filename a) /\
       (0 <= Payload.message_id payload < 10 ^ Z.of_nat MAX_STR_DIGITS ->
        sort_key name = Return (Payload.message_id payload))).
Proof.
  assert (Hnone : folder ⊆ folder /\
            NoDup ([] : list str) /\
            (forall name : str, name ∈ ([] : list str) -> name ∉ folder) /\
            (forall name, name ∈ folder -> name ∉ folder ->
               name ∈ ([] : list str)
               /\ save around name <> SAVE_FAILED false) /\
            (forall name, name ∈ ([] : list str) ->
               concerned TARGET_CHANNEL_IDS ADMIN_IDS payload = true /\
               exists attachments a content_type,
                 fetch_message around = FETCHED attachments /\
                 a ∈ attachments /\
                 Attachment.content_type a = Some content_type /\
                 contains (lit "image") content_type = true /\
                 name = image_file_name (Payload.message_id payload)
                                        (Attachment.filename a) /\
                 (0 <= Payload.message_id payload
                    < 10 ^ Z.of_nat MAX_STR_DIGITS ->
                  sort_key name = Return (Payload.message_id payload)))).
  { split; [done |]. split; [constructor |].
    split; [by intros name Hin%elem_of_nil |].
    split; [by intros name Hin Hout |]. by intros name Hin%elem_of_nil. }
  cbv zeta. unfold on_raw_reaction_add.
  destruct (concerned TARGET_CHANNEL_IDS ADMIN_IDS payload);
    cbn [negb fst snd]; [| exact Hnone].
  destruct (fetch_message around) as [| | attachments];
    cbn [fst snd]; try exact Hnone.
  destruct (for_each_save_attachment (Payload.message_id payload)
              (save around) attachments folder [])
    as (Hsub & new & Hsaved & Hdup & Hfresh & Hnew & Hfrom).
  destruct attachments as [| a0 attachments]; [exact Hnone |].
  rewrite Hsaved. cbn [app].
  do 4 (split; [done |]).
  intros name Hin. split; [done |].
  destruct (Hfrom name Hin) as (a & ct & Ha & Hct & Himage & ->).
  exists (a0 :: attachments), a, ct.
  repeat (split; [done |]).
  intros Hid. by apply sort_key_image_file_name.
Qed.

Example reaction_keeps_the_file_that_is_there :
  let payload := {| Payload.channel_id := 3; Payload.user_id := 7;
                    Payload.emoji := TARGET_EMOJI;
                    Payload.message_id := 12 |} in
  let image name := {| Attachment.filename := name;
                       Attachment.content_type := Some (lit "image/png") |} in
  let around :=
    {| fetch_message :=
         FETCHED [image (lit "a.png"); image (lit "b.png");
                  image (lit "b.png")];
       save := fun _ => SAVED;
       remove_fails := fun _ => false |} in
  snd (on_raw_reaction_add [3] [7] payload around {[ lit "12-a.png" ]})
  = [lit "12-b.png"].
Proof. vm_compute. reflexivity. Qed.

(** X17.  Taking the reaction back only removes files, and only files
    named after the message and one of its attachments (of any content
    type).  When the reaction passes the guard, the message is fetched
    and no removal fails, the folder loses exactly the names of the
    attachments of the message. *)
Theorem reaction_remove_clears_message
    (TARGET_CHANNEL_IDS ADMIN_IDS : list Z) (payload : Payload.t)
    (around : Surroundings) (folder : Folder) :
  let folder' :=
    on_raw_reaction_remove TARGET_CHANNEL_IDS ADMIN_IDS payload around
                           folder in
  folder' ⊆ folder /\
  (forall name, name ∈ folder -> name ∉ folder' ->
     concerned TARGET_CHANNEL_IDS ADMIN_IDS payload = true /\
     exists attachments,
       fetch_message around = FETCHED attachments /\
       name ∈ saved_names (Payload.message_id payload) attachments) /\
  (forall attachments,
     concerned TARGET_CHANNEL_IDS ADMIN_IDS payload = true ->
     fetch_message around = FETCHED attachments ->
     (forall name, remove_fails around name = false) ->
     folder' = folder ∖ saved_names (Payload.message_id payload) attachments).
Proof.
  unfold on_raw_reaction_remove.
  destruct (concerned TARGET_CHANNEL_IDS ADMIN_IDS payload); simpl;
    [| split; [done |]; split; [by intros name Hin Hout | done]].
  destruct (fetch_message around) as [| | attachments];
    try (split; [done |]; split; [by intros name Hin Hout | done]).
  destruct (for_each_remove_attachment_sub (Payload.message_id payload)
              (remove_fails around) attachments folder) as [Hsub Hgone].
  pose proof (for_each_remove_attachment_all (Payload.message_id payload)
                (remove_fails around) attachments folder) as Hall.
  destruct attachments as [| a0 attachments].
  { split; [done |]. split; [by intros name Hin Hout |].
    intros attachments _ [= <-] _. apply leibniz_equiv.
    unfold saved_names. set_solver. }
  split; [exact Hsub |]. split.
  - intros name Hin Hout. split; [done |].
    exists (a0 :: attachments). split; [done |]. by apply Hgone.
  - intros attachments' _ [= <-] Hnever. by apply Hall.
Qed.

(** X18.  Taking the reaction back undoes the reaction.  The two
    handlers run at different times and each meets its own
    surroundings.  When the removal meets the message with the
    attachments that the saving met, and no removal fails, removing
    after adding leaves the folder as removing alone does, whatever
    happened while saving (also when a save failed half way); when in
    addition no file of the message was in the folder before, the
    folder is as it was before the reaction.  (A removal that cannot
    fetch the message leaves the saved files there.) *)
Theorem reaction_remove_undoes_add
    (TARGET_CHANNEL_IDS ADMIN_IDS : list Z) (payload : Payload.t)
    (saving removing : Surroundings) (folder : Folder) :
  (forall attachments,
     fetch_message saving = FETCHED attachments ->
     fetch_message removing = FETCHED attachments) ->
  (forall name, remove_fails removing name = false) ->
  let added :=
    fst (on_raw_reaction_add TARGET_CHANNEL_IDS ADMIN_IDS payload saving
                             folder) in
  let remove :=
    on_raw_reaction_remove TARGET_CHANNEL_IDS ADMIN_IDS payload removing in
  remove added = remove folder /\
  ((forall attachments,
      fetch_message removing = FETCHED attachments ->
      saved_names (Payload.message_id payload) attachments ## folder) ->
   remove added = folder).
Proof.
  intros Hfetch Hnever added remove.
  assert (Hsame : remove added = remove folder).
  { unfold added, remove, on_raw_reaction_add, on_raw_reaction_remove.
    destruct (concerned TARGET_CHANNEL_IDS ADMIN_IDS payload);
      cbn [negb fst]; [| done].
    destruct (fetch_message saving) as [| | attachments] eqn:Hsaving;
      [done | done |].
    rewrite (Hfetch attachments eq_refl).
    destruct attachments as [| a0 attachments]; [done |].
    set (attachments' := a0 :: attachments).
    rewrite !for_each_remove_attachment_all by done.
    destruct (for_each_save_attachment (Payload.message_id payload)
                (save saving) attachments' folder [])
      as (Hsub & new & _ & _ & _ & Hnew & Hfrom).
    set (added' := fst (for_each _ attachments' (folder, []))) in *.
    apply leibniz_equiv. intros name. split; [| set_solver].
    intros [Hin Hout]%elem_of_difference. apply elem_of_difference.
    split; [| done].
    destruct (decide (name ∈ folder)) as [| Hnot]; [done |].
    destruct Hout.
    destruct (Hnew name Hin Hnot) as [Hin' _].
    destruct (Hfrom name Hin') as (a & ct & Ha & _ & _ & ->).
    unfold saved_names. apply elem_of_list_to_set, list_elem_of_fmap.
    by exists a. }
  split; [exact Hsame |].
  intros Hfresh. rewrite Hsame.
  unfold remove, on_raw_reaction_remove.
  destruct (concerned TARGET_CHANNEL_IDS ADMIN_IDS payload);
    cbn [negb]; [| done].
  destruct (fetch_message removing) as [| | attachments]; [done | done |].
  specialize (Hfresh attachments eq_refl).
  destruct attachments as [| a0 attachments]; [done |].
  rewrite for_each_remove_attachment_all by done.
  apply leibniz_equiv. set_solver.
Qed.

Lemma reaction_remove_undoes_add_witness :
  let payload := {| Payload.channel_id := 3; Payload.user_id := 7;
                    Payload.emoji := TARGET_EMOJI;
                    Payload.message_id := 12 |} in
  let attachments :=
    [ {| Attachment.filename := lit "a.png";
         Attachment.content_type := Some (lit "image/png") |};
      {| Attachment.filename := lit "notes.txt";
         Attachment.content_type := Some (lit "text/plain") |} ] in
  let saving :=
    {| fetch_message := FETCHED attachments;
       save := fun _ => SAVED;
       remove_fails := fun _ => true |} in
  let removing :=
    {| fetch_message := FETCHED attachments;
       save := fun _ => SAVE_FAILED false;
       remove_fails := fun _ => false |} in
  let folder : Folder := {[ lit "5-old.png" ]} in
  (forall attachments,
     fetch_message saving = FETCHED attachments ->
     fetch_message removing = FETCHED attachments) /\
  (forall name, remove_fails removing name = false) /\
  lit "12-a.png" ∈ fst (on_raw_reaction_add [3] [7] payload saving folder) /\
  on_raw_reaction_remove [3] [7] payload removing
    (fst (on_raw_reaction_add [3] [7] payload saving folder))
  = on_raw_reaction_remove [3] [7] payload removing folder.
Proof.
  intros payload attachments saving removing folder.
  split; [by intros attachments' Hfetch |].
  split; [intros name; reflexivity |].
  split.
  { apply (bool_decide_eq_true_1 (_ ∈ _)). vm_compute. reflexivity. }
  destruct (reaction_remove_undoes_add [3] [7] payload saving removing folder)
    as [Hsame _];
    [by intros attachments' Hfetch | intros name; reflexivity | exact Hsame].
Defined.

Example removal_without_the_message_keeps_the_file :
  let payload := {| Payload.channel_id := 3; Payload.user_id := 7;
                    Payload.emoji := TARGET_EMOJI;
                    Payload.message_id := 12 |} in
  let saving :=
    {| fetch_message :=
         FETCHED [ {| Attachment.filename := lit "a.png";
                      Attachment.content_type := Some (lit "image/png") |} ];
       save := fun _ => SAVED;
       remove_fails := fun _ => false |} in
  let removing :=
    {| fetch_message := FETCH_FAILED;
       save := fun _ => SAVED;
       remove_fails := fun _ => false |} in
  lit "12-a.png"
    ∈ on_raw_reaction_remove [3] [7] payload removing
        (fst (on_raw_reaction_add [3] [7] payload saving ∅)).
Proof. apply (bool_decide_eq_true_1 (_ ∈ _)). vm_compute. reflexivity. Qed.

(** * Further properties of the table *)

Section ListSortFacts.

Context {A K : Type} (lt : K -> K -> bool) (key : A -> K).
Variable reverse : bool.

(** [a] need not go after [b]. *)
Let ordered (a b : A) : Prop := goes_after lt key reverse a b = false.

Lemma insert_sorted_perm (x : A) (l : list A) :
  insert_sorted lt key reverse x l ≡ₚ x :: l.
Proof.
  induction l as [| y l IH]; simpl; [done |].
  destruct (goes_after lt key reverse x y); [| done].
  rewrite IH. apply Permutation_swap.
Qed.

Lemma list_sort_perm (l : list A) : list_sort lt key reverse l ≡ₚ l.
Proof.
  induction l as [| x l IH]; simpl; [done |].
  unfold list_sort in IH. by rewrite insert_sorted_perm, IH.
Qed.

(** The keys on which [<] is a strict weak order. *)
Variable comparable : K -> Prop.
Hypothesis lt_asym :
  forall a b, comparable a -> comparable b -> lt a b = true -> lt b a = false.
Hypothesis lt_trans_neg :
  forall a b c, comparable a -> comparable b -> comparable c ->
    lt a b = false -> lt b c = false -> lt a c = false.

Lemma ordered_trans (a b c : A) :
  comparable (key a) -> comparable (key b) -> comparable (key c) ->
  ordered a b -> ordered b c -> ordered a c.
Proof.
  unfold ordered, goes_after. intros Ha Hb Hc.
  destruct reverse; intros Hab Hbc; eauto.
Qed.

Lemma insert_sorted_sorted (x : A) (l : list A) :
  comparable (key x) -> Forall (fun a => comparable (key a)) l ->
  StronglySorted ordered l ->
  StronglySorted ordered (insert_sorted lt key reverse x l).
Proof.
  intros Hx Hl Hsorted.
  induction Hsorted as [| y l Hsorted IH Hy]; simpl.
  { constructor; [constructor | constructor]. }
  apply Forall_cons in Hl as [Hcy Hl].
  destruct (goes_after lt key reverse x y) eqn:Hafter.
  - constructor; [by apply IH |].
    rewrite insert_sorted_perm. constructor; [| done].
    unfold ordered, goes_after in *.
    destruct reverse; by apply lt_asym.
  - constructor; [by constructor |].
    constructor; [done |].
    rewrite Forall_forall in Hy, Hl |- *. intros z Hz.
    apply (ordered_trans x y z); auto.
Qed.

Lemma list_sort_sorted (l : list A) :
  Forall (fun a => comparable (key a)) l ->
  StronglySorted ordered (list_sort lt key reverse l).
Proof.
  induction l as [| x l IH]; intros Hl; simpl; [constructor |].
  apply Forall_cons in Hl as [Hx Hl].
  apply insert_sorted_sorted; [done | | by apply IH].
  by rewrite list_sort_perm.
Qed.

End ListSortFacts.

(** The order of [float] on the numbers and the infinities. *)
Ltac compare_cases :=
  change (PosDef.Pos.compare_cont Eq ?a ?b) with (Pos.compare a b) in *;
  repeat match goal with
         | H : context [(?a ?= ?b)%Z] |- _ =>
             destruct (Z.compare_spec a b); simpl in H; try done
         | H : context [(?a ?= ?b)%positive] |- _ =>
             destruct (Pos.compare_spec a b); simpl in H; try done
         | |- context [(?a ?= ?b)%Z] =>
             destruct (Z.compare_spec a b); simpl; try done
         | |- context [(?a ?= ?b)%positive] =>
             destruct (Pos.compare_spec a b); simpl; try done
         end;
  try done; try lia.

Lemma SFltb_asym (x y : Float.float) :
  SFltb x y = true -> SFltb y x = false.
Proof.
  unfold SFltb, SFcompare.
  destruct x as [sx | sx | | sx mx ex], y as [sy | sy | | sy my ey];
    try done; try (by destruct sx); try (by destruct sy);
    try (by destruct sx, sy).
  destruct sx, sy; try done; intros Hlt; compare_cases.
Qed.

Lemma SFltb_trans_neg (x y z : Float.float) :
  is_nan x = false -> is_nan y = false -> is_nan z = false ->
  SFltb x y = false -> SFltb y z = false -> SFltb x z = false.
Proof.
  unfold SFltb, SFcompare.
  destruct x as [sx | sx | | sx mx ex]; try done;
    destruct y as [sy | sy | | sy my ey]; try done;
    destruct z as [sz | sz | | sz mz ez]; try done;
    intros _ _ _; try (by destruct sx); try (by destruct sy);
    try (by destruct sz); try (by destruct sx, sy);
    try (by destruct sy, sz); try (by destruct sx, sz);
    try (by destruct sx, sy, sz).
  destruct sx, sy, sz; try done; intros Hxy Hyz; compare_cases.
Qed.

Section PageFacts.

Context {A : Type}.

Lemma players_on_page_take_drop (l : list A) (page_num : Z) :
  0 <= page_num ->
  players_on_page l page_num = take 10 (drop (Z.to_nat (page_num * 10)) l).
Proof.
  intros Hp. unfold players_on_page, slice.
  set (len := Z.of_nat (length l)).
  assert (Hlen : 0 <= len) by (unfold len; lia).
  destruct (page_num * 10 <? 0) eqn:H0; [lia |].
  destruct (page_num * 10 + 10 <? 0) eqn:H1; [lia |].
  destruct (decide (len <= page_num * 10)) as [Hbeyond | Hwithin].
  - rewrite !drop_ge; [by rewrite !take_nil | unfold len in *; lia ..].
  - rewrite (Z.min_l (page_num * 10) len) by lia.
    destruct (decide (page_num * 10 + 10 <= len)) as [Hfull | Hpart].
    + rewrite Z.min_l by lia. f_equal. lia.
    + rewrite Z.min_r by lia.
      rewrite !take_ge; [done | rewrite length_drop; unfold len in *; lia ..].
Qed.

Lemma pages_concat (l : list A) (k : nat) :
  concat (map (fun p : nat => take 10 (drop (p * 10) l)) (seq 0 k))
  = take (k * 10) l.
Proof.
  induction k as [| k IH]; [done |].
  rewrite seq_S, map_app, concat_app, IH.
  replace (S k * 10)%nat with (k * 10 + 10)%nat by lia.
  cbn [map concat Nat.add]. by rewrite app_nil_r, take_take_drop.
Qed.

End PageFacts.

Lemma page_count_exact_spec (fuel : nat) (n k : Z) :
  page_count_exact fuel n = true ->
  n <= k < n + Z.of_nat fuel ->
  (x ← Float.int_true_div k 10; math_ceil x) = Return ((k + 9) / 10).
Proof.
  revert n. induction fuel as [| fuel IH]; intros n Hall Hk; [lia |].
  cbn [page_count_exact] in Hall. apply andb_true_iff in Hall as [Hn Hall].
  destruct (decide (k = n)) as [-> | Hne].
  - destruct (x ← Float.int_true_div n 10; math_ceil x) as [pages |];
      [| done].
    apply Z.eqb_eq in Hn. by subst.
  - apply (IH (n + 1)); [done | lia].
Qed.

Lemma page_count_checked : page_count_exact (S MAX_CHECKED_PLAYERS) 0 = true.
Proof. vm_compute. reflexivity. Qed.

Lemma page_count_closed (n : nat) :
  (n <= MAX_CHECKED_PLAYERS)%nat ->
  page_count n = Return ((Z.of_nat n + 9) / 10).
Proof.
  intros Hn. unfold page_count.
  apply (page_count_exact_spec (S MAX_CHECKED_PLAYERS) 0);
    [exact page_count_checked | lia].
Qed.

(** X19.  The pages cover the list.  For a list of at most 10000
    players the view counts [ceil(n / 10)] pages exactly, although it
    computes this number through a float; the pages that
    [create_stats_embed] selects for the page numbers below this count
    are, joined in order, the whole list, and each has between 1 and
    10 players. *)
Theorem pages_cover_every_player (player_list : list Player) :
  (length player_list <= MAX_CHECKED_PLAYERS)%nat ->
  let n := Z.of_nat (length player_list) in
  exists total_pages,
    page_count (length player_list) = Return total_pages /\
    total_pages = (n + 9) / 10 /\
    concat (map (players_on_page player_list)
                (map Z.of_nat (seq 0 (Z.to_nat total_pages))))
    = player_list /\
    forall page_num, 0 <= page_num < total_pages ->
      players_on_page player_list page_num <> [] /\
      (length (players_on_page player_list page_num) <= 10)%nat.
Proof.
  intros Hn n. exists ((n + 9) / 10).
  split; [by apply page_count_closed |]. split; [done |].
  assert (Hq : (n + 9) / 10 * 10 <= n + 9 < (n + 9) / 10 * 10 + 10).
  { pose proof (Z.div_mod (n + 9) 10) as Hdiv.
    pose proof (Z.mod_pos_bound (n + 9) 10). lia. }
  assert (Hlen : n = Z.of_nat (length player_list)) by done.
  set (q := (n + 9) / 10) in *. clearbody q n.
  split.
  - rewrite map_map.
    rewrite (map_ext _ (fun p : nat => take 10 (drop (p * 10) player_list))).
    + rewrite pages_concat. apply take_ge. lia.
    + intros p. rewrite players_on_page_take_drop by lia.
      do 2 f_equal. lia.
  - intros page_num Hpage.
    rewrite players_on_page_take_drop by lia. split.
    + intros Hnil. apply (f_equal length) in Hnil.
      rewrite length_take, length_drop in Hnil. cbn [length] in Hnil. lia.
    + rewrite length_take. lia.
Qed.

Lemma pages_cover_every_player_witness :
  let player_list := sample_table in
  (length player_list <= MAX_CHECKED_PLAYERS)%nat /\
  exists total_pages,
    page_count (length player_list) = Return total_pages /\
    total_pages = (Z.of_nat (length player_list) + 9) / 10 /\
    concat (map (players_on_page player_list)
                (map Z.of_nat (seq 0 (Z.to_nat total_pages))))
    = player_list /\
    forall page_num, 0 <= page_num < total_pages ->
      players_on_page player_list page_num <> [] /\
      (length (players_on_page player_list page_num) <= 10)%nat.
Proof.
  intros player_list.
  assert (Hlen : (length player_list <= MAX_CHECKED_PLAYERS)%nat).
  { apply Nat.leb_le. vm_compute. reflexivity. }
  split; [exact Hlen |].
  exact (pages_cover_every_player player_list Hlen).
Defined.

Section ViewFacts.

Variable MIN_GAMES : Z.

(** What every view that the program reaches satisfies: the page is in
    range and the flags of the buttons are those of the state. *)
Let in_range (v : StatsPaginationView) : Prop :=
  0 <= current_page v /\
  (current_page v = 0 \/ current_page v < total_pages v) /\
  update_buttons_state v = v.

Lemma update_buttons_state_idem (v : StatsPaginationView) :
  update_buttons_state (update_buttons_state v) = update_buttons_state v.
Proof. done. Qed.

Lemma sort_stats_perm (mode : sort_mode) (l : list Player) :
  sort_stats mode l ≡ₚ l.
Proof. destruct mode; apply list_sort_perm. Qed.

Lemma new_view_in_range (player_stats : list Player)
    (view : StatsPaginationView) :
  new_view player_stats = Return view ->
  in_range view /\ all_player_stats view ≡ₚ player_stats
  /\ sort_by view = KD
  /\ all_player_stats view = sort_stats KD player_stats.
Proof.
  unfold new_view.
  destruct (page_count _) as [pages |]; [| done].
  intros [= <-]. repeat split; simpl; try done; try lia.
  apply (sort_stats_perm KD).
Qed.

Lemma press_in_range (b : button) (v : StatsPaginationView) :
  in_range v ->
  let v' := fst (press MIN_GAMES b v) in
  in_range v' /\ total_pages v' = total_pages v
  /\ all_player_stats v' ≡ₚ all_player_stats v.
Proof.
  intros (Hpos & Hpage & Hflags).
  destruct b; simpl; unfold sort_kd_button, sort_place_button,
    previous_button, next_button.
  - destruct (is_kd (sort_by v)); [done |]. simpl.
    repeat split; simpl; try done; try lia; apply (sort_stats_perm KD).
  - destruct (is_kd (sort_by v)); simpl; [| done].
    repeat split; simpl; try done; try lia; apply (sort_stats_perm PLACE).
  - destruct (0 <? current_page v) eqn:Hprev; [| done].
    apply Z.ltb_lt in Hprev. repeat split; simpl; try done; lia.
  - destruct (current_page v <? total_pages v - 1) eqn:Hnext; [| done].
    apply Z.ltb_lt in Hnext. repeat split; simpl; try done; lia.
Qed.

Lemma presses_in_range (bs : list button) (v : StatsPaginationView) :
  in_range v ->
  let v' := presses MIN_GAMES bs v in
  in_range v' /\ total_pages v' = total_pages v
  /\ all_player_stats v' ≡ₚ all_player_stats v.
Proof.
  revert v. induction bs as [| b bs IH]; intros v Hv; simpl; [done |].
  destruct (press_in_range b v Hv) as (Hv1 & Htotal1 & Hperm1).
  destruct (IH _ Hv1) as (Hv' & Htotal & Hperm).
  split; [done |]. split; [by rewrite <- Htotal1 | by rewrite <- Hperm1].
Qed.

Lemma disabled_press_defers (b : button) (v : StatsPaginationView) :
  in_range v -> disabled b v = true ->
  press MIN_GAMES b v = (v, Return DEFER).
Proof.
  intros (Hpos & Hpage & Hflags). rewrite <- Hflags at 1.
  destruct b; simpl; unfold sort_kd_button, sort_place_button,
    previous_button, next_button.
  - by intros ->.
  - by intros ->.
  - intros Hfirst%Z.eqb_eq. by rewrite Hfirst.
  - intros Hlast%Z.leb_le.
    destruct (current_page v <? total_pages v - 1) eqn:Hnext; [| done].
    apply Z.ltb_lt in Hnext. lia.
Qed.

Lemma enabled_press_acts (b : button) (v : StatsPaginationView) :
  in_range v -> disabled b v = false ->
  snd (press MIN_GAMES b v) <> Return DEFER /\ fst (press MIN_GAMES b v) <> v.
Proof.
  intros (Hpos & Hpage & Hflags). rewrite <- Hflags at 1.
  assert (Hanswer : forall r : exc Embed,
            (embed ← r; mret (EDIT_MESSAGE embed)) <> Return DEFER).
  { by intros [embed | e]. }
  destruct b; simpl; unfold sort_kd_button, sort_place_button,
    previous_button, next_button.
  - intros Hmode. rewrite Hmode. split; [apply Hanswer |]. simpl.
    intros Hsame. apply (f_equal sort_by) in Hsame. simpl in Hsame.
    by rewrite <- Hsame in Hmode.
  - intros Hmode%negb_false_iff. rewrite Hmode. simpl.
    split; [apply Hanswer |].
    intros Hsame. apply (f_equal sort_by) in Hsame. simpl in Hsame.
    by rewrite <- Hsame in Hmode.
  - intros Hfirst%Z.eqb_neq.
    destruct (0 <? current_page v) eqn:Hprev;
      [| apply Z.ltb_ge in Hprev; lia].
    split; [apply Hanswer |]. simpl.
    intros Hsame. apply (f_equal current_page) in Hsame. simpl in Hsame. lia.
  - intros Hlast%Z.leb_gt.
    destruct (current_page v <? total_pages v - 1) eqn:Hnext;
      [| apply Z.ltb_ge in Hnext; lia].
    split; [apply Hanswer |]. simpl.
    intros Hsame. apply (f_equal current_page) in Hsame. simpl in Hsame. lia.
Qed.

Lemma StronglySorted_weaken {A} (R R' : relation A) (l : list A) :
  (forall a b, R a b -> R' a b) -> StronglySorted R l -> StronglySorted R' l.
Proof.
  intros Himpl. induction 1 as [| a l Hsorted IH Hall]; constructor; [done |].
  eapply Forall_impl; [exact Hall | by intros b; apply Himpl].
Qed.

Lemma sort_stats_sorted (mode : sort_mode) (l : list Player) :
  Forall (fun p => is_nan (kd (snd p)) = false) l ->
  StronglySorted (in_order mode) (sort_stats mode l).
Proof.
  intros Hl. destruct mode; simpl.
  - apply (list_sort_sorted SFltb (fun p : Player => kd (snd p)) true
             (fun x => is_nan x = false)); [| | done].
    + intros a b _ _. apply SFltb_asym.
    + intros a b c. apply SFltb_trans_neg.
  - eapply StronglySorted_weaken;
      [| apply (list_sort_sorted Z.ltb (fun p : Player => avg_place (snd p))
                  false (fun _ => True))].
    + intros a b. unfold goes_after. simpl. intros Hab%Z.ltb_ge. done.
    + intros a b _ _ Hab%Z.ltb_lt. apply Z.ltb_ge. lia.
    + intros a b c _ _ _ Hab%Z.ltb_ge Hbc%Z.ltb_ge. apply Z.ltb_ge. lia.
    + by apply Forall_forall.
Qed.

Lemma press_perm (b : button) (v : StatsPaginationView) :
  all_player_stats (fst (press MIN_GAMES b v)) ≡ₚ all_player_stats v.
Proof.
  destruct b; simpl; unfold sort_kd_button, sort_place_button,
    previous_button, next_button.
  - destruct (is_kd (sort_by v)); [done |]. apply (sort_stats_perm KD).
  - destruct (is_kd (sort_by v)); [| done]. apply (sort_stats_perm PLACE).
  - by destruct (0 <? current_page v).
  - by destruct (current_page v <? total_pages v - 1).
Qed.

Lemma press_sorted (b : button) (v : StatsPaginationView) :
  Forall (fun p => is_nan (kd (snd p)) = false) (all_player_stats v) ->
  StronglySorted (in_order (sort_by v)) (all_player_stats v) ->
  let v' := fst (press MIN_GAMES b v) in
  StronglySorted (in_order (sort_by v')) (all_player_stats v').
Proof.
  intros Hnan Hsorted.
  destruct b; simpl; unfold sort_kd_button, sort_place_button,
    previous_button, next_button.
  - destruct (is_kd (sort_by v)); [done |]. simpl.
    by apply (sort_stats_sorted KD).
  - destruct (is_kd (sort_by v)); simpl; [| done].
    by apply (sort_stats_sorted PLACE).
  - by destruct (0 <? current_page v).
  - by destruct (current_page v <? total_pages v - 1).
Qed.

End ViewFacts.

(** X20.  The page stays in range and the buttons tell the truth.
    After any series of presses on a view that [tab] made, the number
    of pages is unchanged, the list holds the same players, the page
    number is not negative and is either 0 or below the number of
    pages; a press on a button that is disabled defers and changes
    nothing, and a press on a button that is enabled never defers and
    changes the view. *)
Theorem navigation_stays_in_range (MIN_GAMES : Z)
    (player_stats : list Player) (view : StatsPaginationView)
    (bs : list button) :
  new_view player_stats = Return view ->
  let v := presses MIN_GAMES bs view in
  total_pages v = total_pages view /\
  all_player_stats v ≡ₚ player_stats /\
  0 <= current_page v /\
  (current_page v = 0 \/ current_page v < total_pages v) /\
  forall b,
    (disabled b v = true -> press MIN_GAMES b v = (v, Return DEFER)) /\
    (disabled b v = false ->
       snd (press MIN_GAMES b v) <> Return DEFER /\
       fst (press MIN_GAMES b v) <> v).
Proof.
  intros Hnew v.
  destruct (new_view_in_range _ _ Hnew) as (Hview & Hperm0 & _).
  destruct (presses_in_range MIN_GAMES bs view Hview)
    as (Hv & Htotal & Hperm).
  fold v in Hv, Htotal, Hperm.
  split; [done |]. split; [by rewrite Hperm |].
  destruct Hv as (Hpos & Hpage & Hflags).
  split; [done |]. split; [done |].
  intros b. split; intros Hb.
  - by apply disabled_press_defers.
  - by apply enabled_press_acts.
Qed.

Lemma navigation_stays_in_range_witness :
  exists view,
    new_view sample_table = Return view /\
    let v := presses 10 [NEXT; SORT_PLACE; PREVIOUS; SORT_KD] view in
    total_pages v = total_pages view /\
    all_player_stats v ≡ₚ sample_table /\
    0 <= current_page v /\
    (current_page v = 0 \/ current_page v < total_pages v) /\
    forall b,
      (disabled b v = true -> press 10 b v = (v, Return DEFER)) /\
      (disabled b v = false ->
         snd (press 10 b v) <> Return DEFER /\ fst (press 10 b v) <> v).
Proof.
  destruct (new_view sample_table) as [view |] eqn:Hnew;
    [| vm_compute in Hnew; discriminate Hnew].
  exists view. split; [reflexivity |].
  exact (navigation_stays_in_range 10 sample_table view
           [NEXT; SORT_PLACE; PREVIOUS; SORT_KD] Hnew).
Defined.

(** X21.  The table is always in the order of its mode.  When no K/D
    of the list is a NaN, after any series of presses the list of the
    view is sorted by the current [sort_by]: by K/D from the largest
    to the smallest, or by average place from the smallest to the
    largest. *)
Theorem table_stays_sorted (MIN_GAMES : Z) (player_stats : list Player)
    (view : StatsPaginationView) (bs : list button) :
  new_view player_stats = Return view ->
  Forall (fun p => is_nan (kd (snd p)) = false) player_stats ->
  let v := presses MIN_GAMES bs view in
  StronglySorted (in_order (sort_by v)) (all_player_stats v).
Proof.
  intros Hnew Hnan.
  destruct (new_view_in_range _ _ Hnew) as (_ & Hperm & Hmode & Hlist).
  assert (Hsorted : StronglySorted (in_order (sort_by view))
                      (all_player_stats view)).
  { rewrite Hmode, Hlist. by apply sort_stats_sorted. }
  assert (Hnan' : Forall (fun p => is_nan (kd (snd p)) = false)
                    (all_player_stats view)) by (by rewrite Hperm).
  clear Hnew Hperm Hmode Hlist Hnan. revert view Hsorted Hnan'.
  induction bs as [| b bs IH]; intros view Hsorted Hnan; simpl; [done |].
  apply IH; [by apply press_sorted | by rewrite press_perm].
Qed.

Lemma table_stays_sorted_witness :
  exists view,
    new_view sample_table = Return view /\
    Forall (fun p => is_nan (kd (snd p)) = false) sample_table /\
    let v := presses 10 [SORT_PLACE; NEXT] view in
    sort_by v = PLACE /\
    StronglySorted (in_order (sort_by v)) (all_player_stats v).
Proof.
  destruct (new_view sample_table) as [view |] eqn:Hnew;
    [| vm_compute in Hnew; discriminate Hnew].
  assert (Hnan : Forall (fun p => is_nan (kd (snd p)) = false) sample_table).
  { repeat (constructor; [reflexivity |]). constructor. }
  exists view. split; [reflexivity |]. split; [exact Hnan |].
  split.
  - vm_compute in Hnew. injection Hnew as <-. reflexivity.
  - exact (table_stays_sorted 10 sample_table view [SORT_PLACE; NEXT]
             Hnew Hnan).
Defined.

Lemma page_not_empty {A} (l : list A) (page_num : Z) :
  0 <= page_num < (Z.of_nat (length l) + 9) / 10 ->
  players_on_page l page_num <> [].
Proof.
  intros Hpage. rewrite players_on_page_take_drop by lia.
  pose proof (Z.div_mod (Z.of_nat (length l) + 9) 10) as Hdiv.
  pose proof (Z.mod_pos_bound (Z.of_nat (length l) + 9) 10) as Hmod.
  set (q := (Z.of_nat (length l) + 9) / 10) in *. clearbody q.
  intros Hnil. apply (f_equal length) in Hnil.
  rewrite length_take, length_drop in Hnil. cbn [length] in Hnil. lia.
Qed.

(** X22.  No empty page is shown.  For a list of between 1 and 10000
    players, the list that [tab] never passes empty, the page of the
    view has players after any series of presses: the field "no data"
    of [create_stats_embed] is never used. *)
Theorem shown_page_is_never_empty (MIN_GAMES : Z)
    (player_stats : list Player) (view : StatsPaginationView)
    (bs : list button) :
  new_view player_stats = Return view ->
  player_stats <> [] ->
  (length player_stats <= MAX_CHECKED_PLAYERS)%nat ->
  let v := presses MIN_GAMES bs view in
  0 <= current_page v < total_pages v /\
  players_on_page (all_player_stats v) (current_page v) <> [].
Proof.
  intros Hnew Hsome Hmax v.
  destruct (new_view_in_range _ _ Hnew) as (Hview & Hperm0 & _).
  destruct (presses_in_range MIN_GAMES bs view Hview)
    as ((Hpos & Hpage & _) & Htotal & Hperm).
  fold v in Hpos, Hpage, Htotal, Hperm.
  assert (Hlen : length (all_player_stats v) = length player_stats).
  { by rewrite Hperm, Hperm0. }
  assert (Hpages : total_pages v
                   = (Z.of_nat (length player_stats) + 9) / 10).
  { rewrite Htotal. unfold new_view in Hnew.
    rewrite (Permutation_length (sort_stats_perm KD player_stats)) in Hnew.
    rewrite page_count_closed in Hnew by done. simpl in Hnew.
    by injection Hnew as <-. }
  assert (Hone : 1 <= (Z.of_nat (length player_stats) + 9) / 10).
  { destruct player_stats as [| p rest]; [done |].
    apply Z.div_le_lower_bound; [lia |]. simpl length. lia. }
  assert (Hin : 0 <= current_page v < total_pages v) by lia.
  split; [done |].
  apply page_not_empty. rewrite Hlen, <- Hpages. done.
Qed.

Lemma shown_page_is_never_empty_witness :
  exists view,
    new_view sample_table = Return view /\
    sample_table <> [] /\
    (length sample_table <= MAX_CHECKED_PLAYERS)%nat /\
    let v := presses 10 [NEXT; NEXT; SORT_PLACE] view in
    0 <= current_page v < total_pages v /\
    players_on_page (all_player_stats v) (current_page v) <> [].
Proof.
  destruct (new_view sample_table) as [view |] eqn:Hnew;
    [| vm_compute in Hnew; discriminate Hnew].
  assert (Hsome : sample_table <> []) by discriminate.
  assert (Hmax : (length sample_table <= MAX_CHECKED_PLAYERS)%nat).
  { apply Nat.leb_le. vm_compute. reflexivity. }
  exists view. split; [reflexivity |].
  split; [exact Hsome |]. split; [exact Hmax |].
  exact (shown_page_is_never_empty 10 sample_table view
           [NEXT; NEXT; SORT_PLACE] Hnew Hsome Hmax).
Defined.

(** ** The fields of the embed *)

Section FieldFacts.

(** The loop over strings that are already made. *)
Let pack (strings : list str) (state : list str * str) : list str * str :=
  fold_left add_player_string strings state.

Lemma add_players_pack (i : Z) (players : list Player)
    (state : list str * str) :
  add_players i players state
  = (strings ← player_strings i players; mret (pack strings state)).
Proof.
  revert i state. induction players as [| stats players IH];
    intros i state; simpl; [done |].
  destruct (player_string i stats) as [s | e]; simpl; [| done].
  rewrite IH. by destruct (player_strings (i + 1) players).
Qed.

Lemma player_string_not_empty (i : Z) (stats : Player) (s : str) :
  player_string i stats = Return s -> s <> [].
Proof.
  unfold player_string. destruct stats as [nickname st].
  destruct (Float.round0 (avg_kills st)); [| done].
  destruct (Float.round0 (avg_deaths st)); [| done].
  by intros [= <-].
Qed.

Lemma player_strings_not_empty (i : Z) (players : list Player)
    (strings : list str) :
  player_strings i players = Return strings ->
  Forall (fun s => s <> []) strings /\ length strings = length players.
Proof.
  revert i strings. induction players as [| stats players IH];
    intros i strings; simpl.
  { by intros [= <-]. }
  destruct (player_string i stats) as [s | e] eqn:Hs; simpl; [| done].
  destruct (player_strings (i + 1) players) as [rest | e] eqn:Hrest;
    simpl; [| done].
  intros [= <-]. destruct (IH _ _ Hrest) as [Hall Hlen].
  split; [| by rewrite <- Hlen].
  constructor; [by eapply player_string_not_empty | done].
Qed.

Lemma pack_concat (strings fields : list str) (current : str) :
  concat (fst (pack strings (fields, current)))
  ++ snd (pack strings (fields, current))
  = concat fields ++ current ++ concat strings.
Proof.
  revert fields current.
  induction strings as [| s strings IH]; intros fields current; simpl.
  { by rewrite app_nil_r. }
  destruct (FIELD_LIMIT <? length current + length s)%nat; rewrite IH.
  - rewrite concat_app. simpl. by rewrite app_nil_r, <- !app_assoc.
  - by rewrite <- !app_assoc.
Qed.

Lemma pack_count (strings fields : list str) (current : str) :
  (length (fst (pack strings (fields, current)))
   <= length fields + length strings)%nat.
Proof.
  revert fields current.
  induction strings as [| s strings IH]; intros fields current; simpl;
    [lia |].
  destruct (FIELD_LIMIT <? length current + length s)%nat.
  - etransitivity; [apply IH |]. rewrite length_app. simpl. lia.
  - etransitivity; [apply IH |]. lia.
Qed.

(** A value within the limit, or one player string that is alone in
    its field. *)
Lemma pack_limit (all strings fields : list str) (current : str) :
  let fine f := (length f <= FIELD_LIMIT)%nat \/ f ∈ all in
  strings ⊆ all -> Forall fine fields -> fine current ->
  Forall fine (fst (pack strings (fields, current)))
  /\ fine (snd (pack strings (fields, current))).
Proof.
  intros fine. revert fields current.
  induction strings as [| s strings IH]; intros fields current Hsub Hfields
    Hcurrent; simpl; [done |].
  assert (Hs : s ∈ all) by (apply Hsub; by left).
  assert (Hrest : strings ⊆ all).
  { intros x Hx. apply Hsub. by right. }
  destruct (FIELD_LIMIT <? length current + length s)%nat eqn:Hover.
  - apply IH; [done | | by right].
    apply Forall_app. split; [done |]. by constructor.
  - apply IH; [done | done |]. left.
    apply Nat.ltb_ge in Hover. by rewrite length_app.
Qed.

Lemma pack_bounded (strings fields : list str) (current : str) :
  let good f := f <> [] /\ (length f <= FIELD_LIMIT)%nat in
  Forall good strings -> Forall good fields ->
  (length current <= FIELD_LIMIT)%nat ->
  Forall good (fst (pack strings (fields, current)))
  /\ (length (snd (pack strings (fields, current))) <= FIELD_LIMIT)%nat
  /\ (strings <> [] \/ current <> [] ->
      snd (pack strings (fields, current)) <> []).
Proof.
  intros good. revert fields current.
  induction strings as [| s strings IH]; intros fields current Hstrings
    Hfields Hcurrent; simpl.
  { split; [done |]. split; [done |]. by intros [? | ?]. }
  apply Forall_cons in Hstrings as [[Hs Hlen] Hstrings].
  destruct (FIELD_LIMIT <? length current + length s)%nat eqn:Hover.
  - apply Nat.ltb_lt in Hover.
    destruct (IH (fields ++ [current]) s) as (Hgood & Hlimit & Hsome);
      [done | | done |].
    + apply Forall_app. split; [done |].
      constructor; [| done]. split; [| done].
      intros ->. simpl in Hover. lia.
    + split; [done |]. split; [done |]. intros _. apply Hsome. by right.
  - apply Nat.ltb_ge in Hover.
    destruct (IH fields (current ++ s)) as (Hgood & Hlimit & Hsome);
      [done | done | by rewrite length_app |].
    split; [done |]. split; [done |]. intros _. apply Hsome. right.
    by destruct current.
Qed.

End FieldFacts.

(** X23.  The fields of the embed hold the strings of the players of
    the page, whole and in order.  [create_stats_embed] raises exactly
    when the string of a player of the page cannot be made (an
    average of kills or deaths that is infinite or a NaN).  Otherwise
    the values of the fields, joined, are the strings of the players
    joined; a field is within 1024 characters or is one player string
    alone; there are at most as many fields as players plus one; and
    when every string is within 1024 characters, every field is
    within 1024 characters and not empty. *)
Theorem fields_hold_the_player_strings (MIN_GAMES : Z)
    (player_list : list Player) (page_num total_pages : Z)
    (sort_mode : sort_mode) :
  let players := players_on_page player_list page_num in
  let made :=
    create_stats_embed MIN_GAMES player_list page_num total_pages
                       sort_mode in
  match player_strings (page_num * 10 + 1) players with
  | Raise e => made = Raise e
  | Return strings =>
      exists embed,
        made = Return embed /\
        description embed = sort_mode /\
        length strings = length players /\
        (players = [] -> fields embed = [NO_DATA]) /\
        (players <> [] ->
         concat (fields embed) = concat strings /\
         (forall f, f ∈ fields embed ->
            (length f <= FIELD_LIMIT)%nat \/ f ∈ strings) /\
         (length (fields embed) <= S (length strings))%nat /\
         (Forall (fun s => (length s <= FIELD_LIMIT)%nat) strings ->
          Forall (fun f => f <> [] /\ (length f <= FIELD_LIMIT)%nat)
                 (fields embed)))
  end.
Proof.
  intros players made. unfold made, create_stats_embed.
  fold (players_on_page player_list page_num). fold players.
  destruct players as [| p0 rest] eqn:Hplayers.
  { simpl. eexists. repeat split; simpl; done. }
  rewrite add_players_pack.
  destruct (player_strings (page_num * 10 + 1) (p0 :: rest))
    as [strings | e] eqn:Hstrings; [| done].
  destruct (player_strings_not_empty _ _ _ Hstrings) as [Hnonempty Hlen].
  cbn [mbind exc_bind mret exc_ret].
  pose proof (pack_concat strings [] []) as Hconcat.
  pose proof (pack_count strings [] []) as Hcount.
  pose proof (pack_limit strings strings [] []) as Hlimit.
  pose proof (pack_bounded strings [] []) as Hbounded.
  cbv beta zeta in Hconcat, Hcount, Hlimit, Hbounded.
  destruct (fold_left add_player_string strings ([], []))
    as [fields current] eqn:Hpack.
  assert (Hpack' : fold_left add_player_string strings
                             (@pair (list str) str [] [])
                   = (fields, current)) by exact Hpack.
  rewrite Hpack' in Hconcat, Hcount, Hlimit, Hbounded.
  simpl in Hconcat, Hcount, Hlimit, Hbounded.
  destruct Hlimit as [Hfields Hcurrent];
    [done | constructor | left; simpl; lia |].
  assert (Hsome0 : strings <> []).
  { intros ->. simpl in Hlen. lia. }
  assert (Hboth : Forall (fun s => (length s <= FIELD_LIMIT)%nat) strings ->
            Forall (fun s => s <> [] /\ (length s <= FIELD_LIMIT)%nat)
                   strings).
  { intros Hall. rewrite Forall_forall in Hall, Hnonempty |- *.
    intros s Hs. split; [by apply Hnonempty | by apply Hall]. }
  rewrite Forall_forall in Hfields.
  destruct current as [| c current];
    (eexists; split; [reflexivity |]; simpl;
     split; [done |]; split; [done |]; split; [done |]; intros _).
  - rewrite app_nil_r in Hconcat.
    split; [done |]. split; [exact Hfields |]. split; [lia |].
    intros Hall.
    destruct Hbounded as (_ & _ & Hsome);
      [by apply Hboth | constructor | simpl; lia |].
    destruct Hsome; [by left | done].
  - split; [by rewrite concat_app; simpl; rewrite app_nil_r |].
    split.
    { intros f [Hf | ->%list_elem_of_singleton]%elem_of_app;
        [by apply Hfields | done]. }
    split; [rewrite length_app; simpl; unfold str in *; lia |].
    intros Hall.
    destruct Hbounded as (Hgood & Hcur & _);
      [by apply Hboth | constructor | simpl; lia |].
    apply Forall_app. split; [done |]. by constructor.
Qed.

(** ** Averages that the aggregation writes are numbers *)

Lemma shr_1_nonneg (mrs : shr_record) :
  0 <= shr_m mrs -> 0 <= shr_m (shr_1 mrs).
Proof.
  destruct mrs as [m r s]. simpl.
  destruct m as [| [p | p |] | [p | p |]]; simpl; lia.
Qed.

Lemma iter_shr_1_nonneg (p : positive) (mrs : shr_record) :
  0 <= shr_m mrs -> 0 <= shr_m (SpecFloat.iter_pos shr_1 p mrs).
Proof.
  revert mrs. induction p as [p IH | p IH |]; intros mrs Hm; simpl.
  - apply IH, IH. by apply shr_1_nonneg.
  - by apply IH, IH.
  - by apply shr_1_nonneg.
Qed.

Lemma shr_fexp_nonneg (m e : Z) (l : location) :
  0 <= m -> 0 <= shr_m (fst (shr_fexp Float.prec Float.emax m e l)).
Proof.
  intros Hm. unfold shr_fexp, shr.
  assert (Hstart : 0 <= shr_m (shr_record_of_loc m l)).
  { by destruct l as [| []]. }
  destruct (fexp _ _ _ - e) as [| p | p]; simpl; [done | | done].
  by apply iter_shr_1_nonneg.
Qed.

Lemma binary_round_aux_not_nan (sx : bool) (mx ex : Z) (lx : location) :
  0 <= mx ->
  is_nan (binary_round_aux Float.prec Float.emax sx mx ex lx) = false.
Proof.
  intros Hmx. unfold binary_round_aux.
  pose proof (shr_fexp_nonneg mx ex lx Hmx) as Hfirst.
  destruct (shr_fexp Float.prec Float.emax mx ex lx) as [mrs' e'].
  simpl in Hfirst.
  assert (Hround : 0 <= round_nearest_even (shr_m mrs')
                          (loc_of_shr_record mrs')).
  { unfold round_nearest_even.
    destruct (loc_of_shr_record mrs') as [| []]; try lia.
    destruct (Z.even (shr_m mrs')); lia. }
  pose proof (shr_fexp_nonneg _ e' loc_Exact Hround) as Hsecond.
  destruct (shr_fexp Float.prec Float.emax _ e' loc_Exact) as [mrs'' e''].
  simpl in Hsecond.
  destruct (shr_m mrs'') as [| m | m]; [done | | lia].
  by destruct (e'' <=? Float.emax - Float.prec).
Qed.

Lemma nearest_quotient_not_nan (s : bool) (a b : positive) :
  is_nan (Float.nearest_quotient s a b) = false.
Proof.
  unfold Float.nearest_quotient, SFdiv, SFdiv_core_binary.
  set (m' := match _ - _ - _ with
             | Zpos _ => _ | Z0 => _ | Zneg _ => _ end).
  assert (Hm' : 0 <= m').
  { unfold m'. destruct (_ - _ - _) as [| p | p]; try lia.
    apply Z.shiftl_nonneg. lia. }
  pose proof (Z.div_pos m' (Zpos b) Hm' eq_refl) as Hq.
  unfold Z.div in Hq.
  destruct (Z.div_eucl m' (Zpos b)) as [q r]. simpl in Hq.
  by apply binary_round_aux_not_nan.
Qed.

Lemma finite_or_overflow_number (x y : Float.float) :
  is_nan x = false -> Float.finite_or_overflow x = Return y ->
  is_number y = true.
Proof. destruct x; simpl; try done; by intros _ [= <-]. Qed.

Lemma int_true_div_number (a b : Z) (x : Float.float) :
  Float.int_true_div a b = Return x -> is_number x = true.
Proof.
  unfold Float.int_true_div. destruct b as [| b | b]; [done | |];
    (destruct (Z.abs a) as [| ma | ma];
     [by intros [= <-]
     | apply finite_or_overflow_number, nearest_quotient_not_nan
     | by intros [= <-]]).
Qed.

Lemma round2_number (x y : Float.float) :
  is_number x = true -> Float.round2 x = Return y -> is_number y = true.
Proof.
  destruct x as [s | s | | s m e]; simpl; try done.
  - by intros _ [= <-].
  - intros _. destruct (Float.rne_scaled (Z.pos m * 100) e) as [| n | n];
      [by intros [= <-]
      | apply finite_or_overflow_number, nearest_quotient_not_nan
      | by intros [= <-]].
Qed.

Lemma round0_number (x : Float.float) :
  is_number x = true -> exists n, Float.round0 x = Return n.
Proof. destruct x; simpl; try done; by eexists. Qed.

Lemma averages_of_showable (stats_list : list StatTuple) (entry : Averages) :
  averages_of stats_list = Return entry ->
  is_number (avg_kills entry) = true /\ is_number (avg_deaths entry) = true.
Proof.
  unfold averages_of. intros Hentry.
  apply bind_Return in Hentry as (mean_kills & Hkills & Hentry).
  apply bind_Return in Hentry as (mean_deaths & Hdeaths & Hentry).
  apply bind_Return in Hentry as (mean_place & _ & Hentry).
  apply bind_Return in Hentry as (the_place & _ & Hentry).
  apply bind_Return in Hentry as (the_kd & _ & Hentry).
  apply bind_Return in Hentry as (the_kills & Hthe_kills & Hentry).
  apply bind_Return in Hentry as (the_deaths & Hthe_deaths & Hentry).
  apply bind_Return in Hentry as (mean_assists & _ & Hentry).
  apply bind_Return in Hentry as (the_assists & _ & Hentry).
  apply bind_Return in Hentry as (mean_score & _ & Hentry).
  apply bind_Return in Hentry as (the_score & _ & Hentry).
  injection Hentry as <-. simpl. split.
  - eapply round2_number; [| exact Hthe_kills].
    by eapply int_true_div_number.
  - eapply round2_number; [| exact Hthe_deaths].
    by eapply int_true_div_number.
Qed.

Lemma player_string_starts (i : Z) (stats : Player) (s : str) :
  player_string i stats = Return s -> exists rest, s = 42%N :: rest.
Proof.
  unfold player_string. destruct stats as [nickname st].
  destruct (Float.round0 (avg_kills st)); [| done].
  destruct (Float.round0 (avg_deaths st)); [| done].
  intros [= <-]. by eexists.
Qed.

Lemma fields_of_page (MIN_GAMES : Z) (player_list : list Player)
    (page_num total_pages : Z) (mode : sort_mode) (embed : Embed) :
  create_stats_embed MIN_GAMES player_list page_num total_pages mode
  = Return embed ->
  players_on_page player_list page_num <> [] ->
  fields embed <> [NO_DATA].
Proof.
  unfold create_stats_embed.
  fold (players_on_page player_list page_num).
  destruct (players_on_page player_list page_num) as [| p0 rest]; [done |].
  rewrite add_players_pack. cbn [player_strings].
  destruct (player_string (page_num * 10 + 1) p0) as [s0 | e] eqn:Hs0;
    [| done].
  destruct (player_string_starts _ _ _ Hs0) as [tail ->].
  destruct (player_strings (page_num * 10 + 1 + 1) rest) as [strings | e];
    [| done].
  cbn [mbind exc_bind mret exc_ret].
  pose proof (pack_concat ((42%N :: tail) :: strings) [] []) as Hconcat.
  cbv beta in Hconcat.
  match goal with
  | |- context [fold_left add_player_string ?l ?a] =>
      destruct (fold_left add_player_string l a)
        as [added current] eqn:Hpack
  end.
  assert (Hpack' : fold_left add_player_string ((42%N :: tail) :: strings)
                             (@pair (list str) str [] [])
                   = (added, current)) by exact Hpack.
  rewrite Hpack' in Hconcat. clear Hpack Hpack'.
  cbn [fst snd concat app] in Hconcat.
  intros Hembed _ Hno.
  destruct current as [| c current];
    injection Hembed as <-; cbn [fields] in Hno.
  - rewrite Hno in Hconcat. discriminate Hconcat.
  - destruct added as [| f [| f' added]]; try discriminate Hno.
    injection Hno as Hno. rewrite Hno in Hconcat. discriminate Hconcat.
Qed.

Section TabFacts.

Context `{UnicodeData}.
Variable MIN_GAMES : Z.

Lemma aggregate_showable (raw_data_dict : RawStore)
    (averages : PlayerAverages) (result : update_result) :
  aggregate MIN_GAMES raw_data_dict = Return (Some (averages, result)) ->
  Forall showable averages /\
  exists total_kills total_deaths,
    result = Summary (length averages) MIN_GAMES total_kills total_deaths.
Proof.
  intros Hagg.
  assert (Hcount : NoDup (keys averages) /\
            exists total_kills total_deaths,
              result = Summary (length averages) MIN_GAMES
                               total_kills total_deaths).
  { unfold aggregate in Hagg.
    apply bind_Return in Hagg as (active & Hactive & Hagg).
    destruct (all_stats raw_data_dict) as [| r stats] eqn:Hstats;
      [discriminate |].
    apply bind_Return in Hagg as ([averages' n] & Hnew & Hagg).
    injection Hagg as <- <-.
    destruct (fold_averages_keys MIN_GAMES active
                (grouped_data raw_data_dict) [] 0%nat averages' n
                (group_wf stats_of (all_stats raw_data_dict)))
      as (kept & Hsub & Hkeys & Hn).
    { intros k _ Hin. by apply elem_of_nil in Hin. }
    { exact Hnew. }
    simpl in Hkeys, Hn. subst n.
    assert (Hlen : length averages' = length kept).
    { rewrite <- Hkeys. unfold keys. by rewrite length_map. }
    rewrite Hlen, Hkeys. split; [| by eexists _, _].
    apply (sublist_NoDup kept (keys (grouped_data raw_data_dict)));
      [apply (group_wf stats_of) | exact Hsub]. }
  destruct Hcount as [Hwf Hresult]. split; [| done].
  apply Forall_forall. intros [name entry] Hin.
  apply (dict_get_elem name entry averages Hwf) in Hin.
  destruct (aggregate_entry MIN_GAMES _ _ _ _ _ Hagg Hin)
    as (active & stats_list & _ & _ & _ & _ & Hentry).
  by apply (averages_of_showable stats_list).
Qed.

Lemma player_strings_showable (i : Z) (players : list Player) :
  Forall showable players ->
  exists strings, player_strings i players = Return strings.
Proof.
  revert i. induction players as [| [nickname st] players IH];
    intros i Hall; simpl; [by eexists |].
  apply Forall_cons in Hall as [[Hkills Hdeaths] Hall]. simpl in *.
  destruct (round0_number _ Hkills) as [the_kills ->].
  destruct (round0_number _ Hdeaths) as [the_deaths ->]. simpl.
  destruct (IH (i + 1) Hall) as [rest ->]. simpl. by eexists.
Qed.

Lemma players_on_page_Forall {A} (P : A -> Prop) (l : list A)
    (page_num : Z) :
  Forall P l -> Forall P (players_on_page l page_num).
Proof.
  intros Hall. unfold players_on_page, slice.
  by apply Forall_take, Forall_drop.
Qed.

Lemma create_stats_embed_showable (player_list : list Player)
    (page_num total_pages : Z) (mode : sort_mode) :
  Forall showable player_list ->
  exists embed,
    create_stats_embed MIN_GAMES player_list page_num total_pages mode
    = Return embed.
Proof.
  intros Hall. unfold create_stats_embed.
  fold (players_on_page player_list page_num).
  pose proof (players_on_page_Forall showable player_list page_num Hall)
    as Hpage.
  destruct (players_on_page player_list page_num) as [| p0 rest];
    [by eexists |].
  rewrite add_players_pack.
  destruct (player_strings_showable (page_num * 10 + 1) (p0 :: rest) Hpage)
    as [strings ->].
  cbn [mbind exc_bind mret exc_ret].
  destruct (fold_left add_player_string strings ([], []))
    as [fields [| c current]]; by eexists.
Qed.

Lemma presses_showable (bs : list button) (view : StatsPaginationView) :
  Forall showable (all_player_stats view) ->
  Forall showable (all_player_stats (presses MIN_GAMES bs view)).
Proof.
  revert view. induction bs as [| b bs IH]; intros view Hall; simpl;
    [done |].
  apply IH. by rewrite press_perm.
Qed.

Lemma press_showable (b : button) (view : StatsPaginationView) :
  Forall showable (all_player_stats view) ->
  exists r, snd (press MIN_GAMES b view) = Return r.
Proof.
  intros Hall.
  assert (Hupdate : forall v, Forall showable (all_player_stats v) ->
            exists r, snd (_update_view MIN_GAMES v) = Return r).
  { intros v Hv. unfold _update_view. cbn [snd].
    destruct (create_stats_embed_showable
                (all_player_stats (update_buttons_state v))
                (current_page (update_buttons_state v))
                (total_pages (update_buttons_state v))
                (sort_by (update_buttons_state v)) Hv) as [embed ->].
    by eexists. }
  destruct b; simpl; unfold sort_kd_button, sort_place_button,
    previous_button, next_button.
  - destruct (is_kd (sort_by view)); [by eexists |].
    apply Hupdate. cbn [all_player_stats with_page _sort_stats with_sort_by].
    by rewrite sort_stats_perm.
  - destruct (is_kd (sort_by view)); cbn [negb]; [| by eexists].
    apply Hupdate. cbn [all_player_stats with_page _sort_stats with_sort_by].
    by rewrite sort_stats_perm.
  - destruct (0 <? current_page view); [| by eexists]. by apply Hupdate.
  - destruct (current_page view <? total_pages view - 1); [| by eexists].
    by apply Hupdate.
Qed.

End TabFacts.

(** X24.  The table shows what the update wrote.  After a run of the
    aggregation that reports [n] players (at most 10000) into an
    averages file that can be written, the [tab] command never
    raises: with no player it sends the note that the statistics are
    empty; otherwise it sends the table of exactly the [n] players
    written, on [ceil(n / 10)] pages, and no press of a button raises
    afterwards (every average written is a number, so every string of
    a player can be made). *)
Theorem tab_shows_what_update_wrote `{UnicodeData} (MIN_GAMES : Z)
    (w w' : World) (n : nat) (min_games total_kills total_deaths : Z) :
  update_player_averages MIN_GAMES w
  = (Return (Summary n min_games total_kills total_deaths), w') ->
  read_only w PLAYER_AVERAGES_FILE = false ->
  (n <= MAX_CHECKED_PLAYERS)%nat ->
  exists averages,
    read_json_db PLAYER_AVERAGES_FILE w' = Return (Some averages) /\
    length averages = n /\
    match averages with
    | [] => tab MIN_GAMES w' = Return STATS_EMPTY
    | _ :: _ =>
        exists embed view,
          tab MIN_GAMES w' = Return (TABLE embed view) /\
          all_player_stats view ≡ₚ averages /\
          current_page view = 0 /\
          total_pages view = (Z.of_nat n + 9) / 10 /\
          fields embed <> [NO_DATA] /\
          forall bs b, exists r,
            snd (press MIN_GAMES b (presses MIN_GAMES bs view)) = Return r
    end.
Proof.
  intros Hupdate Hwritable Hmax.
  destruct (update_cases MIN_GAMES w)
    as [[_ Hrun] | [(e & _ & Hrun) | (raw & _ & _ & Hrun)]];
    [congruence | congruence |].
  destruct Hrun as [(e & _ & Hrun) | [[_ Hrun] | Hrun]];
    [congruence | congruence |].
  destruct Hrun as (averages & result & Hagg & Hrun).
  rewrite Hwritable, Hupdate in Hrun. injection Hrun as <- Hw'.
  destruct (aggregate_showable MIN_GAMES _ _ _ Hagg)
    as (Hshow & tk & td & Hresult).
  injection Hresult as -> _ _ _.
  assert (Hread : read_json_db PLAYER_AVERAGES_FILE w'
                  = Return (Some averages)) by (by rewrite Hw').
  exists averages. split; [done |]. split; [done |].
  unfold tab. rewrite Hread. cbn [mbind exc_bind].
  destruct averages as [| p0 rest] eqn:Haverages; [done |].
  rewrite <- Haverages in *. clear Hread.
  assert (Hsorted : Forall showable (sort_stats KD averages))
    by (by rewrite sort_stats_perm).
  unfold new_view.
  rewrite (Permutation_length (sort_stats_perm KD averages)).
  rewrite page_count_closed by done. cbn [mbind exc_bind mret exc_ret].
  set (view := update_buttons_state _).
  assert (Hpage : players_on_page (all_player_stats view) 0 <> []).
  { apply page_not_empty. unfold view. cbn [all_player_stats
      update_buttons_state].
    rewrite (Permutation_length (sort_stats_perm KD averages)).
    rewrite Haverages. cbn [length].
    split; [lia |]. apply Z.div_str_pos. lia. }
  destruct (create_stats_embed_showable MIN_GAMES (all_player_stats view)
              (current_page view) (total_pages view) (sort_by view) Hsorted)
    as [embed Hembed].
  rewrite Hembed. exists embed, view.
  split; [done |]. split; [apply (sort_stats_perm KD) |].
  split; [done |]. split; [done |].
  split; [by apply (fields_of_page MIN_GAMES _ _ _ _ embed Hembed) |].
  intros bs b. apply press_showable. by apply presses_showable.
Qed.

Lemma tab_shows_what_update_wrote_witness :
  exists w' n min_games total_kills total_deaths,
    update_player_averages (H := ascii_tables) 1 (world_of vortex_store)
    = (Return (Summary n min_games total_kills total_deaths), w') /\
    read_only (world_of vortex_store) PLAYER_AVERAGES_FILE = false /\
    (n <= MAX_CHECKED_PLAYERS)%nat /\
    exists averages,
      read_json_db PLAYER_AVERAGES_FILE w' = Return (Some averages) /\
      length averages = n /\
      match averages with
      | [] => tab 1 w' = Return STATS_EMPTY
      | _ :: _ =>
          exists embed view,
            tab 1 w' = Return (TABLE embed view) /\
            all_player_stats view ≡ₚ averages /\
            current_page view = 0 /\
            total_pages view = (Z.of_nat n + 9) / 10 /\
            fields embed <> [NO_DATA] /\
            forall bs b, exists r,
              snd (press 1 b (presses 1 bs view)) = Return r
      end.
Proof.
  destruct (update_player_averages (H := ascii_tables) 1
              (world_of vortex_store))
    as [[[m | n min_games total_kills total_deaths] | e] w'] eqn:Hrun.
  - vm_compute in Hrun. discriminate Hrun.
  - assert (Hn : (n <= MAX_CHECKED_PLAYERS)%nat).
    { pose proof Hrun as Hrun'. vm_compute in Hrun'.
      injection Hrun' as <- _ _ _ _. apply Nat.leb_le. vm_compute.
      reflexivity. }
    exists w', n, min_games, total_kills, total_deaths.
    split; [reflexivity |]. split; [reflexivity |]. split; [exact Hn |].
    exact (tab_shows_what_update_wrote (H := ascii_tables) 1
             (world_of vortex_store) w' n min_games total_kills
             total_deaths Hrun eq_refl Hn).
  - vm_compute in Hrun. discriminate Hrun.
Defined.
